(** * Asynchronous coordination primitives of the editor core

    A shallow embedding of [vs/base/common/async.ts] (createCancelablePromise,
    Throttler, Delayer, first, IdleValue, Promises.settled), of
    [vs/base/common/lazy.ts] (Lazy) and of the single-flight request cache of
    [OutlineModel.create] / [OutlineModel._create], over a small model of the
    JavaScript job queue: a heap of promises with their reactions, the
    microtask queue, armed timers and cancellation sources.  Closures of the
    source are defunctionalised: every arrow function becomes a constructor
    that carries the variables it captures, and one [call] function per module
    gives its body. *)

From stdpp Require Import gmap strings list fin_maps pretty.

Local Open Scope nat_scope.

(** ** Values *)

#[warnings="-register-all"]
Inductive val : Type :=
  | VUndefined
  | VNull
  | VBool (b : bool)
  | VNum (n : Z)
  | VStr (s : string)
  | VObj (r : nat)          (* an object, known by its reference: Error instances, models *)
  | VError (name : string)  (* an error made by the platform, known by its name *)
  | VPromise (p : nat)
  | VArr (vs : list val).

(** ToBoolean.  Objects, errors, promises and arrays are truthy. *)
Definition truthy (v : val) : bool :=
  match v with
  | VUndefined | VNull => false
  | VBool b => b
  | VNum n => negb (n =? 0)%Z
  | VStr s => match s with EmptyString => false | _ => true end
  | VObj _ | VError _ | VPromise _ | VArr _ => true
  end.

(** [typeof v === 'undefined'] *)
Definition is_undefined (v : val) : bool :=
  match v with
  | VUndefined => true
  | _ => false
  end.

(** The promise that a value is, if it is one. *)
Definition as_promise (v : val) : option nat :=
  match v with
  | VPromise p => Some p
  | _ => None
  end.

(** A promise is never fulfilled with a promise: [resolve] follows it. *)
Definition is_promise (v : val) : bool :=
  match as_promise v with
  | Some _ => true
  | None => false
  end.

(** [canceled()] of [vs/base/common/errors]: the distinguished error. *)
Definition canceled : val := VError "Canceled".

(** How a call ends: [return v] or [throw e]. *)
Inductive completion : Type :=
  | Normal (v : val)
  | Throw (e : val).

(** How a promise settles. *)
Inductive outcome : Type :=
  | Fulfil (v : val)
  | Fail (e : val).

(** ** The runtime: promises, jobs, timers, cancellation sources *)

Section Runtime.
Context {clo ust : Type}.

  (** Callable values: the resolving functions of a promise, the element
      function of [Promise.all], [source.cancel] bound to its source, and the
      closures [clo] of the program. *)
Inductive fn : Type :=
    | FResolve (p : nat)
    | FReject (p : nat)
    | FAdoptFulfil (p : nat)
    | FAdoptReject (p : nat)
    | FAllElement (a i : nat)
    | FCancel (src : nat)
    | FClo (c : clo).

Record reaction : Type := Reaction {
    on_fulfilled : option fn;
    on_rejected : option fn;
    derived : option nat
  }.

  (** [Pending locked rs]: [locked] is the alreadyResolved flag of the
      promise's resolving functions (set when it was resolved with another
      promise and now follows it). *)
Inductive pstate : Type :=
    | Pending (locked : bool) (rs : list reaction)
    | Fulfilled (v : val)
    | Rejected (e : val).

Inductive job : Type :=
    | ReactionJob (h : option fn) (rejected : bool) (arg : val) (d : option nat)
    | ThenableJob (p q : nat).

Record all_state : Type := AllState {
    all_values : list val;
    all_remaining : nat
  }.

  (** Modelled from the spec: the cancellation source and its token
      ([vs/base/common/cancellation] is not part of the sources).  Section 4.1:
      requesting cancellation moves the state to cancelled once, and calls the
      listeners synchronously at that moment; a later request does nothing;
      disposing unregisters the listeners and does not cancel.  The two
      counters record how often [cancel()] and [dispose()] were called. *)
Record source : Type := Source {
    is_cancelled : bool;
    listeners : list fn;
    cancel_calls : nat;
    dispose_calls : nat
  }.

Record rt : Type := Rt {
    promises : gmap nat pstate;
    next_promise : nat;
    jobs : list job;
    alls : gmap nat all_state;
    timers : gmap nat (fn * Z);   (* armed timers: callback and delay *)
    next_timer : nat;
    sources : gmap nat source;
    next_source : nat;
    invocations : list (nat * nat);   (* the factories invoked so far, oldest first, each with the promise it returned *)
    user : ust
  }.

Definition set_promises (m : gmap nat pstate) (s : rt) : rt :=
    Rt m (next_promise s) (jobs s) (alls s) (timers s) (next_timer s)
       (sources s) (next_source s) (invocations s) (user s).
Definition set_next_promise (n : nat) (s : rt) : rt :=
    Rt (promises s) n (jobs s) (alls s) (timers s) (next_timer s)
       (sources s) (next_source s) (invocations s) (user s).
Definition set_jobs (js : list job) (s : rt) : rt :=
    Rt (promises s) (next_promise s) js (alls s) (timers s) (next_timer s)
       (sources s) (next_source s) (invocations s) (user s).
Definition set_alls (m : gmap nat all_state) (s : rt) : rt :=
    Rt (promises s) (next_promise s) (jobs s) m (timers s) (next_timer s)
       (sources s) (next_source s) (invocations s) (user s).
Definition set_timers (m : gmap nat (fn * Z)) (s : rt) : rt :=
    Rt (promises s) (next_promise s) (jobs s) (alls s) m (next_timer s)
       (sources s) (next_source s) (invocations s) (user s).
Definition set_next_timer (n : nat) (s : rt) : rt :=
    Rt (promises s) (next_promise s) (jobs s) (alls s) (timers s) n
       (sources s) (next_source s) (invocations s) (user s).
Definition set_sources (m : gmap nat source) (s : rt) : rt :=
    Rt (promises s) (next_promise s) (jobs s) (alls s) (timers s) (next_timer s)
       m (next_source s) (invocations s) (user s).
Definition set_next_source (n : nat) (s : rt) : rt :=
    Rt (promises s) (next_promise s) (jobs s) (alls s) (timers s) (next_timer s)
       (sources s) n (invocations s) (user s).
Definition set_invocations (l : list (nat * nat)) (s : rt) : rt :=
    Rt (promises s) (next_promise s) (jobs s) (alls s) (timers s) (next_timer s)
       (sources s) (next_source s) l (user s).
Definition set_user (u : ust) (s : rt) : rt :=
    Rt (promises s) (next_promise s) (jobs s) (alls s) (timers s) (next_timer s)
       (sources s) (next_source s) (invocations s) u.

Definition init (u : ust) : rt := Rt ∅ 0 [] ∅ ∅ 0 ∅ 0 [] u.

  (** *** A state monad over the runtime *)

Definition M (A : Type) : Type := rt -> A * rt.
Definition ret {A} (a : A) : M A := fun s => (a, s).
Definition bind {A B} (m : M A) (k : A -> M B) : M B :=
    fun s => let (a, s') := m s in k a s'.
Definition get_user : M ust := fun s => (user s, s).
Definition put_user (u : ust) : M unit := fun s => (tt, set_user u s).
Definition modify_user (f : ust -> ust) : M unit :=
    fun s => (tt, set_user (f (user s)) s).
Definition exec {A} (m : M A) (s : rt) : rt := snd (m s).

Local Notation "'let*' x ':=' m 'in' k" := (bind m (fun x => k))
    (at level 10, x name, m at level 100, k at level 200, only parsing).
Local Notation "m ;;; k" := (bind m (fun _ => k))
    (at level 100, k at level 200, only parsing, right associativity).

  (** *** Promises *)

Definition alloc_promise (st : pstate) : M nat := fun s =>
    let p := next_promise s in
    (p, set_next_promise (S p) (set_promises (<[p := st]> (promises s)) s)).

  (** [new Promise(executor)]: the executor's body follows in the caller. *)
Definition new_promise : M nat := alloc_promise (Pending false []).

Definition enqueue (js : list job) : M unit := fun s =>
    (tt, set_jobs (jobs s ++ js) s).

Definition jobs_of (rs : list reaction) (rejected : bool) (v : val) : list job :=
    map (fun r => ReactionJob (if rejected then on_rejected r else on_fulfilled r)
                              rejected v (derived r)) rs.

  (** FulfillPromise / RejectPromise: a pending promise settles and its
      reactions are queued in the order they were registered. *)
Definition settle (p : nat) (o : outcome) : M unit := fun s =>
    match promises s !! p with
    | Some (Pending _ rs) =>
        match o with
        | Fulfil v =>
            (tt, set_jobs (jobs s ++ jobs_of rs false v)
                   (set_promises (<[p := Fulfilled v]> (promises s)) s))
        | Fail e =>
            (tt, set_jobs (jobs s ++ jobs_of rs true e)
                   (set_promises (<[p := Rejected e]> (promises s)) s))
        end
    | _ => (tt, s)
    end.

  (** The [resolve] function of promise [p]. *)
Definition resolve_promise (p : nat) (v : val) : M unit := fun s =>
    match promises s !! p with
    | Some (Pending false rs) =>
        match as_promise v with
        | Some q =>
            if decide (q = p) then settle p (Fail (VError "TypeError")) s
            else (tt, set_jobs (jobs s ++ [ThenableJob p q])
                        (set_promises (<[p := Pending true rs]> (promises s)) s))
        | None => settle p (Fulfil v) s
        end
    | _ => (tt, s)
    end.

  (** The [reject] function of promise [p]. *)
Definition reject_promise (p : nat) (e : val) : M unit := fun s =>
    match promises s !! p with
    | Some (Pending false _) => settle p (Fail e) s
    | _ => (tt, s)
    end.

  (** PerformPromiseThen. *)
Definition perform_then (p : nat) (onF onR : option fn) (d : option nat) : M unit :=
    fun s =>
    match promises s !! p with
    | Some (Pending l rs) =>
        (tt, set_promises (<[p := Pending l (rs ++ [Reaction onF onR d])]> (promises s)) s)
    | Some (Fulfilled v) => enqueue [ReactionJob onF false v d] s
    | Some (Rejected e) => enqueue [ReactionJob onR true e d] s
    | None => (tt, s)
    end.

  (** [p.then(onF, onR)]. *)
Definition then_ (p : nat) (onF onR : option fn) : M nat :=
    bind new_promise (fun d =>
    bind (perform_then p onF onR (Some d)) (fun _ => ret d)).

  (** [Promise.resolve(x)]. *)
Definition promise_resolve (x : val) : M nat :=
    match as_promise x with
    | Some p => ret p
    | None => alloc_promise (Fulfilled x)
    end.

  (** [Promise.all(xs)]: one element function per input, the aggregate is
      resolved with the array of values when the last one was called, and
      rejected by the first input that rejects. *)
Fixpoint all_loop (a : nat) (i : nat) (xs : list val) : M unit :=
    match xs with
    | [] => ret tt
    | x :: xs' =>
        bind (promise_resolve x) (fun p =>
        bind (then_ p (Some (FAllElement a i)) (Some (FReject a))) (fun _ =>
        all_loop a (S i) xs'))
    end.

Definition promise_all (xs : list val) : M nat :=
    bind new_promise (fun a =>
    bind (fun s => (tt, set_alls (<[a := AllState (replicate (length xs) VUndefined)
                                                  (length xs)]> (alls s)) s)) (fun _ =>
    bind (all_loop a 0 xs) (fun _ =>
    bind (match xs with
          | [] => resolve_promise a (VArr [])
          | _ => ret tt
          end) (fun _ => ret a)))).

Definition all_element (a i : nat) (v : val) : M unit := fun s =>
    match alls s !! a with
    | Some st =>
        let vs := <[i := v]> (all_values st) in
        let r := pred (all_remaining st) in
        let s' := set_alls (<[a := AllState vs r]> (alls s)) s in
        if decide (r = 0) then resolve_promise a (VArr vs) s' else (tt, s')
    | None => (tt, s)
    end.

  (** *** Factories supplied by the caller

      A task factory is known by a number.  Invoking it is recorded in
      [invocations] and yields a new pending promise, which the environment
      settles later with [settle]. *)
Definition invoke_factory (f : nat) : M nat := fun s =>
    new_promise (set_invocations (invocations s ++ [(f, next_promise s)]) s).

  (** The factories invoked so far. *)
Definition invoked (s : rt) : list nat := (invocations s).*1.

  (** The promise that the latest invocation returned. *)
Definition latest_promise (s : rt) : option nat := snd <$> last (invocations s).

  (** *** Timers *)

Definition set_timeout (f : fn) (delay : Z) : M nat := fun s =>
    let t := next_timer s in
    (t, set_next_timer (S t) (set_timers (<[t := (f, delay)]> (timers s)) s)).

Definition clear_timeout (t : nat) : M unit := fun s =>
    (tt, set_timers (delete t (timers s)) s).

Definition read_timer (t : nat) : M (option (fn * Z)) := fun s => (timers s !! t, s).

  (** *** Cancellation sources *)

Definition new_source : M nat := fun s =>
    let c := next_source s in
    (c, set_next_source (S c)
          (set_sources (<[c := Source false [] 0 0]> (sources s)) s)).

Definition source_cancelled (c : nat) (s : rt) : bool :=
    match sources s !! c with
    | Some r => is_cancelled r
    | None => false
    end.

  (** [token.isCancellationRequested] *)
Definition is_cancellation_requested (c : nat) : M bool := fun s =>
    (source_cancelled c s, s).

  (** [source.dispose()]. *)
Definition dispose_source (c : nat) : M unit := fun s =>
    match sources s !! c with
    | Some r =>
        (tt, set_sources (<[c := Source (is_cancelled r) [] (cancel_calls r)
                                        (S (dispose_calls r))]> (sources s)) s)
    | None => (tt, s)
    end.

  (** *** Calling functions *)

Variable call : clo -> val -> M completion.

Definition apply_with (cancel_ : nat -> M unit) (f : fn) (arg : val) : M completion :=
    match f with
    | FResolve p => resolve_promise p arg ;;; ret (Normal VUndefined)
    | FReject p => reject_promise p arg ;;; ret (Normal VUndefined)
    | FAdoptFulfil p => settle p (Fulfil arg) ;;; ret (Normal VUndefined)
    | FAdoptReject p => settle p (Fail arg) ;;; ret (Normal VUndefined)
    | FAllElement a i => all_element a i arg ;;; ret (Normal VUndefined)
    | FCancel c => cancel_ c ;;; ret (Normal VUndefined)
    | FClo c => call c arg
    end.

  (** The listeners of an event are called in the order of registration. *)
Fixpoint fire (apply_ : fn -> val -> M completion) (ls : list fn) : M unit :=
    match ls with
    | [] => ret tt
    | l :: ls' => apply_ l VUndefined ;;; fire apply_ ls'
    end.

Definition read_source (c : nat) : M (option source) := fun s => (sources s !! c, s).
Definition write_source (c : nat) (r : source) : M unit := fun s =>
    (tt, set_sources (<[c := r]> (sources s)) s).

  (** [source.cancel()]: listeners may cancel further sources; [fuel] bounds
      that nesting. *)
Fixpoint cancel (fuel : nat) (c : nat) : M unit :=
    match fuel with
    | O => ret tt
    | S k =>
        let* r := read_source c in
        match r with
        | Some r =>
            if is_cancelled r then
              write_source c (Source true (listeners r) (S (cancel_calls r))
                                     (dispose_calls r))
            else
              write_source c (Source true [] (S (cancel_calls r)) (dispose_calls r)) ;;;
              fire (apply_with (cancel k)) (listeners r)
        | None => ret tt
        end
    end.

  (** The nesting of effective cancellations is bounded by the number of
      sources, since each one marks a source that was not cancelled before. *)
Definition cancel_source (c : nat) : M unit := fun s =>
    cancel (S (next_source s)) c s.

Definition apply_fn (f : fn) (arg : val) : M completion := fun s =>
    apply_with (cancel (S (next_source s))) f arg s.

  (** [token.onCancellationRequested(listener)]: called at once when the
      cancellation was already requested. *)
Definition on_cancellation_requested (c : nat) (l : fn) : M unit :=
    let* r := read_source c in
    match r with
    | Some r =>
        if is_cancelled r then apply_fn l VUndefined ;;; ret tt
        else write_source c (Source false (listeners r ++ [l]) (cancel_calls r)
                                    (dispose_calls r))
    | None => ret tt
    end.

  (** [new CancellationTokenSource(parent)]. *)
Definition new_child_source (parent : nat) : M nat :=
    let* c := new_source in
    on_cancellation_requested parent (FCancel c) ;;;
    ret c.

  (** *** Running jobs *)

Definition finish (d : option nat) (r : completion) : M unit :=
    match d with
    | None => ret tt
    | Some d =>
        match r with
        | Normal v => resolve_promise d v
        | Throw e => reject_promise d e
        end
    end.

Definition run_job (j : job) : M unit :=
    match j with
    | ReactionJob None rejected arg d =>
        finish d (if rejected then Throw arg else Normal arg)
    | ReactionJob (Some f) _ arg d =>
        let* r := apply_fn f arg in
        finish d r
    | ThenableJob p q =>
        perform_then q (Some (FAdoptFulfil p)) (Some (FAdoptReject p)) None
    end.

  (** One microtask. *)
Definition step (s : rt) : option rt :=
    match jobs s with
    | [] => None
    | j :: js => Some (exec (run_job j) (set_jobs js s))
    end.

  (** Runs microtasks until the queue is empty; [None] when [fuel] jobs did
      not empty it. *)
Fixpoint drain (fuel : nat) (s : rt) : option rt :=
    match step s with
    | None => Some s
    | Some s' =>
        match fuel with
        | O => None
        | S k => drain k s'
        end
    end.

  (** The environment settles the promise of the latest invocation with each
      outcome in turn, and lets the microtasks run after each. *)
Fixpoint feed (fuel : nat) (os : list outcome) (s : rt) : option rt :=
    match os with
    | [] => Some s
    | o :: os' =>
        match latest_promise s with
        | Some p =>
            match drain fuel (exec (settle p o) s) with
            | Some s' => feed fuel os' s'
            | None => None
            end
        | None => None
        end
    end.

  (** A timer fires: its callback runs as a task of its own. *)
Definition fire_timer (t : nat) : M unit :=
    let* armed := read_timer t in
    match armed with
    | Some (f, _) => clear_timeout t ;;; apply_fn f VUndefined ;;; ret tt
    | None => ret tt
    end.

Definition promise_state (p : nat) (s : rt) : option pstate := promises s !! p.

  (** How often [cancel()] and [dispose()] were called on a source. *)
Definition cancellations (c : nat) (s : rt) : nat :=
    match sources s !! c with Some r => cancel_calls r | None => 0 end.
Definition disposals (c : nat) (s : rt) : nat :=
    match sources s !! c with Some r => dispose_calls r | None => 0 end.

End Runtime.

Arguments fn : clear implicits.
Arguments reaction : clear implicits.
Arguments pstate : clear implicits.
Arguments job : clear implicits.
Arguments source : clear implicits.
Arguments rt : clear implicits.
Arguments M : clear implicits.

Notation "'let*' x ':=' m 'in' k" := (bind m (fun x => k))
  (at level 10, x name, m at level 100, k at level 200, only parsing).
Notation "m ;;; k" := (bind m (fun _ => k))
  (at level 100, k at level 200, only parsing, right associativity).

(** ** createCancelablePromise *)

Module CancelablePromise.

  (** The arrow functions of [createCancelablePromise], with the variables
      they capture. *)
Inductive clo : Type :=
    | OnCancel (promise : nat)          (* () => { reject(canceled()); } *)
    | OnValue (source promise : nat)    (* value => { source.dispose(); resolve(value); } *)
    | OnError (source promise : nat).   (* err => { source.dispose(); reject(err); } *)

Definition state : Type := rt clo unit.

Definition call (c : clo) (arg : val) : M clo unit completion :=
    match c with
    | OnCancel promise =>
        reject_promise promise canceled ;;;
        ret (Normal VUndefined)
    | OnValue source promise =>
        dispose_source source ;;;
        resolve_promise promise arg ;;;
        ret (Normal VUndefined)
    | OnError source promise =>
        dispose_source source ;;;
        reject_promise promise arg ;;;
        ret (Normal VUndefined)
    end.

  (** The object returned: [cancel()] reaches [source], [then] reaches
      [promise]; [thenable] is what the callback returned. *)
Record cancelable : Type := Cancelable {
    source : nat;
    thenable : nat;
    promise : nat
  }.

Definition createCancelablePromise (callback : nat) : M clo unit cancelable :=
    let* source := new_source in
    let* thenable := invoke_factory callback in
    let* promise := new_promise in
    on_cancellation_requested call source (FClo (OnCancel promise)) ;;;
    let* q := promise_resolve (VPromise thenable) in
    then_ q (Some (FClo (OnValue source promise)))
            (Some (FClo (OnError source promise))) ;;;
    ret (Cancelable source thenable promise).

Definition cancel (c : cancelable) : M clo unit unit :=
    cancel_source call (source c).

End CancelablePromise.

(** ** Lazy and IdleValue *)

Module LazyValue.

  (** The executor is supplied by the caller: [executor n] is how its
      invocation number [n] ends.  [runs] counts the invocations. *)
Record t : Type := Lazy {
    _didRun : bool;
    _value : val;
    _error : val;
    runs : nat
  }.

  (** [new Lazy(executor)]. *)
Definition new : t := Lazy false VUndefined VUndefined 0.

  (** [Lazy.getValue()]. *)
Definition getValue (executor : nat -> completion) (this : t) : completion * t :=
    let this1 :=
      if negb (_didRun this) then
        match executor (runs this) with
        | Normal v => Lazy true v (_error this) (S (runs this))
        | Throw err => Lazy true (_value this) err (S (runs this))
        end
      else this in
    if truthy (_error this1) then (Throw (_error this1), this1)
    else (Normal (_value this1), this1).

  (** Repeated [getValue()]: the results, oldest first, and the final state. *)
Fixpoint getValues (executor : nat -> completion) (n : nat) (this : t)
    : list completion * t :=
    match n with
    | O => ([], this)
    | S k =>
        let (r, this1) := getValue executor this in
        let (rs, this2) := getValues executor k this1 in
        (r :: rs, this2)
    end.

End LazyValue.

Module IdleValue.

  (** [handle_disposed] is the [disposed] flag of the handle that
      [runWhenIdle] returned; [scheduled] tells whether the idle callback is
      still registered with the platform. *)
Record t : Type := Idle {
    _didRun : bool;
    _value : val;
    _error : val;
    handle_disposed : bool;
    scheduled : bool;
    runs : nat
  }.

  (** [new IdleValue(executor)]: the executor is scheduled, not run. *)
Definition new : t := Idle false VUndefined VUndefined false true 0.

  (** [this._executor()]: try / catch / finally around the executor. *)
Definition _executor (executor : nat -> completion) (this : t) : t :=
    match executor (runs this) with
    | Normal v =>
        Idle true v (_error this) (handle_disposed this) (scheduled this) (S (runs this))
    | Throw err =>
        Idle true (_value this) err (handle_disposed this) (scheduled this) (S (runs this))
    end.

  (** [this._handle.dispose()] *)
Definition handle_dispose (this : t) : t :=
    if handle_disposed this then this
    else Idle (_didRun this) (_value this) (_error this) true false (runs this).

  (** [dispose()] *)
Definition dispose (this : t) : t := handle_dispose this.

  (** [get value()] *)
Definition value (executor : nat -> completion) (this : t) : completion * t :=
    let this1 :=
      if negb (_didRun this) then _executor executor (handle_dispose this)
      else this in
    if truthy (_error this1) then (Throw (_error this1), this1)
    else (Normal (_value this1), this1).

  (** The platform reaches idle time: the callback, if still registered,
      runs once. *)
Definition idle (executor : nat -> completion) (this : t) : t :=
    if scheduled this then
      _executor executor
        (Idle (_didRun this) (_value this) (_error this) (handle_disposed this)
              false (runs this))
    else this.

Inductive event : Type := Access | IdleTime | Dispose.

  (** A sequence of events; the result of every access, oldest first. *)
Fixpoint run (executor : nat -> completion) (evs : list event) (this : t)
    : list completion * t :=
    match evs with
    | [] => ([], this)
    | Access :: evs' =>
        let (r, this1) := value executor this in
        let (rs, this2) := run executor evs' this1 in
        (r :: rs, this2)
    | IdleTime :: evs' => run executor evs' (idle executor this)
    | Dispose :: evs' => run executor evs' (dispose this)
    end.

End IdleValue.

(** ** Throttler *)

Module Throttler.

Record t : Type := Throttler {
    activePromise : option nat;
    queuedPromise : option nat;
    queuedPromiseFactory : option nat
  }.

  (** [new Throttler()] *)
Definition new : t := Throttler None None None.

Inductive clo : Type :=
    | OnComplete                   (* onComplete *)
    | OnActiveResult (r : nat)     (* result => { this.activePromise = null; resolve(result); } *)
    | OnActiveError (r : nat).     (* err => { this.activePromise = null; reject(err); } *)

Definition state : Type := rt clo t.

Definition set_activePromise (p : option nat) (this : t) : t :=
    Throttler p (queuedPromise this) (queuedPromiseFactory this).
Definition set_queuedPromise (p : option nat) (this : t) : t :=
    Throttler (activePromise this) p (queuedPromiseFactory this).
Definition set_queuedPromiseFactory (f : option nat) (this : t) : t :=
    Throttler (activePromise this) (queuedPromise this) f.

  (** [queue(promiseFactory)]; the result is the promise returned. *)
Definition queue (promiseFactory : nat) : M clo t nat :=
    let* this := get_user in
    match activePromise this with
    | Some active =>
        modify_user (set_queuedPromiseFactory (Some promiseFactory)) ;;;
        (match queuedPromise this with
         | None =>
             let* q := new_promise in
             let* d := then_ active (Some (FClo OnComplete)) (Some (FClo OnComplete)) in
             then_ d (Some (FResolve q)) None ;;;
             modify_user (set_queuedPromise (Some q))
         | Some _ => ret tt
         end) ;;;
        let* this := get_user in
        let* r := new_promise in
        (match queuedPromise this with
         | Some q => then_ q (Some (FResolve r)) (Some (FReject r)) ;;; ret tt
         | None => ret tt
         end) ;;;
        ret r
    | None =>
        let* p := invoke_factory promiseFactory in
        modify_user (set_activePromise (Some p)) ;;;
        let* r := new_promise in
        then_ p (Some (FClo (OnActiveResult r))) (Some (FClo (OnActiveError r))) ;;;
        ret r
    end.

Definition call (c : clo) (arg : val) : M clo t completion :=
    match c with
    | OnComplete =>
        modify_user (set_queuedPromise None) ;;;
        let* this := get_user in
        match queuedPromiseFactory this with
        | Some f =>
            let* result := queue f in
            modify_user (set_queuedPromiseFactory None) ;;;
            ret (Normal (VPromise result))
        | None => ret (Throw (VError "TypeError"))
        end
    | OnActiveResult r =>
        modify_user (set_activePromise None) ;;;
        resolve_promise r arg ;;;
        ret (Normal VUndefined)
    | OnActiveError r =>
        modify_user (set_activePromise None) ;;;
        reject_promise r arg ;;;
        ret (Normal VUndefined)
    end.

End Throttler.

(** ** Delayer *)

Module Delayer.

Record t : Type := Delayer {
    defaultDelay : Z;
    timeout : option nat;
    completionPromise : option nat;
    doResolve : option nat;     (* the promise whose [resolve] function it holds *)
    doReject : option nat;      (* the promise whose [reject] function it holds *)
    task : option nat
  }.

  (** [new Delayer(defaultDelay)] *)
Definition new (defaultDelay : Z) : t := Delayer defaultDelay None None None None None.

Inductive clo : Type :=
    | OnTimeout     (* () => { this.timeout = null; if (this.doResolve) { this.doResolve(null); } } *)
    | OnElapsed.    (* () => { this.completionPromise = null; this.doResolve = null; ... task() } *)

Definition state : Type := rt clo t.

Definition set_timeout_ (x : option nat) (this : t) : t :=
    Delayer (defaultDelay this) x (completionPromise this) (doResolve this)
            (doReject this) (task this).
Definition set_completionPromise (x : option nat) (this : t) : t :=
    Delayer (defaultDelay this) (timeout this) x (doResolve this)
            (doReject this) (task this).
Definition set_doResolve (x : option nat) (this : t) : t :=
    Delayer (defaultDelay this) (timeout this) (completionPromise this) x
            (doReject this) (task this).
Definition set_doReject (x : option nat) (this : t) : t :=
    Delayer (defaultDelay this) (timeout this) (completionPromise this)
            (doResolve this) x (task this).
Definition set_task (x : option nat) (this : t) : t :=
    Delayer (defaultDelay this) (timeout this) (completionPromise this)
            (doResolve this) (doReject this) x.

  (** [cancelTimeout()] *)
Definition cancelTimeout : M clo t unit :=
    let* this := get_user in
    match timeout this with
    | Some h => clear_timeout h ;;; modify_user (set_timeout_ None)
    | None => ret tt
    end.

  (** [trigger(task, delay)]; [delay = None] stands for the default. *)
Definition trigger (task : nat) (delay : option Z) : M clo t nat :=
    let* this0 := get_user in
    let delay := default (defaultDelay this0) delay in
    modify_user (set_task (Some task)) ;;;
    cancelTimeout ;;;
    let* this := get_user in
    (match completionPromise this with
     | None =>
         let* p := new_promise in
         modify_user (set_doResolve (Some p)) ;;;
         modify_user (set_doReject (Some p)) ;;;
         let* c := then_ p (Some (FClo OnElapsed)) None in
         modify_user (set_completionPromise (Some c))
     | Some _ => ret tt
     end) ;;;
    let* h := set_timeout (FClo OnTimeout) delay in
    modify_user (set_timeout_ (Some h)) ;;;
    let* this := get_user in
    ret (default 0 (completionPromise this)).

  (** [isTriggered()] *)
Definition isTriggered (this : t) : bool :=
    match timeout this with Some _ => true | None => false end.

  (** [cancel()] *)
Definition cancel : M clo t unit :=
    cancelTimeout ;;;
    let* this := get_user in
    match completionPromise this with
    | Some _ =>
        (match doReject this with
         | Some p => reject_promise p canceled
         | None => ret tt
         end) ;;;
        modify_user (set_completionPromise None)
    | None => ret tt
    end.

  (** [dispose()] *)
Definition dispose : M clo t unit := cancelTimeout.

Definition call (c : clo) (arg : val) : M clo t completion :=
    match c with
    | OnTimeout =>
        modify_user (set_timeout_ None) ;;;
        let* this := get_user in
        match doResolve this with
        | Some p => resolve_promise p VNull ;;; ret (Normal VUndefined)
        | None => ret (Normal VUndefined)
        end
    | OnElapsed =>
        modify_user (set_completionPromise None) ;;;
        modify_user (set_doResolve None) ;;;
        let* this := get_user in
        match task this with
        | Some f =>
            modify_user (set_task None) ;;;
            let* p := invoke_factory f in
            ret (Normal (VPromise p))
        | None => ret (Normal VUndefined)
        end
    end.

End Delayer.

(** ** first *)

Module First.

  (** The variables that [loop] captures; [index] lives in a cell of its
      own, as it is assigned. *)
Record env : Type := Env {
    index : nat;                   (* the cell that holds [index] *)
    promiseFactories : list nat;
    shouldStop : val -> bool;
    defaultValue : val
  }.

Inductive clo : Type :=
    | OnResult (e : env).   (* result => { if (shouldStop(result)) ...; return loop(); } *)

  (** The cells of the calls of [first] made so far. *)
Record t : Type := Cells {
    cells : gmap nat nat;
    next_cell : nat
  }.

Definition new : t := Cells ∅ 0.

Definition state : Type := rt clo t.

Definition read_index (e : env) : M clo t nat := fun s =>
    (default 0 (cells (user s) !! index e), s).
Definition write_index (e : env) (i : nat) : M clo t unit :=
    modify_user (fun u => Cells (<[index e := i]> (cells u)) (next_cell u)).

  (** [loop()] *)
Definition loop (e : env) : M clo t nat :=
    let* i := read_index e in
    if decide (length (promiseFactories e) <= i) then
      promise_resolve (defaultValue e)
    else
      match promiseFactories e !! i with
      | Some factory =>
          write_index e (S i) ;;;
          let* p := invoke_factory factory in
          let* promise := promise_resolve (VPromise p) in
          then_ promise (Some (FClo (OnResult e))) None
      | None => ret 0
      end.

Definition call (c : clo) (arg : val) : M clo t completion :=
    match c with
    | OnResult e =>
        if shouldStop e arg then
          let* p := promise_resolve arg in
          ret (Normal (VPromise p))
        else
          let* p := loop e in
          ret (Normal (VPromise p))
    end.

  (** [first(promiseFactories, shouldStop, defaultValue)] *)
Definition first (promiseFactories : list nat) (shouldStop : val -> bool)
      (defaultValue : val) : M clo t nat :=
    let* u := get_user in
    let c := next_cell u in
    put_user (Cells (<[c := 0]> (cells u)) (S c)) ;;;
    loop (Env c promiseFactories shouldStop defaultValue).

End First.

(** ** Promises.settled *)

Module Promises.

Inductive clo : Type :=
    | OnValue                      (* value => value *)
    | OnError (firstError : nat)   (* error => { if (!firstError) { firstError = error; } return undefined; } *)
    | Resume (firstError r : nat)  (* what follows the await *)
    | ResumeThrow (r : nat).       (* the await throws *)

  (** The cells that hold [firstError], one per call. *)
Record t : Type := Cells {
    cells : gmap nat val;
    next_cell : nat
  }.

Definition new : t := Cells ∅ 0.

Definition state : Type := rt clo t.

Definition read_firstError (c : nat) : M clo t val := fun s =>
    (default VUndefined (cells (user s) !! c), s).
Definition write_firstError (c : nat) (v : val) : M clo t unit :=
    modify_user (fun u => Cells (<[c := v]> (cells u)) (next_cell u)).

  (** [let firstError = undefined] *)
Definition new_firstError : M clo t nat := fun s =>
    let c := next_cell (user s) in
    (c, set_user (Cells (<[c := VUndefined]> (cells (user s))) (S c)) s).

Fixpoint map_then (firstError : nat) (promises : list nat) : M clo t (list val) :=
    match promises with
    | [] => ret []
    | promise :: rest =>
        let* d := then_ promise (Some (FClo OnValue)) (Some (FClo (OnError firstError))) in
        let* ds := map_then firstError rest in
        ret (VPromise d :: ds)
    end.

  (** [settled(promises)]: the promise of the async function is made first,
      its body runs up to the await. *)
Definition settled (promises : list nat) : M clo t nat :=
    let* r := new_promise in
    let* firstError := new_firstError in
    let* mapped := map_then firstError promises in
    let* a := promise_all mapped in
    perform_then a (Some (FClo (Resume firstError r))) (Some (FClo (ResumeThrow r))) None ;;;
    ret r.

Definition call (c : clo) (arg : val) : M clo t completion :=
    match c with
    | OnValue => ret (Normal arg)
    | OnError firstError =>
        let* e := read_firstError firstError in
        (if negb (truthy e) then write_firstError firstError arg else ret tt) ;;;
        ret (Normal VUndefined)
    | Resume firstError r =>
        let* e := read_firstError firstError in
        if is_undefined e then resolve_promise r arg ;;; ret (Normal VUndefined)
        else reject_promise r e ;;; ret (Normal VUndefined)
    | ResumeThrow r => reject_promise r arg ;;; ret (Normal VUndefined)
    end.

End Promises.

(** ** OutlineModel: the single-flight request cache *)

Module Outline.

  (** What the code reads of an [ITextModel]. *)
Record textModel : Type := TextModel {
    tm_id : string;
    tm_versionId : nat;
    tm_uri : string
  }.

  (** The objects made by [_create]: groups and models.  An
      [OutlineElement] directly below a group is kept with its [symbol] and
      its [parent]; its id and the elements below it are left out.  Among the
      [children] of a model an element is known by the group that made it and
      its position in that group, which stand for its id: [findId] makes the
      ids of the elements of one group differ, and each begins with the id of
      its group. *)
Record element : Type := OutlineElement {
    symbol : val;
    parent : nat
  }.

Inductive child : Type :=
    | GroupChild (id : string) (group : nat)
    | ElementChild (group position : nat).

Inductive object : Type :=
    | OutlineGroup (id : string) (order : nat) (children : list element)
    | OutlineModel (uri : string) (_groups : list (string * nat)) (children : list child).

  (** The data object stored in [_requests]. *)
Record entry : Type := Entry {
    promiseCnt : Z;
    source : nat;
    promise : nat;
    model : val
  }.

Inductive clo : Type :=
    | UpdateDurations (textModel : textModel)
        (* () => { this._requestDurations.update(textModel, Date.now() - now); } *)
    | OnTokenCancelled (data : nat) (key : string)
        (* () => { if (--data.promiseCnt === 0) { data.source.cancel(); _requests.delete(key); } } *)
    | OnModel (data : nat) (resolve : nat)
        (* model => { data.model = model; resolve(model); } *)
    | OnCreateError (key : string) (reject : nat)
        (* err => { _requests.delete(key); reject(err); } *)
    | OnSymbols (group : nat)
        (* result => { for (const info of result || []) {...} return group; } *)
    | OnProviderError (group : nat)
        (* err => { onUnexpectedExternalError(err); return group; } *)
    | OnGroup (result : nat) (id : string)
        (* group => { if (!TreeElement.empty(group)) {...} else { group.remove(); } } *)
    | OnRegistryChange (textModel : textModel) (provider : list nat) (cts : nat)
        (* () => { ... if (!equals(newProvider, provider)) { cts.cancel(); } } *)
    | Retry (textModel : textModel) (token cts result : nat)
        (* () => { if (cts.token.isCancellationRequested && !token.isCancellationRequested) ... } *)
    | ThenFinally (listener : nat)     (* finally(() => { listener.dispose(); }), on success *)
    | CatchFinally (listener : nat)    (* the same, on failure *)
    | ValueThunk (v : val)             (* () => value *)
    | Thrower (e : val).               (* () => { throw reason; } *)

  (** Modelled from the spec: [_requests] is a map from key to entry (section
      3, "key -> {referenceCount, source, in-flight task, optional resolved
      result}"); the [LRUCache] class is not part of the sources, and its
      eviction of the oldest keys is not modelled.  The registry of providers
      is not part of the sources either: [providers] is what [ordered] and
      [all] return, [change_listeners] are the listeners of [onDidChange]. *)
Record t : Type := State {
    _requests : gmap string nat;
    entries : gmap nat entry;
    next_entry : nat;
    keys_counter : nat;
    keys_data : gmap nat nat;
    providers : list nat;
    change_listeners : list (nat * clo);
    next_listener : nat;
    objects : gmap nat object;
    next_object : nat;
    created : nat;            (* how often [_create] was called *)
    unexpected : list val     (* what [onUnexpectedExternalError] received *)
  }.

Definition new (providers : list nat) : t :=
    State ∅ ∅ 0 1 ∅ providers [] 0 ∅ 0 0 [].

Definition state : Type := rt clo t.

Definition set_requests (m : gmap string nat) (u : t) : t :=
    State m (entries u) (next_entry u) (keys_counter u) (keys_data u) (providers u)
          (change_listeners u) (next_listener u) (objects u) (next_object u)
          (created u) (unexpected u).
Definition set_entries (m : gmap nat entry) (n : nat) (u : t) : t :=
    State (_requests u) m n (keys_counter u) (keys_data u) (providers u)
          (change_listeners u) (next_listener u) (objects u) (next_object u)
          (created u) (unexpected u).
Definition set_keys (c : nat) (d : gmap nat nat) (u : t) : t :=
    State (_requests u) (entries u) (next_entry u) c d (providers u)
          (change_listeners u) (next_listener u) (objects u) (next_object u)
          (created u) (unexpected u).
Definition set_providers (ps : list nat) (u : t) : t :=
    State (_requests u) (entries u) (next_entry u) (keys_counter u) (keys_data u) ps
          (change_listeners u) (next_listener u) (objects u) (next_object u)
          (created u) (unexpected u).
Definition set_change_listeners (ls : list (nat * clo)) (n : nat) (u : t) : t :=
    State (_requests u) (entries u) (next_entry u) (keys_counter u) (keys_data u)
          (providers u) ls n (objects u) (next_object u) (created u) (unexpected u).
Definition set_objects (m : gmap nat object) (n : nat) (u : t) : t :=
    State (_requests u) (entries u) (next_entry u) (keys_counter u) (keys_data u)
          (providers u) (change_listeners u) (next_listener u) m n
          (created u) (unexpected u).
Definition set_created (n : nat) (u : t) : t :=
    State (_requests u) (entries u) (next_entry u) (keys_counter u) (keys_data u)
          (providers u) (change_listeners u) (next_listener u) (objects u)
          (next_object u) n (unexpected u).
Definition set_unexpected (l : list val) (u : t) : t :=
    State (_requests u) (entries u) (next_entry u) (keys_counter u) (keys_data u)
          (providers u) (change_listeners u) (next_listener u) (objects u)
          (next_object u) (created u) l.

  (** *** [_keys] *)

  (** [_hash(providers)] *)
Fixpoint _hash (ps : list nat) (result : string) : M clo t string :=
    match ps with
    | [] => ret result
    | provider :: rest =>
        let* u := get_user in
        let* n :=
          match keys_data u !! provider with
          | Some n => ret n
          | None =>
              put_user (set_keys (S (keys_counter u))
                                 (<[provider := keys_counter u]> (keys_data u)) u) ;;;
              ret (keys_counter u)
          end in
        _hash rest (result +:+ pretty n)
    end.

  (** [_keys.for(textModel, version)] *)
Definition keys_for (textModel : textModel) (version : bool) : M clo t string :=
    let* u := get_user in
    let* h := _hash (providers u) EmptyString in
    ret (tm_id textModel +:+ "/" +:+
         (if version then pretty (tm_versionId textModel) else EmptyString) +:+
         "/" +:+ h).

  (** *** Objects and entries *)

Definition alloc_object (o : object) : M clo t nat := fun s =>
    let r := next_object (user s) in
    (r, set_user (set_objects (<[r := o]> (objects (user s))) (S r) (user s)) s).

Definition write_object (r : nat) (o : object) : M clo t unit :=
    modify_user (fun u => set_objects (<[r := o]> (objects u)) (next_object u) u).

Definition read_object (r : nat) : M clo t (option object) := fun s =>
    (objects (user s) !! r, s).

Definition alloc_entry (e : entry) : M clo t nat := fun s =>
    let d := next_entry (user s) in
    (d, set_user (set_entries (<[d := e]> (entries (user s))) (S d) (user s)) s).

Definition write_entry (d : nat) (e : entry) : M clo t unit :=
    modify_user (fun u => set_entries (<[d := e]> (entries u)) (next_entry u) u).

  (** [_requests.get(key)] *)
Definition requests_get (key : string) : M clo t (option nat) := fun s =>
    (_requests (user s) !! key, s).

Definition read_entry (d : nat) : M clo t entry := fun s =>
    (default (Entry 0 0 0 VUndefined) (entries (user s) !! d), s).

  (** [TreeElement.findId(candidate, container)] for a string candidate:
      [taken] are the keys of [container.children]. *)
Fixpoint findId_loop (fuel i : nat) (candidateId id : string) (taken : list string)
    : string :=
    if bool_decide (id ∈ taken) then
      match fuel with
      | O => id
      | S k => findId_loop k (S i) candidateId (candidateId +:+ "_" +:+ pretty i) taken
      end
    else id.

Definition findId (candidate : string) (container_id : string) (taken : list string)
    : string :=
    let candidateId := container_id +:+ "/" +:+ candidate in
    findId_loop (S (length taken)) 0 candidateId candidateId taken.

  (** The keys of [container.children] that [findId] can meet when it names
      a group: the ids of groups. *)
Definition children_keys (c : list child) : list string :=
    omap (fun x => match x with
                   | GroupChild id _ => Some id
                   | ElementChild _ _ => None
                   end) c.

  (** [TreeElement.empty(group)] *)
Definition empty (o : option object) : bool :=
    match o with
    | Some (OutlineGroup _ _ elements) => bool_decide (elements = [])
    | _ => true
    end.

Definition same_key (a b : child) : bool :=
    match a, b with
    | GroupChild i _, GroupChild j _ => bool_decide (i = j)
    | ElementChild g k, ElementChild h l => bool_decide (g = h) && bool_decide (k = l)
    | _, _ => false
    end.

  (** [children.set(child.id, child)]: a key that is in the map keeps its
      place, a new key goes to the end. *)
Fixpoint set_child (c : child) (cs : list child) : list child :=
    match cs with
    | [] => [c]
    | x :: rest => if same_key x c then c :: rest else x :: set_child c rest
    end.

  (** [child.parent = this] *)
Definition set_parent (this : nat) (e : element) : element :=
    OutlineElement (symbol e) this.

  (** The loop over [group.children] in [_compact]: every element of the
      group [g], which has [n] of them, is set into the children. *)
Definition adopt (g n : nat) (children : list child) : list child :=
    foldl (fun cs k => set_child (ElementChild g k) cs) children (seq 0 n).

  (** [this.children = this._groups] *)
Definition group_children (groups : list (string * nat)) : list child :=
    (fun g => GroupChild g.1 g.2) <$> groups.

  (** [result._compact()] *)
Definition _compact (result : nat) : M clo t unit :=
    let* u := get_user in
    let* r := read_object result in
    match r with
    | Some (OutlineModel uri groups children) =>
        let kept := filter (fun g => empty (objects u !! g.2) = false) groups in
        if decide (length kept = 1) then
          match kept with
          | (_, g) :: _ =>
              match objects u !! g with
              | Some (OutlineGroup id order elements) =>
                  write_object g (OutlineGroup id order (set_parent result <$> elements)) ;;;
                  write_object result
                    (OutlineModel uri kept (adopt g (length elements) children))
              | _ => write_object result (OutlineModel uri kept children)
              end
          | [] => ret tt
          end
        else write_object result (OutlineModel uri kept (group_children kept))
    | _ => ret tt
    end.

  (** [listener.dispose()] for a listener of [onDidChange]. *)
Definition dispose_listener (l : nat) : M clo t unit :=
    modify_user (fun u =>
      set_change_listeners (filter (fun x => x.1 ≠ l) (change_listeners u))
                           (next_listener u) u).

Section Code.
    (** How a closure of this module is called from inside the code. *)
Variable self : clo -> val -> state -> completion * state.

    (** The body of [provider.map((provider, index) => ...)] in [_create],
        for the providers from [index] on. *)
Fixpoint start_providers (textModel : textModel) (cts result : nat) (index : nat)
        (provider : list nat) : M clo t (list val) :=
      match provider with
      | [] => ret []
      | p :: rest =>
          let* r := read_object result in
          let taken :=
            match r with
            | Some (OutlineModel _ _ children) => children_keys children
            | _ => []
            end in
          let id := findId ("provider_" +:+ pretty index) "root" taken in
          let* group := alloc_object (OutlineGroup id index []) in
          let* symbols := invoke_factory p in
          let* q := promise_resolve (VPromise symbols) in
          let* d1 := then_ q (Some (FClo (OnSymbols group)))
                             (Some (FClo (OnProviderError group))) in
          let* d2 := then_ d1 (Some (FClo (OnGroup result id))) None in
          let* ds := start_providers textModel cts result (S index) rest in
          ret (VPromise d2 :: ds)
      end.

    (** [OutlineModel._create(textModel, token)] *)
Definition _create (textModel : textModel) (token : nat) : M clo t nat :=
      modify_user (fun u => set_created (S (created u)) u) ;;;
      let* cts := new_child_source self token in
      let* result := alloc_object (OutlineModel (tm_uri textModel) [] []) in
      let* u := get_user in
      let provider := providers u in
      let* promises := start_providers textModel cts result 0 provider in
      let* u := get_user in
      let listener := next_listener u in
      put_user (set_change_listeners
                  (change_listeners u ++ [(listener, OnRegistryChange textModel provider cts)])
                  (S listener) u) ;;;
      let* a := promise_all promises in
      let* t := then_ a (Some (FClo (Retry textModel token cts result))) None in
      then_ t (Some (FClo (ThenFinally listener))) (Some (FClo (CatchFinally listener))).

    (** [OutlineModel.create(textModel, token)] *)
Definition create (textModel : textModel) (token : nat) : M clo t nat :=
      let* key := keys_for textModel true in
      let* cached := requests_get key in
      let* data :=
        match cached with
        | Some data => ret data
        | None =>
            let* source := new_source in
            let* promise := _create textModel source in
            let* data := alloc_entry (Entry 0 source promise VUndefined) in
            modify_user (fun u => set_requests (<[key := data]> (_requests u)) u) ;;;
            then_ promise (Some (FClo (UpdateDurations textModel))) None ;;;
            ret data
        end in
      let* e := read_entry data in
      if truthy (model e) then promise_resolve (model e)
      else
        write_entry data (Entry (promiseCnt e + 1) (source e) (promise e) (model e)) ;;;
        on_cancellation_requested self token (FClo (OnTokenCancelled data key)) ;;;
        let* r := new_promise in
        let* e := read_entry data in
        then_ (promise e) (Some (FClo (OnModel data r))) (Some (FClo (OnCreateError key r))) ;;;
        ret r.

Definition body (c : clo) (arg : val) : M clo t completion :=
      match c with
      | UpdateDurations _ => ret (Normal VUndefined)
      | OnTokenCancelled data key =>
          let* e := read_entry data in
          let cnt := (promiseCnt e - 1)%Z in
          write_entry data (Entry cnt (source e) (promise e) (model e)) ;;;
          (if decide (cnt = 0%Z) then
             cancel_source self (source e) ;;;
             modify_user (fun u => set_requests (delete key (_requests u)) u)
           else ret tt) ;;;
          ret (Normal VUndefined)
      | OnModel data resolve =>
          let* e := read_entry data in
          write_entry data (Entry (promiseCnt e) (source e) (promise e) arg) ;;;
          resolve_promise resolve arg ;;;
          ret (Normal VUndefined)
      | OnCreateError key reject =>
          modify_user (fun u => set_requests (delete key (_requests u)) u) ;;;
          reject_promise reject arg ;;;
          ret (Normal VUndefined)
      | OnSymbols group =>
          let* g := read_object group in
          match g with
          | Some (OutlineGroup id order elements) =>
              let infos := match arg with VArr l => l | _ => [] end in
              write_object group
                (OutlineGroup id order
                   (elements ++ ((fun info => OutlineElement info group) <$> infos))) ;;;
              ret (Normal (VObj group))
          | _ => ret (Normal (VObj group))
          end
      | OnProviderError group =>
          modify_user (fun u => set_unexpected (unexpected u ++ [arg]) u) ;;;
          ret (Normal (VObj group))
      | OnGroup result id =>
          let* r := read_object result in
          match arg, r with
          | VObj group, Some (OutlineModel uri groups children) =>
              let* g := read_object group in
              if empty g then ret (Normal VUndefined)
              else
                write_object result (OutlineModel uri (groups ++ [(id, group)]) children) ;;;
                ret (Normal VUndefined)
          | _, _ => ret (Normal VUndefined)
          end
      | OnRegistryChange textModel provider cts =>
          let* u := get_user in
          let newProvider := providers u in
          if decide (newProvider = provider) then ret (Normal VUndefined)
          else cancel_source self cts ;;; ret (Normal VUndefined)
      | Retry textModel token cts result =>
          let* c1 := is_cancellation_requested cts in
          let* c2 := is_cancellation_requested token in
          if c1 && negb c2 then
            let* p := _create textModel token in
            ret (Normal (VPromise p))
          else
            _compact result ;;;
            ret (Normal (VObj result))
      | ThenFinally listener =>
          dispose_listener listener ;;;
          let* p := promise_resolve VUndefined in
          let* d := then_ p (Some (FClo (ValueThunk arg))) None in
          ret (Normal (VPromise d))
      | CatchFinally listener =>
          dispose_listener listener ;;;
          let* p := promise_resolve VUndefined in
          let* d := then_ p (Some (FClo (Thrower arg))) None in
          ret (Normal (VPromise d))
      | ValueThunk v => ret (Normal v)
      | Thrower e => ret (Throw e)
      end.

End Code.

  (** Calls nest to a bounded depth, as on the platform. *)
Fixpoint call (depth : nat) (c : clo) (arg : val) : M clo t completion :=
    match depth with
    | O => ret (Throw (VError "RangeError"))
    | S k => body (call k) c arg
    end.

Definition stack_limit : nat := 8.

Definition invoke : clo -> val -> M clo t completion := call stack_limit.


End Outline.

(** * More of the sources *)

(** ** TreeElement.findId for a document symbol *)

Module TreeElement.

  (** [TreeElement.findId(candidate, container)] when [candidate] is a
      [DocumentSymbol]: its name, and the start of its range when the name is
      taken.  [taken] are the keys of [container.children]. *)
Definition findId (name : string) (startLineNumber startColumn : nat)
      (container_id : string) (taken : list string) : string :=
    let candidateId :=
      if bool_decide (container_id +:+ "/" +:+ name ∈ taken) then
        container_id +:+ "/" +:+ name +:+ "_" +:+ pretty startLineNumber
          +:+ "_" +:+ pretty startColumn
      else container_id +:+ "/" +:+ name in
    Outline.findId_loop (S (length taken)) 0 candidateId candidateId taken.

End TreeElement.

(** ** OutlineModel._flattenDocumentSymbols *)

Module DocumentSymbols.

  (** A [DocumentSymbol]: [info] stands for the fields that are copied as
      they are ([kind], [tags], [detail], [range], [selectionRange]);
      [containerName] and [children] may be [undefined]. *)
#[warnings="-register-all"]
  Inductive symbol : Type :=
    | DocumentSymbol (name : string) (info : nat) (containerName : option string)
                     (children : option (list symbol)).

Definition name (e : symbol) : string :=
    match e with DocumentSymbol n _ _ _ => n end.
Definition containerName (e : symbol) : option string :=
    match e with DocumentSymbol _ _ c _ => c end.
Definition children (e : symbol) : option (list symbol) :=
    match e with DocumentSymbol _ _ _ ch => ch end.

  (** [entry.containerName || overrideContainerLabel]: [undefined] and the
      empty string are falsy. *)
Definition or_label (c : option string) (overrideContainerLabel : string)
    : option string :=
    match c with
    | Some (String a s) => Some (String a s)
    | _ => Some overrideContainerLabel
    end.

  (** One turn of the loop: the entry is pushed without its children, then
      its children are flattened behind it, under its name. *)
Fixpoint flatten_entry (bucket : list symbol) (entry : symbol)
      (overrideContainerLabel : string) : list symbol :=
    match entry with
    | DocumentSymbol name info c ch =>
        let bucket1 :=
          bucket ++ [DocumentSymbol name info (or_label c overrideContainerLabel) None] in
        match ch with
        | Some entries =>
            (fix loop (bucket : list symbol) (entries : list symbol) : list symbol :=
               match entries with
               | [] => bucket
               | e :: rest => loop (flatten_entry bucket e name) rest
               end) bucket1 entries
        | None => bucket1
        end
    end.

  (** [_flattenDocumentSymbols(bucket, entries, overrideContainerLabel)]; the
      result is [bucket] after the call. *)
Fixpoint _flattenDocumentSymbols (bucket : list symbol) (entries : list symbol)
      (overrideContainerLabel : string) : list symbol :=
    match entries with
    | [] => bucket
    | e :: rest =>
        _flattenDocumentSymbols (flatten_entry bucket e overrideContainerLabel) rest
          overrideContainerLabel
    end.

  (** The number of symbols in a forest. *)
Fixpoint size (e : symbol) : nat :=
    match e with
    | DocumentSymbol _ _ _ ch =>
        S (match ch with
           | Some entries =>
               (fix sum (entries : list symbol) : nat :=
                  match entries with
                  | [] => 0
                  | e :: rest => size e + sum rest
                  end) entries
           | None => 0
           end)
    end.

Fixpoint sizes (entries : list symbol) : nat :=
    match entries with
    | [] => 0
    | e :: rest => size e + sizes rest
    end.

End DocumentSymbols.

(** ** TimeoutTimer, IntervalTimer and RunOnceScheduler *)

(** The runners are supplied by the caller: a runner is known by a number,
    and running it is recorded in the log [ran], oldest first; a runner does
    not call back into the timer. *)

Module TimeoutTimer.

  (** [_token = None] stands for [-1]. *)
Record t : Type := TimeoutTimer {
    _token : option nat;
    ran : list nat
  }.

Inductive clo : Type :=
    | OnTimeout (runner : nat).   (* () => { this._token = -1; runner(); } *)

Definition state : Type := rt clo t.

Definition set_token (x : option nat) (this : t) : t := TimeoutTimer x (ran this).
Definition run_runner (runner : nat) (this : t) : t :=
    TimeoutTimer (_token this) (ran this ++ [runner]).

Definition call (c : clo) (arg : val) : M clo t completion :=
    match c with
    | OnTimeout runner =>
        modify_user (set_token None) ;;;
        modify_user (run_runner runner) ;;;
        ret (Normal VUndefined)
    end.

  (** [cancel()] *)
Definition cancel : M clo t unit :=
    let* this := get_user in
    match _token this with
    | Some h => clear_timeout h ;;; modify_user (set_token None)
    | None => ret tt
    end.

  (** [dispose()] *)
Definition dispose : M clo t unit := cancel.

  (** [cancelAndSet(runner, timeout)] *)
Definition cancelAndSet (runner : nat) (timeout : Z) : M clo t unit :=
    cancel ;;;
    let* h := set_timeout (FClo (OnTimeout runner)) timeout in
    modify_user (set_token (Some h)).

  (** [setIfNotSet(runner, timeout)] *)
Definition setIfNotSet (runner : nat) (timeout : Z) : M clo t unit :=
    let* this := get_user in
    match _token this with
    | Some _ => ret tt
    | None =>
        let* h := set_timeout (FClo (OnTimeout runner)) timeout in
        modify_user (set_token (Some h))
    end.

  (** [new TimeoutTimer()], and [new TimeoutTimer(runner, timeout)]. *)
Definition new : t := TimeoutTimer None [].
Definition new_with (runner : nat) (timeout : Z) : state :=
    exec (setIfNotSet runner timeout) (init new).

  (** What can happen to a timer: its methods are called, and the platform
      lets a timeout elapse. *)
Inductive event : Type :=
    | Cancel
    | Dispose
    | CancelAndSet (runner : nat) (timeout : Z)
    | SetIfNotSet (runner : nat) (timeout : Z)
    | Elapse (handle : nat).

Definition step (e : event) : M clo t unit :=
    match e with
    | Cancel => cancel
    | Dispose => dispose
    | CancelAndSet runner timeout => cancelAndSet runner timeout
    | SetIfNotSet runner timeout => setIfNotSet runner timeout
    | Elapse handle => fire_timer call handle
    end.

Definition run (evs : list event) (s : state) : state :=
    foldl (fun s e => exec (step e) s) s evs.

End TimeoutTimer.

Module IntervalTimer.

Record t : Type := IntervalTimer {
    _token : option nat;
    ran : list nat
  }.

Inductive clo : Type :=
    | OnInterval (runner : nat).   (* () => { runner(); } *)

Definition state : Type := rt clo t.

Definition set_token (x : option nat) (this : t) : t := IntervalTimer x (ran this).
Definition run_runner (runner : nat) (this : t) : t :=
    IntervalTimer (_token this) (ran this ++ [runner]).

Definition call (c : clo) (arg : val) : M clo t completion :=
    match c with
    | OnInterval runner => modify_user (run_runner runner) ;;; ret (Normal VUndefined)
    end.

Definition new : t := IntervalTimer None [].

  (** [setInterval] and [clearInterval]: an interval is armed like a
      timeout, and stays armed when it elapses. *)
Definition set_interval (f : fn clo) (interval : Z) : M clo t nat := set_timeout f interval.
Definition clear_interval (h : nat) : M clo t unit := clear_timeout h.

  (** The interval [h] elapses once. *)
Definition tick (h : nat) : M clo t unit :=
    let* armed := read_timer h in
    match armed with
    | Some (f, _) => apply_fn call f VUndefined ;;; ret tt
    | None => ret tt
    end.

  (** [cancel()] *)
Definition cancel : M clo t unit :=
    let* this := get_user in
    match _token this with
    | Some h => clear_interval h ;;; modify_user (set_token None)
    | None => ret tt
    end.

  (** [dispose()] *)
Definition dispose : M clo t unit := cancel.

  (** [cancelAndSet(runner, interval)] *)
Definition cancelAndSet (runner : nat) (interval : Z) : M clo t unit :=
    cancel ;;;
    let* h := set_interval (FClo (OnInterval runner)) interval in
    modify_user (set_token (Some h)).

Inductive event : Type :=
    | Cancel
    | Dispose
    | CancelAndSet (runner : nat) (interval : Z)
    | Elapse (handle : nat).

Definition step (e : event) : M clo t unit :=
    match e with
    | Cancel => cancel
    | Dispose => dispose
    | CancelAndSet runner interval => cancelAndSet runner interval
    | Elapse handle => tick handle
    end.

Definition run (evs : list event) (s : state) : state :=
    foldl (fun s e => exec (step e) s) s evs.

End IntervalTimer.

Module RunOnceScheduler.

Record t : Type := RunOnceScheduler {
    runner : option nat;
    timeoutToken : option nat;
    timeout : Z;
    ran : list nat
  }.

Inductive clo : Type :=
    | TimeoutHandler.   (* this.onTimeout.bind(this) *)

Definition state : Type := rt clo t.

  (** [new RunOnceScheduler(runner, delay)] *)
Definition new (runner : nat) (delay : Z) : t :=
    RunOnceScheduler (Some runner) None delay [].

Definition set_runner (x : option nat) (this : t) : t :=
    RunOnceScheduler x (timeoutToken this) (timeout this) (ran this).
Definition set_timeoutToken (x : option nat) (this : t) : t :=
    RunOnceScheduler (runner this) x (timeout this) (ran this).
Definition set_timeout_ (x : Z) (this : t) : t :=
    RunOnceScheduler (runner this) (timeoutToken this) x (ran this).
Definition run_runner (r : nat) (this : t) : t :=
    RunOnceScheduler (runner this) (timeoutToken this) (timeout this) (ran this ++ [r]).

  (** [isScheduled()] *)
Definition isScheduled (this : t) : bool :=
    match timeoutToken this with Some _ => true | None => false end.

  (** [cancel()] *)
Definition cancel : M clo t unit :=
    let* this := get_user in
    if isScheduled this then
      match timeoutToken this with
      | Some h => clear_timeout h ;;; modify_user (set_timeoutToken None)
      | None => ret tt
      end
    else ret tt.

  (** [dispose()] *)
Definition dispose : M clo t unit :=
    cancel ;;; modify_user (set_runner None).

  (** [schedule(delay)]; [delay = None] stands for the default,
      [this.timeout]. *)
Definition schedule (delay : option Z) : M clo t unit :=
    let* this0 := get_user in
    let delay := default (timeout this0) delay in
    cancel ;;;
    let* h := set_timeout (FClo TimeoutHandler) delay in
    modify_user (set_timeoutToken (Some h)).

  (** [get delay()] and [set delay(value)] *)
Definition get_delay (this : t) : Z := timeout this.
Definition set_delay (value : Z) : M clo t unit := modify_user (set_timeout_ value).

  (** [doRun()] *)
Definition doRun : M clo t unit :=
    let* this := get_user in
    match runner this with
    | Some r => modify_user (run_runner r)
    | None => ret tt
    end.

  (** [onTimeout()] *)
Definition onTimeout : M clo t unit :=
    modify_user (set_timeoutToken None) ;;;
    let* this := get_user in
    match runner this with
    | Some _ => doRun
    | None => ret tt
    end.

Definition call (c : clo) (arg : val) : M clo t completion :=
    match c with
    | TimeoutHandler => onTimeout ;;; ret (Normal VUndefined)
    end.

Inductive event : Type :=
    | Schedule (delay : option Z)
    | Cancel
    | Dispose
    | SetDelay (value : Z)
    | Elapse (handle : nat).

Definition step (e : event) : M clo t unit :=
    match e with
    | Schedule delay => schedule delay
    | Cancel => cancel
    | Dispose => dispose
    | SetDelay value => set_delay value
    | Elapse handle => fire_timer call handle
    end.

Definition run (evs : list event) (s : state) : state :=
    foldl (fun s e => exec (step e) s) s evs.

End RunOnceScheduler.

(** ** Promise.race *)

Section Race.
Context {clo ust : Type}.

  (** [Promise.race(xs)]: every input is followed with the resolving
      functions of the result. *)
Fixpoint race_loop (r : nat) (xs : list val) : M clo ust unit :=
    match xs with
    | [] => ret tt
    | x :: xs' =>
        let* p := promise_resolve x in
        then_ p (Some (FResolve r)) (Some (FReject r)) ;;;
        race_loop r xs'
    end.

Definition promise_race (xs : list val) : M clo ust nat :=
    let* r := new_promise in
    race_loop r xs ;;;
    ret r.

End Race.

(** ** raceCancellation *)

Module RaceCancellation.

Inductive clo : Type :=
    | OnCancellation (q : nat) (defaultValue : val).   (* () => resolve(defaultValue) *)

Definition state : Type := rt clo unit.

Definition call (c : clo) (arg : val) : M clo unit completion :=
    match c with
    | OnCancellation q defaultValue =>
        resolve_promise q defaultValue ;;;
        ret (Normal VUndefined)
    end.

  (** [raceCancellation(promise, token, defaultValue)]; a missing
      [defaultValue] is [undefined]. *)
Definition raceCancellation (promise : nat) (token : nat) (defaultValue : val)
    : M clo unit nat :=
    let* q := new_promise in
    on_cancellation_requested call token (FClo (OnCancellation q defaultValue)) ;;;
    promise_race [VPromise promise; VPromise q].

End RaceCancellation.

(** ** timeout *)

Module Timeout.

Inductive clo : Type :=
    | OnCancellation (handle promise : nat)   (* () => { clearTimeout(handle); reject(canceled()); } *)
    | OnCancel (promise : nat)                (* of createCancelablePromise *)
    | OnValue (source promise : nat)
    | OnError (source promise : nat).

Definition state : Type := rt clo unit.

Definition call (c : clo) (arg : val) : M clo unit completion :=
    match c with
    | OnCancellation handle promise =>
        clear_timeout handle ;;;
        reject_promise promise canceled ;;;
        ret (Normal VUndefined)
    | OnCancel promise =>
        reject_promise promise canceled ;;;
        ret (Normal VUndefined)
    | OnValue source promise =>
        dispose_source source ;;;
        resolve_promise promise arg ;;;
        ret (Normal VUndefined)
    | OnError source promise =>
        dispose_source source ;;;
        reject_promise promise arg ;;;
        ret (Normal VUndefined)
    end.

  (** [timeout(millis, token)] *)
Definition timeout (millis : Z) (token : nat) : M clo unit nat :=
    let* p := new_promise in
    let* handle := set_timeout (FResolve p) millis in
    on_cancellation_requested call token (FClo (OnCancellation handle p)) ;;;
    ret p.

  (** [timeout(millis)]: [createCancelablePromise(token => timeout(millis, token))],
      with the body of [createCancelablePromise] around the callback. *)
Definition timeout_cancelable (millis : Z) : M clo unit CancelablePromise.cancelable :=
    let* source := new_source in
    let* thenable := timeout millis source in
    let* promise := new_promise in
    on_cancellation_requested call source (FClo (OnCancel promise)) ;;;
    let* q := promise_resolve (VPromise thenable) in
    then_ q (Some (FClo (OnValue source promise)))
            (Some (FClo (OnError source promise))) ;;;
    ret (CancelablePromise.Cancelable source thenable promise).

  (** [cancel()] of the object returned. *)
Definition cancel (c : CancelablePromise.cancelable) : M clo unit unit :=
    cancel_source call (CancelablePromise.source c).

End Timeout.

(** ** Lazy.rawValue *)

Module LazyRaw.

  (** [get rawValue()] *)
Definition rawValue (this : LazyValue.t) : val := LazyValue._value this.

End LazyRaw.

(** * Proofs *)

(** ** Symbolic execution of the runtime

    A state is kept as an explicit record whose heaps are finite maps built
    by inserts.  A monadic term is run one operation at a time: the first
    operation of a [bind] is run on the state, its result is passed on.  The
    operations that read a heap are unfolded, and the lookups are rewritten
    with the insert and delete lemmas of finite maps. *)

Lemma bind_eval {clo ust A B} (m : M clo ust A) (k : A -> M clo ust B) s a s' r :
  m s = (a, s') -> k a s' = r -> bind m k s = r.
Proof. intros H1 H2. unfold bind. rewrite H1. exact H2. Qed.

Lemma exec_eval {clo ust A} (m : M clo ust A) s a s' :
  m s = (a, s') -> exec m s = s'.
Proof. intros H. unfold exec. rewrite H. reflexivity. Qed.

Lemma drain_nil {clo ust} (call : clo -> val -> M clo ust completion) fuel s :
  jobs s = [] -> drain call fuel s = Some s.
Proof. intros H. destruct fuel; cbn; unfold step; rewrite H; reflexivity. Qed.

Lemma drain_cons {clo ust} (call : clo -> val -> M clo ust completion) fuel s j js s' r :
  jobs s = j :: js ->
  run_job call j (set_jobs js s) = (tt, s') ->
  drain call fuel s' = r ->
  drain call (S fuel) s = r.
Proof.
  intros H1 H2 H3. cbn. unfold step. rewrite H1. unfold exec. rewrite H2. exact H3.
Qed.

Lemma drain_cons_eq {clo ust} (call : clo -> val -> M clo ust completion) fuel s j js s' :
  jobs s = j :: js ->
  run_job call j (set_jobs js s) = (tt, s') ->
  drain call (S fuel) s = drain call fuel s'.
Proof.
  intros H1 H2. cbn. unfold step. rewrite H1. unfold exec. rewrite H2. reflexivity.
Qed.

(** The operations that touch a heap once or twice: run by unfolding. *)
Ltac rt_prim_unfold :=
  cbv beta iota zeta delta
    [bind ret exec get_user put_user modify_user
     alloc_promise new_promise enqueue jobs_of settle resolve_promise
     reject_promise perform_then then_ promise_resolve
     all_element invoke_factory set_timeout clear_timeout read_timer new_source
     source_cancelled is_cancellation_requested dispose_source
     read_source write_source promise_state cancellations disposals
     set_promises set_next_promise set_jobs set_alls set_timers set_next_timer
     set_sources set_next_source set_invocations set_user
     promises next_promise jobs alls timers next_timer sources next_source
     invocations user
     is_cancelled listeners cancel_calls dispose_calls
     all_values all_remaining on_fulfilled on_rejected derived
     default from_option id];
  cbn [app map fst snd negb andb orb length replicate].

Lemma is_promise_false v : is_promise v = false -> as_promise v = None.
Proof. unfold is_promise. destruct (as_promise v); [discriminate|reflexivity]. Qed.

Ltac heap_step :=
  first
  [ rewrite lookup_insert_eq
  | rewrite lookup_insert_ne by lia
  | rewrite lookup_delete_eq
  | rewrite lookup_delete_ne by lia
  | rewrite decide_True by lia
  | rewrite decide_False by lia
  | match goal with
    | H : ?m !! ?k = _ |- context [?m !! ?k] => rewrite H
    | H : as_promise ?v = _ |- context [as_promise ?v] => rewrite H
    end
  | progress cbn [as_promise is_undefined] ].

(** The code above the operations: unfolded, without touching a heap. *)
Ltac rt_unf :=
  cbv beta iota zeta delta
    [apply_with apply_fn cancel_source on_cancellation_requested
     new_child_source finish run_job fire_timer promise_all
     set_promises set_next_promise set_jobs set_alls set_timers set_next_timer
     set_sources set_next_source set_invocations set_user
     promises next_promise jobs alls timers next_timer sources next_source
     invocations user
     is_cancelled listeners cancel_calls dispose_calls
     all_values all_remaining on_fulfilled on_rejected derived
     default from_option id];
  cbn [cancel fire all_loop app map fst snd negb andb orb length replicate].

(** A test whose outcome is a hypothesis, or follows by arithmetic. *)
Ltac hyp_if :=
  first
  [ match goal with
    | H : ?c = true |- context [if ?c then _ else _] => rewrite H
    | H : ?c = false |- context [if ?c then _ else _] => rewrite H
    end
  | match goal with
    | H : ?m !! ?k = _ |- context [?m !! ?k] => rewrite H
    | H : as_promise ?v = _ |- context [as_promise ?v] => rewrite H
    end
  | progress cbn [as_promise is_undefined]
  | rewrite decide_True by lia
  | rewrite decide_False by lia ].

(** [mrun unf prim] proves [m s = ?r] and gives [?r]: [unf] unfolds the
    code of a module, [prim] its own operations on its state. *)
Ltac mrun unf prim :=
  repeat (progress (rt_unf; unf; try hyp_if));
  lazymatch goal with
  | |- bind _ _ _ = _ =>
      eapply bind_eval; [ mrun unf prim | cbv beta; mrun unf prim ]
  | |- ret _ _ = _ => cbv beta delta [ret]; reflexivity
  | |- _ =>
      prim; rt_prim_unfold;
      repeat (heap_step; prim; rt_prim_unfold);
      lazymatch goal with
      | |- (_, _) = _ => reflexivity
      | |- ?g => fail "stuck at" g
      end
  end.

(** [erun unf prim] proves [drain call fuel s = ?r]. *)
Ltac erun unf prim :=
  repeat (progress (rt_unf; unf; try hyp_if));
  first
  [ eapply drain_cons; [ reflexivity | mrun unf prim | erun unf prim ]
  | eapply drain_nil; reflexivity ].

(** Any of the forms above. *)
Ltac run unf prim :=
  lazymatch goal with
  | |- drain _ _ (exec ?m ?s) = _ =>
      let E := fresh "E" in
      eassert (E : exec m s = _) by (eapply exec_eval; mrun unf prim);
      rewrite E; clear E; erun unf prim
  | |- drain _ _ _ = _ => erun unf prim
  | |- exec _ _ = _ => eapply exec_eval; mrun unf prim
  | |- _ => mrun unf prim
  end.

(** A let at the head of the goal: its term is run on its own, and the
    result replaces the bound variable. *)
Ltac eval_let unf prim :=
  lazymatch goal with
  | |- (let (_, _) := ?t in _) =>
      let E := fresh "E" in
      eassert (E : t = _) by (run unf prim);
      rewrite E; clear E; cbv beta iota
  | |- (let x := ?t in _) =>
      let E := fresh "E" in
      let y := fresh x in
      eassert (E : t = _) by (run unf prim);
      rewrite E; clear E; intros y; subst y
  end.

(** The state a run reaches: [exists s', run = Some s' /\ ...]. *)
Ltac eval_ex unf prim :=
  lazymatch goal with
  | |- exists _, _ = _ /\ _ =>
      eexists; split; [run unf prim|]
  end.

(** A fact about an explicit state. *)
Ltac look prim :=
  prim; rt_prim_unfold; repeat (heap_step; prim; rt_prim_unfold).

(** A run inside the goal is replaced by its result. *)
Ltac eval_term unf prim t :=
  let E := fresh "E" in
  eassert (E : t = _) by (run unf prim);
  rewrite !E; clear E.

(** One microtask of [drain call (S k) s = _]. *)
Ltac drain_step unf prim :=
  etransitivity; [eapply drain_cons_eq; [reflexivity|mrun unf prim]|].

(** ** Operations that only touch the promises *)

Lemma bind_step {clo ust A B} (m : M clo ust A) (k : A -> M clo ust B) s a s' :
  m s = (a, s') -> bind m k s = k a s'.
Proof. intros H. unfold bind. rewrite H. reflexivity. Qed.

Lemma bind_bind {clo ust A B C} (m : M clo ust A) (k1 : A -> M clo ust B)
    (k2 : B -> M clo ust C) s :
  bind (bind m k1) k2 s = bind m (fun a => bind (k1 a) k2) s.
Proof. unfold bind. destruct (m s) as [a s1]. reflexivity. Qed.

(** The first operation of the run in the goal is run, and the run goes on
    from its result. *)
Ltac step_run unf prim :=
  rewrite ?bind_bind;
  lazymatch goal with
  | |- context [bind ?m ?k ?s] =>
      let E := fresh "E" in
      eassert (E : m s = _) by (mrun unf prim);
      rewrite (bind_step m k s _ _ E); clear E; cbv beta
  end.

Lemma drain_mono {clo ust} (call : clo -> val -> M clo ust completion) n m s s' :
  drain call n s = Some s' -> n <= m -> drain call m s = Some s'.
Proof.
  revert m s. induction n as [|n IH]; intros m s H Hle.
  - cbn in H. destruct (step call s) eqn:E; [discriminate|].
    destruct m; cbn; rewrite E; exact H.
  - destruct m; [lia|]. cbn in H |- *. destruct (step call s) eqn:E; [|exact H].
    apply IH; [exact H|lia].
Qed.

Lemma drain_jobs_nil {clo ust} (call : clo -> val -> M clo ust completion) n s s' :
  drain call n s = Some s' -> jobs s' = [].
Proof.
  revert s. induction n as [|n IH]; intros s; cbn; unfold step;
    destruct (jobs s) eqn:E; try discriminate; try (intros [= <-]; exact E).
  apply IH.
Qed.

Section Frames.
Context {clo ust : Type}.
Implicit Types s : rt clo ust.

  (** [heap_frame s s']: from [s] to [s'] only the promises, the job queue and
      the aggregates of [Promise.all] changed, and no promise was removed. *)
Definition heap_frame s s' : Prop :=
    timers s' = timers s /\ next_timer s' = next_timer s /\
    sources s' = sources s /\ next_source s' = next_source s /\
    invocations s' = invocations s /\ user s' = user s /\
    next_promise s <= next_promise s'.

Lemma heap_frame_refl s : heap_frame s s.
Proof. unfold heap_frame. repeat split; lia. Qed.

Lemma heap_frame_trans s1 s2 s3 :
    heap_frame s1 s2 -> heap_frame s2 s3 -> heap_frame s1 s3.
Proof.
    unfold heap_frame. intros (?&?&?&?&?&?&?) (?&?&?&?&?&?&?).
    repeat split; try congruence; lia.
Qed.

Lemma settle_frame p o s : heap_frame s (settle p o s).2.
Proof.
    unfold settle. destruct (promises s !! p) as [[l rs|v|e]|]; try apply heap_frame_refl.
    destruct o; unfold heap_frame; cbn; repeat split; lia.
Qed.

Lemma resolve_promise_frame p v s : heap_frame s (resolve_promise p v s).2.
Proof.
    unfold resolve_promise.
    destruct (promises s !! p) as [[[] rs|?|?]|] eqn:E; try apply heap_frame_refl.
    destruct (as_promise v); [|apply settle_frame].
    destruct (decide _); [apply settle_frame|].
    unfold heap_frame; cbn; repeat split; lia.
Qed.

Lemma perform_then_frame p f g d s : heap_frame s (perform_then p f g d s).2.
Proof.
    unfold perform_then, enqueue.
    destruct (promises s !! p) as [[l rs|v|e]|]; unfold heap_frame; cbn;
      repeat split; lia.
Qed.

Lemma then_frame p f g s :
    (then_ p f g s).1 = next_promise s /\ heap_frame s (then_ p f g s).2.
Proof.
    unfold then_, bind, new_promise, alloc_promise, ret.
    match goal with |- context [perform_then ?p ?f ?g ?d ?s1] =>
      pose proof (perform_then_frame p f g d s1) as H;
      destruct (perform_then p f g d s1) as [[] s2] end.
    cbn in *. split; [reflexivity|].
    unfold heap_frame in *. cbn in *. destruct H as (?&?&?&?&?&?&?).
    repeat split; try assumption; lia.
Qed.

Lemma promise_resolve_frame x s : heap_frame s (promise_resolve x s).2.
Proof.
    unfold promise_resolve, alloc_promise.
    destruct (as_promise x); [apply heap_frame_refl|].
    unfold heap_frame; cbn; repeat split; lia.
Qed.

Lemma all_loop_frame a i xs s : heap_frame s (all_loop a i xs s).2.
Proof.
    revert i s. induction xs as [|x xs IH]; intros i s; [apply heap_frame_refl|].
    cbn [all_loop]. unfold bind at 1.
    pose proof (promise_resolve_frame x s) as H1.
    destruct (promise_resolve x s) as [p s1]. cbn in H1.
    unfold bind at 1.
    pose proof (then_frame p (Some (FAllElement a i)) (Some (FReject a)) s1) as [_ H2].
    destruct (then_ _ _ _ s1) as [d s2]. cbn in H2.
    eapply heap_frame_trans; [exact H1|].
    eapply heap_frame_trans; [exact H2|]. apply IH.
Qed.

Lemma promise_all_frame xs s : heap_frame s (promise_all xs s).2.
Proof.
    unfold promise_all. unfold bind at 1. unfold new_promise, alloc_promise.
    unfold bind at 1. unfold bind at 1.
    match goal with |- context [all_loop ?a ?i ?xs ?s1] =>
      pose proof (all_loop_frame a i xs s1) as H1;
      destruct (all_loop a i xs s1) as [[] s2] end.
    cbn in H1. unfold bind at 1.
    assert (H0 : heap_frame s s2).
    { eapply heap_frame_trans; [|exact H1].
      unfold heap_frame; cbn; repeat split; lia. }
    destruct xs as [|x xs].
    - match goal with |- context [resolve_promise ?a ?v s2] =>
        pose proof (resolve_promise_frame a v s2) as H2;
        destruct (resolve_promise a v s2) as [[] s3] end.
      cbn in H2 |- *. eapply heap_frame_trans; [exact H0|exact H2].
    - cbn. exact H0.
Qed.

End Frames.

(** ** Chains of promises that follow one another *)

Section Chains.
Context {clo ust : Type}.
Variable call : clo -> val -> M clo ust completion.

  (** [chain P d up locked]: promise [d] is pending, and when it settles the
      promises of [up] settle after it, each one following the one before;
      the last of them (or [d] itself) has no reaction. *)
Fixpoint chain (P : gmap nat (pstate clo)) (d : nat) (up : list nat) (locked : bool)
    : Prop :=
    match up with
    | [] => P !! d = Some (Pending locked [])
    | d' :: up' =>
        P !! d = Some (Pending locked
                         [Reaction (Some (FAdoptFulfil d')) (Some (FAdoptReject d')) None]) /\
        d' < d /\ chain P d' up' true
    end.

Definition chain_end (d : nat) (up : list nat) : nat := default d (last up).

Lemma chain_end_cons d d' up : chain_end d (d' :: up) = chain_end d' up.
Proof.
    unfold chain_end. destruct up as [|x up]; [reflexivity|].
    rewrite !last_cons. destruct (last up); reflexivity.
Qed.

Lemma chain_frame P P' d up b :
    (forall x, x <= d -> P' !! x = P !! x) -> chain P d up b -> chain P' d up b.
Proof.
    revert d b. induction up as [|d' up IH]; intros d b Hf; cbn.
    - intros H. rewrite Hf by lia. exact H.
    - intros (H1 & H2 & H3). rewrite Hf by lia. repeat split; try assumption.
      apply IH; [|exact H3]. intros x Hx. apply Hf. lia.
Qed.

Lemma chain_end_le P d up b : chain P d up b -> chain_end d up <= d.
Proof.
    revert d b. induction up as [|d' up IH]; intros d b; cbn; [unfold chain_end; cbn; lia|].
    intros (_ & H2 & H3). rewrite chain_end_cons. apply IH in H3. lia.
Qed.

Lemma chain_pending P d up b :
    chain P d up b -> exists l rs, P !! chain_end d up = Some (Pending l rs).
Proof.
    revert d b. induction up as [|d' up IH]; intros d b; cbn.
    - intros H. unfold chain_end. cbn. eauto.
    - intros (_ & _ & H3). rewrite chain_end_cons. eapply IH, H3.
Qed.

Lemma run_adopt d' o v (s : rt clo ust) :
    o = Fulfil v ->
    run_job call (ReactionJob (Some (FAdoptFulfil d')) false v None) s =
    (tt, exec (settle d' o) s).
Proof.
    intros ->. unfold run_job, apply_fn, apply_with, bind, finish, ret, exec.
    destruct (settle d' (Fulfil v) s) as [[] s1]. reflexivity.
Qed.

Lemma run_adopt_fail d' e (s : rt clo ust) :
    run_job call (ReactionJob (Some (FAdoptReject d')) true e None) s =
    (tt, exec (settle d' (Fail e)) s).
Proof.
    unfold run_job, apply_fn, apply_with, bind, finish, ret, exec.
    destruct (settle d' (Fail e) s) as [[] s1]. reflexivity.
Qed.

  (** When the first promise of a chain settles, the whole chain settles in
      the same way, one microtask per link. *)
Lemma chain_settle P np A T nt Sr ns I U d up b o :
    chain P d up b ->
    exists P',
      drain call (length up) (exec (settle d o) (Rt P np [] A T nt Sr ns I U)) =
        Some (Rt P' np [] A T nt Sr ns I U) /\
      P' !! chain_end d up =
        Some (match o with Fulfil v => Fulfilled v | Fail e => Rejected e end) /\
      (forall x, d < x -> P' !! x = P !! x).
Proof.
    revert P d b. induction up as [|d' up IH]; intros P d b; cbn [chain length].
    - intros H. unfold exec, settle. cbn [promises]. rewrite H.
      destruct o; cbn; unfold step; cbn; eexists; (split; [reflexivity|]);
        (split; [unfold chain_end; cbn; apply lookup_insert_eq|]);
        intros x Hx; apply lookup_insert_ne; lia.
    - intros (H1 & H2 & H3). rewrite chain_end_cons.
      unfold exec at 1. unfold settle at 1. cbn [promises]. rewrite H1.
      destruct o as [v|e].
      + cbn [snd jobs app jobs_of map on_fulfilled derived].
        set (P1 := <[d := Fulfilled v]> P).
        destruct (IH P1 d' true) as (P' & E & Hend & Hf).
        { eapply chain_frame; [|exact H3]. intros x Hx. apply lookup_insert_ne. lia. }
        exists P'. split; [|split; [exact Hend|]].
        * eapply drain_cons; [reflexivity| |exact E].
          rewrite (run_adopt d' (Fulfil v) v) by reflexivity. reflexivity.
        * intros x Hx. rewrite Hf by lia. apply lookup_insert_ne. lia.
      + cbn [snd jobs app jobs_of map on_rejected derived].
        set (P1 := <[d := Rejected e]> P).
        destruct (IH P1 d' true) as (P' & E & Hend & Hf).
        { eapply chain_frame; [|exact H3]. intros x Hx. apply lookup_insert_ne. lia. }
        exists P'. split; [|split; [exact Hend|]].
        * eapply drain_cons; [reflexivity| |exact E].
          rewrite run_adopt_fail. reflexivity.
        * intros x Hx. rewrite Hf by lia. apply lookup_insert_ne. lia.
Qed.

End Chains.

(** ** Throttler *)

Ltac th_unf :=
  cbv beta iota zeta delta
    [Throttler.queue Throttler.set_activePromise Throttler.set_queuedPromise
     Throttler.set_queuedPromiseFactory Throttler.activePromise
     Throttler.queuedPromise Throttler.queuedPromiseFactory];
  cbn [Throttler.call].

(** The calls of [queue] made while a task is active, one after the other;
    the promises that they return. *)
Fixpoint queue_all (fs : list nat) : M Throttler.clo Throttler.t (list nat) :=
  match fs with
  | [] => ret []
  | f :: fs' =>
      let* r := Throttler.queue f in
      let* rs := queue_all fs' in
      ret (r :: rs)
  end.

(** No task is active and no microtask is left. *)
Definition throttler_idle (s : Throttler.state) : Prop :=
  jobs s = [] /\
  Throttler.activePromise (user s) = None /\
  Throttler.queuedPromise (user s) = None.

Section Queued.
Variables (A : gmap nat all_state) (T : gmap nat (fn Throttler.clo * Z)) (nt : nat)
            (Sr : gmap nat (source Throttler.clo)) (ns : nat) (I : list (nat * nat)).
  (** [a]: the promise of the active task; [b]: the first promise made by
      the calls of [queue] that found the task active. *)
Variables (a b : nat).

  (** The promise that the [j]-th queued call returned, and the promise of
      its [then]. *)
Definition caller (j : nat) : nat := 2 * j + S (S (S b)).
Definition caller_then (j : nat) : nat := S (caller j).

Definition caller_reactions (j0 k : nat) : list (reaction Throttler.clo) :=
    (fun j => Reaction (Some (FResolve (caller j))) (Some (FReject (caller j)))
                       (Some (caller_then j))) <$> seq j0 k.

  (** The reaction of the call of [queue] that started the active task. *)
Definition on_active : reaction Throttler.clo :=
    Reaction (Some (FClo (Throttler.OnActiveResult (S a))))
             (Some (FClo (Throttler.OnActiveError (S a)))) (Some (S (S a))).

Definition on_complete : reaction Throttler.clo :=
    Reaction (Some (FClo Throttler.OnComplete)) (Some (FClo Throttler.OnComplete))
             (Some (S b)).

  (** A task is active, started by a call of [queue] on an idle throttler. *)
Definition active_inv (P : gmap nat (pstate Throttler.clo)) : Prop :=
    S (S a) < b /\
    P !! S a = Some (Pending false []) /\
    P !! S (S a) = Some (Pending false []).

  (** After [k] queued calls, the last one with factory [f]. *)
Definition queued_inv (k f : nat) (s : Throttler.state) : Prop :=
    exists P,
      s = Rt P (caller k) [] A T nt Sr ns I
             (Throttler.Throttler (Some a) (Some b) (Some f)) /\
      active_inv P /\
      P !! a = Some (Pending false [on_active; on_complete]) /\
      P !! b = Some (Pending false (caller_reactions 0 k)) /\
      P !! S b = Some (Pending false [Reaction (Some (FResolve b)) None (Some (S (S b)))]) /\
      P !! S (S b) = Some (Pending false []) /\
      (forall j, j < k -> P !! caller j = Some (Pending false []) /\
                          P !! caller_then j = Some (Pending false [])).

Lemma caller_reactions_snoc k :
    caller_reactions 0 (S k) =
    caller_reactions 0 k ++
      [Reaction (Some (FResolve (caller k))) (Some (FReject (caller k)))
                (Some (caller_then k))].
Proof. unfold caller_reactions. rewrite seq_S, fmap_app. reflexivity. Qed.

  (** The first queued call. *)
Lemma queue_first P fq f' :
    active_inv P -> P !! a = Some (Pending false [on_active]) ->
    exists s',
      Throttler.queue f' (Rt P b [] A T nt Sr ns I (Throttler.Throttler (Some a) None fq)) =
        (caller 0, s') /\
      queued_inv 1 f' s'.
Proof.
    intros (Hab & Hr0 & Hd0) Ha. unfold on_active in Ha.
    eexists. split.
    - unfold caller. cbn [Nat.mul Nat.add]. run th_unf th_unf.
    - eexists. split; [reflexivity|].
      split.
      { split; [exact Hab|]. rewrite !lookup_insert_ne by lia. split; assumption. }
      split; [look th_unf; reflexivity|].
      split; [look th_unf; reflexivity|].
      split; [look th_unf; reflexivity|].
      split; [look th_unf; reflexivity|].
      intros j Hj. assert (j = 0) by lia. subst j.
      unfold caller_then, caller. cbn [Nat.mul Nat.add].
      split; look th_unf; reflexivity.
Qed.

  (** One more queued call. *)
Lemma queue_next k f f' s :
    queued_inv k f s ->
    exists s', Throttler.queue f' s = (caller k, s') /\ queued_inv (S k) f' s'.
Proof.
    intros (P & -> & (Hab & Hr0 & Hd0) & Ha & Hb & Hd & Hd' & Hcs).
    unfold caller_then, caller in *.
    eexists. split.
    - run th_unf th_unf.
    - eexists. split.
      { f_equal. unfold caller. lia. }
      unfold caller_then, caller.
      split.
      { split; [exact Hab|]. rewrite !lookup_insert_ne by lia. split; assumption. }
      split; [rewrite !lookup_insert_ne by lia; exact Ha|].
      split; [rewrite lookup_insert_eq, caller_reactions_snoc; reflexivity|].
      split; [rewrite !lookup_insert_ne by lia; exact Hd|].
      split; [rewrite !lookup_insert_ne by lia; exact Hd'|].
      intros j Hj. destruct (decide (j = k)) as [->|Hne].
      + split.
        * rewrite !lookup_insert_ne by lia. apply lookup_insert_eq.
        * rewrite lookup_insert_ne by lia. apply lookup_insert_eq.
      + destruct (Hcs j ltac:(lia)) as [H1 H2].
        rewrite !lookup_insert_ne by lia. split; assumption.
Qed.

Definition caller_jobs (j0 k : nat) (v : val) : list (job Throttler.clo) :=
    (fun j => ReactionJob (Some (FResolve (caller j))) false v (Some (caller_then j)))
      <$> seq j0 k.

Lemma jobs_of_callers j0 k v :
    jobs_of (caller_reactions j0 k) false v = caller_jobs j0 k v.
Proof.
    unfold jobs_of, caller_reactions, caller_jobs.
    rewrite <- list_fmap_compose. reflexivity.
Qed.

  (** The queued promise is fulfilled: each caller's promise is resolved
      with its value, one microtask per caller. *)
Lemma drain_callers v U I' : as_promise v = None -> forall k j0 P np,
    (forall j, j0 <= j < j0 + k ->
       P !! caller j = Some (Pending false []) /\
       P !! caller_then j = Some (Pending false [])) ->
    exists P',
      drain Throttler.call k (Rt P np (caller_jobs j0 k v) A T nt Sr ns I' U) =
        Some (Rt P' np [] A T nt Sr ns I' U) /\
      (forall j, j0 <= j < j0 + k -> P' !! caller j = Some (Fulfilled v)) /\
      (forall x, x < caller j0 -> P' !! x = P !! x).
Proof.
    intros Hv. induction k as [|k IH]; intros j0 P np Hcs.
    - exists P. split; [reflexivity|]. split; [intros; lia|reflexivity].
    - destruct (Hcs j0 ltac:(lia)) as [Hr He].
      unfold caller_jobs. cbn [seq fmap list_fmap]. fold (caller_jobs (S j0) k v).
      unfold caller_then, caller in Hr, He.
      eassert (E : drain Throttler.call (S k)
                     (Rt P np (ReactionJob (Some (FResolve (caller j0))) false v
                                 (Some (caller_then j0)) :: caller_jobs (S j0) k v)
                         A T nt Sr ns I' U) = _).
      { unfold caller_then, caller at 1 2. drain_step th_unf th_unf. reflexivity. }
      rewrite E. clear E. rewrite !app_nil_r.
      match goal with |- context [Rt ?P1 np (caller_jobs (S j0) k v)] =>
        destruct (IH (S j0) P1 np) as (P' & E & Hful & Hfr) end.
      { intros j Hj. destruct (Hcs j ltac:(lia)) as [H1 H2].
        unfold caller_then, caller in *.
        rewrite !lookup_insert_ne by lia. split; assumption. }
      exists P'. split; [exact E|]. split.
      + intros j Hj. destruct (decide (j = j0)) as [->|Hne].
        * rewrite Hfr by (unfold caller; lia). unfold caller.
          rewrite lookup_insert_ne by lia. apply lookup_insert_eq.
        * apply Hful. lia.
      + intros x Hx. rewrite Hfr by (unfold caller in *; lia).
        unfold caller in Hx. rewrite !lookup_insert_ne by lia. reflexivity.
Qed.

  (** The coalesced run is active: the queued promise follows the promise
      that the inner call of [queue] returned. *)
Definition running_inv (k f : nat) (s : Throttler.state) : Prop :=
    exists P,
      s = Rt P (S (S (S (caller k)))) [] A T nt Sr ns (I ++ [(f, caller k)])
             (Throttler.Throttler (Some (caller k)) None None) /\
      P !! caller k =
        Some (Pending false
                [Reaction (Some (FClo (Throttler.OnActiveResult (S (caller k)))))
                          (Some (FClo (Throttler.OnActiveError (S (caller k)))))
                          (Some (S (S (caller k))))]) /\
      P !! S (caller k) =
        Some (Pending false
                [Reaction (Some (FAdoptFulfil (S b))) (Some (FAdoptReject (S b))) None]) /\
      P !! S (S (caller k)) = Some (Pending false []) /\
      P !! S b = Some (Pending true [Reaction (Some (FResolve b)) None (Some (S (S b)))]) /\
      P !! S (S b) = Some (Pending false []) /\
      P !! b = Some (Pending false (caller_reactions 0 k)) /\
      (forall j, j < k -> P !! caller j = Some (Pending false []) /\
                          P !! caller_then j = Some (Pending false [])).

  (** The active task settles: the factory queued last is invoked. *)
Lemma active_settles k f s o0 :
    queued_inv k f s ->
    match o0 with Fulfil v => is_promise v = false | Fail _ => True end ->
    exists s3,
      drain Throttler.call 3 (exec (settle a o0) s) = Some s3 /\ running_inv k f s3.
Proof.
    intros (P & -> & (Hab & Hr0 & Hd0) & Ha & Hb & Hd & Hd' & Hcs) Ho.
    unfold on_active, on_complete in Ha.
    assert (Hcs' : forall j, j < k ->
              P !! (2 * j + S (S (S b))) = Some (Pending false []) /\
              P !! S (2 * j + S (S (S b))) = Some (Pending false [])) by exact Hcs.
    unfold running_inv. unfold caller_then, caller.
    destruct o0 as [v|e]; [apply is_promise_false in Ho|].
    all: eexists; split; [run th_unf th_unf|].
    all: eexists; split; [reflexivity|].
    all: split; [look th_unf; reflexivity|].
    all: split; [look th_unf; reflexivity|].
    all: split; [look th_unf; reflexivity|].
    all: split; [look th_unf; reflexivity|].
    all: split; [look th_unf; reflexivity|].
    all: split; [look th_unf; reflexivity|].
    all: intros j Hj; destruct (Hcs' j Hj) as [H1 H2];
      rewrite !lookup_insert_ne by lia; split; assumption.
Qed.

  (** The coalesced run fulfils: every caller's promise is fulfilled with
      its value. *)
Lemma coalesced_fulfils k f s v :
    running_inv k f s -> is_promise v = false ->
    exists s4,
      drain Throttler.call (3 + k) (exec (settle (caller k) (Fulfil v)) s) = Some s4 /\
      jobs s4 = [] /\ invocations s4 = invocations s /\
      forall j, j < k -> promise_state (caller j) s4 = Some (Fulfilled v).
Proof.
    intros (P & -> & Hp & Hr & Hd2 & Hd & Hd' & Hb & Hcs) Hv.
    apply is_promise_false in Hv.
    assert (Hcs' : forall j, j < k ->
              P !! (2 * j + S (S (S b))) = Some (Pending false []) /\
              P !! S (2 * j + S (S (S b))) = Some (Pending false [])) by exact Hcs.
    unfold caller in Hp, Hr, Hd2 |- *.
    cbn [Nat.add].
    match goal with |- context [exec ?m ?s] => eval_term th_unf th_unf (exec m s) end.
    match goal with |- context [drain ?c ?n ?s] =>
      eassert (E : drain c n s = _);
      [drain_step th_unf th_unf; drain_step th_unf th_unf; drain_step th_unf th_unf;
       reflexivity|] end.
    rewrite E. clear E. rewrite app_nil_r.
    match goal with |- context [map ?g (caller_reactions 0 k)] =>
      change (map g (caller_reactions 0 k))
        with (jobs_of (caller_reactions 0 k) false v) end.
    rewrite jobs_of_callers.
    match goal with |- context [Rt ?P1 ?np1 (caller_jobs 0 k v) A T nt Sr ns ?I1 ?U1] =>
      destruct (drain_callers v U1 I1 Hv k 0 P1 np1) as (P' & E & Hful & _) end.
    { intros j Hj. destruct (Hcs' j ltac:(lia)) as [H1 H2].
      unfold caller_then, caller. rewrite !lookup_insert_ne by lia. split; assumption. }
    eexists. split.
    - exact E.
    - split; [reflexivity|]. split; [reflexivity|].
      intros j Hj. apply Hful. lia.
Qed.

  (** The coalesced run rejects: the rejection stops at the promise of
      [then(resolve)]; the queued promise and the callers' promises stay
      pending, and no microtask is left. *)
Lemma coalesced_rejects k f s e :
    running_inv k f s ->
    exists s4,
      drain Throttler.call (3 + k) (exec (settle (caller k) (Fail e)) s) = Some s4 /\
      jobs s4 = [] /\ invocations s4 = invocations s /\
      promise_state b s4 = Some (Pending false (caller_reactions 0 k)) /\
      promise_state (S (S b)) s4 = Some (Rejected e) /\
      forall j, j < k -> promise_state (caller j) s4 = Some (Pending false []).
Proof.
    intros (P & -> & Hp & Hr & Hd2 & Hd & Hd' & Hb & Hcs).
    assert (Hcs' : forall j, j < k ->
              P !! (2 * j + S (S (S b))) = Some (Pending false []) /\
              P !! S (2 * j + S (S (S b))) = Some (Pending false [])) by exact Hcs.
    unfold caller in Hp, Hr, Hd2 |- *.
    eexists. split.
    - eapply drain_mono with (n := 3); [run th_unf th_unf|lia].
    - split; [reflexivity|]. split; [reflexivity|].
      split; [look th_unf; reflexivity|]. split; [look th_unf; reflexivity|].
      intros j Hj. destruct (Hcs' j Hj) as [H1 H2]. look th_unf. reflexivity.
Qed.

Lemma queue_all_spec fs : forall k f s,
    queued_inv k f s ->
    exists s',
      queue_all fs s = (caller <$> seq k (length fs), s') /\
      queued_inv (k + length fs) (default f (last fs)) s'.
Proof.
    induction fs as [|f' fs IH]; intros k f s Hinv.
    - exists s. rewrite Nat.add_0_r. split; [reflexivity|exact Hinv].
    - destruct (queue_next k f f' s Hinv) as (s1 & E1 & Hinv1).
      destruct (IH (S k) f' s1 Hinv1) as (s2 & E2 & Hinv2).
      exists s2. split.
      + cbn [queue_all length seq fmap list_fmap]. unfold bind. rewrite E1, E2. reflexivity.
      + cbn [length]. replace (k + S (length fs)) with (S k + length fs) by lia.
        rewrite last_cons. destruct (last fs); exact Hinv2.
Qed.
End Queued.

Definition outcome_value (o : outcome) : Prop :=
  match o with
  | Fulfil v => is_promise v = false
  | Fail _ => True
  end.

(** What a caller's promise has become when the coalesced run settled. *)
Definition caller_outcome (o : outcome) : pstate Throttler.clo :=
  match o with
  | Fulfil v => Fulfilled v
  | Fail _ => Pending false []
  end.

(** C1.  An idle throttler starts a task with [queue(f0)]; while it is
    active, [queue] is called with [f1] and then with the factories of [fs].
    No factory is invoked by these calls.  When the active task settles, the
    factory queued last is invoked, and no other: two invocations in all.
    The callers' promises are pending until the promise of that run settles.
    When it is fulfilled, every caller's promise is fulfilled with its
    value.  When it is rejected, no microtask is left and every caller's
    promise is still pending: the rejection does not reach the callers. *)
Theorem throttler_runs_the_last_queued_factory_once (s : Throttler.state)
    (f0 f1 : nat) (fs : list nat) (o0 o : outcome) :
  throttler_idle s -> outcome_value o0 -> outcome_value o ->
  let f := default f1 (last fs) in
  exists r0 s1 rs s2 a s3 c s4,
    Throttler.queue f0 s = (r0, s1) /\
    queue_all (f1 :: fs) s1 = (rs, s2) /\
    length rs = S (length fs) /\
    invoked s2 = invoked s ++ [f0] /\
    latest_promise s2 = Some a /\
    drain Throttler.call 3 (exec (settle a o0) s2) = Some s3 /\
    invoked s3 = invoked s ++ [f0; f] /\
    Forall (fun r => promise_state r s3 = Some (Pending false [])) rs /\
    latest_promise s3 = Some c /\
    drain Throttler.call (4 + length fs) (exec (settle c o) s3) = Some s4 /\
    jobs s4 = [] /\
    invoked s4 = invoked s ++ [f0; f] /\
    Forall (fun r => promise_state r s4 = Some (caller_outcome o)) rs.
Proof.
  intros (Hj & Hact & Hq) Ho0 Ho f.
  destruct s as [P np J A T nt Sr ns I [ap qp fq]]. cbn in Hj, Hact, Hq. subst J ap qp.
  eassert (E0 : Throttler.queue f0
                  (Rt P np [] A T nt Sr ns I (Throttler.Throttler None None fq)) = _)
    by (run th_unf th_unf).
  match type of E0 with _ = (_, Rt ?P1 _ _ _ _ _ _ _ ?I1 _) =>
    destruct (queue_first A T nt Sr ns I1 np (S (S (S np))) P1 fq f1)
      as (s1' & E1 & Hinv1) end.
  { split; [lia|]. split; look th_unf; reflexivity. }
  { look th_unf. reflexivity. }
  match type of Hinv1 with queued_inv ?A ?T ?nt ?Sr ?ns ?I1 ?a ?b _ _ _ =>
    destruct (queue_all_spec A T nt Sr ns I1 a b fs 1 f1 s1' Hinv1) as (s2 & E2 & Hinv2);
    destruct (active_settles A T nt Sr ns I1 a b _ _ s2 o0 Hinv2 Ho0) as (s3 & E3 & Hrun)
  end.
  fold f in Hinv2, Hrun.
  do 2 eexists. exists (caller (S (S (S np))) <$> seq 0 (S (length fs))), s2, np, s3,
    (caller (S (S (S np))) (1 + length fs)).
  assert (E4 : exists s4,
             drain Throttler.call (4 + length fs)
               (exec (settle (caller (S (S (S np))) (1 + length fs)) o) s3) = Some s4 /\
             jobs s4 = [] /\ invocations s4 = invocations s3 /\
             forall j, j < 1 + length fs ->
               promise_state (caller (S (S (S np))) j) s4 = Some (caller_outcome o)).
  { destruct o as [v|e].
    - edestruct coalesced_fulfils as (s4 & E & H1 & H2 & H3); [exact Hrun|exact Ho|].
      exists s4. split; [exact E|]. split; [exact H1|]. split; [exact H2|exact H3].
    - edestruct coalesced_rejects as (s4 & E & H1 & H2 & _ & _ & H3); [exact Hrun|].
      exists s4. split; [exact E|]. split; [exact H1|]. split; [exact H2|exact H3]. }
  destruct E4 as (s4 & E4 & Hj4 & Hi4 & Hc4).
  exists s4.
  destruct Hinv2 as (P2 & -> & _ & Ha2 & Hb2 & _ & _ & Hcs2).
  destruct Hrun as (P3 & -> & Hp3 & _ & _ & _ & _ & _ & Hcs3).
  split; [exact E0|].
  split; [cbn [queue_all]; unfold bind; rewrite E1, E2; reflexivity|].
  split; [rewrite length_fmap, length_seq; reflexivity|].
  split; [unfold invoked; cbn [invocations]; rewrite fmap_app; reflexivity|].
  split; [unfold latest_promise; cbn [invocations]; rewrite last_snoc; reflexivity|].
  split; [exact E3|].
  split; [unfold invoked; cbn [invocations]; rewrite !fmap_app, <- app_assoc; reflexivity|].
  split.
  { apply Forall_fmap, Forall_forall. intros j Hj. apply elem_of_seq in Hj.
    cbn. unfold promise_state. cbn [promises]. apply Hcs3. lia. }
  split; [unfold latest_promise; cbn [invocations]; rewrite last_snoc; reflexivity|].
  split; [exact E4|]. split; [exact Hj4|].
  split; [unfold invoked; rewrite Hi4; cbn [invocations];
          rewrite !fmap_app, <- app_assoc; reflexivity|].
  apply Forall_fmap, Forall_forall. intros j Hj. apply elem_of_seq in Hj.
  cbn. apply Hc4. lia.
Qed.

Lemma throttler_runs_the_last_queued_factory_once_witness :
  exists r0 s1 rs s2 a s3 c s4,
    Throttler.queue 1 (init Throttler.new) = (r0, s1) /\
    queue_all [2; 3] s1 = (rs, s2) /\
    length rs = 2 /\
    invoked s2 = [1] /\
    latest_promise s2 = Some a /\
    drain Throttler.call 3 (exec (settle a (Fulfil (VNum 1))) s2) = Some s3 /\
    invoked s3 = [1; 3] /\
    Forall (fun r => promise_state r s3 = Some (Pending false [])) rs /\
    latest_promise s3 = Some c /\
    drain Throttler.call 5 (exec (settle c (Fail (VError "failed"))) s3) = Some s4 /\
    jobs s4 = [] /\
    invoked s4 = [1; 3] /\
    Forall (fun r => promise_state r s4 = Some (Pending false [])) rs.
Proof.
  apply (throttler_runs_the_last_queued_factory_once (init Throttler.new) 1 2 [3]
           (Fulfil (VNum 1)) (Fail (VError "failed"))).
  - split; [reflexivity|]. split; reflexivity.
  - reflexivity.
  - exact Logic.I.
Defined.

(** The run of the witness, computed: the two queued callers hold the
    promises 6 and 8; the coalesced run, of factory 3, returns promise 10 and
    rejects; nothing is left to run and both promises are pending. *)
Example queued_callers_do_not_see_the_rejection :
  (let s1 := exec (Throttler.queue 1) (init Throttler.new) in
   let s2 := exec (queue_all [2; 3]) s1 in
   s3 ← drain Throttler.call 3 (exec (settle 0 (Fulfil (VNum 1))) s2);
   s4 ← drain Throttler.call 5 (exec (settle 10 (Fail (VError "failed"))) s3);
   Some ((queue_all [2; 3] s1).1, invoked s4, jobs s4,
         promise_state 6 s4, promise_state 8 s4)) =
  Some ([6; 8], [1; 3], [], Some (Pending false []), Some (Pending false [])).
Proof. vm_compute. reflexivity. Qed.

(** The same run when the coalesced run fulfils: both callers get the
    value. *)
Example queued_callers_see_the_value :
  (let s1 := exec (Throttler.queue 1) (init Throttler.new) in
   let s2 := exec (queue_all [2; 3]) s1 in
   s3 ← drain Throttler.call 3 (exec (settle 0 (Fulfil (VNum 1))) s2);
   s4 ← drain Throttler.call 5 (exec (settle 10 (Fulfil (VNum 2))) s3);
   Some (invoked s4, jobs s4, promise_state 6 s4, promise_state 8 s4)) =
  Some ([1; 3], [], Some (Fulfilled (VNum 2)), Some (Fulfilled (VNum 2))).
Proof. vm_compute. reflexivity. Qed.

(** ** OutlineModel: the request cache *)

Ltac om_unf :=
  repeat match goal with
    | |- context [Outline.invoke ?c ?a] =>
        change (Outline.invoke c a) with (Outline.body (Outline.call 7) c a)
    | |- context [Outline.call (S ?k) ?c ?a] =>
        change (Outline.call (S k) c a) with (Outline.body (Outline.call k) c a)
    end;
  cbv beta iota zeta delta
    [Outline.body
     Outline.set_requests Outline.set_entries Outline.set_keys
     Outline.set_providers Outline.set_change_listeners Outline.set_objects
     Outline.set_created Outline.set_unexpected
     Outline._requests Outline.entries Outline.next_entry Outline.keys_counter
     Outline.keys_data Outline.providers Outline.change_listeners
     Outline.next_listener Outline.objects Outline.next_object Outline.created
     Outline.unexpected
     Outline.promiseCnt Outline.source Outline.promise Outline.model].

Ltac om_prim :=
  cbv beta iota zeta delta
    [Outline.alloc_object Outline.write_object Outline.read_object
     Outline.alloc_entry Outline.write_entry Outline.read_entry
     Outline.requests_get Outline.dispose_listener
     Outline.set_requests Outline.set_entries Outline.set_keys
     Outline.set_providers Outline.set_change_listeners Outline.set_objects
     Outline.set_created Outline.set_unexpected
     Outline._requests Outline.entries Outline.next_entry Outline.keys_counter
     Outline.keys_data Outline.providers Outline.change_listeners
     Outline.next_listener Outline.objects Outline.next_object Outline.created
     Outline.unexpected
     Outline.promiseCnt Outline.source Outline.promise Outline.model].

(** *** Keys *)

(** The string that [_hash] builds when every provider has its number. *)
Definition hash_known (d : gmap nat nat) (ps : list nat) (acc : string) : string :=
  fold_left (fun acc p => acc +:+ pretty (default 0 (d !! p))) ps acc.

Lemma _hash_spec (ps : list nat) (acc : string) (s : Outline.state) :
  exists c' d',
    Outline._hash ps acc s =
      (hash_known d' ps acc, set_user (Outline.set_keys c' d' (user s)) s) /\
    Outline.keys_data (user s) ⊆ d' /\
    (forall p, p ∈ ps -> is_Some (d' !! p)).
Proof.
  revert acc s. induction ps as [|p ps IH]; intros acc s.
  - exists (Outline.keys_counter (user s)), (Outline.keys_data (user s)).
    split; [|split; [reflexivity|intros p Hp; inversion Hp]].
    destruct s as [P np J A T nt Sr ns I U]. destruct U. reflexivity.
  - cbn [Outline._hash]. unfold bind at 1. unfold get_user at 1.
    destruct (Outline.keys_data (user s) !! p) as [n|] eqn:Hp.
    + unfold bind at 1. unfold ret at 1.
      destruct (IH (acc +:+ pretty n) s) as (c' & d' & E & Hsub & Hall).
      exists c', d'. rewrite E. split; [|split; [exact Hsub|]].
      * cbn. f_equal.
        rewrite (lookup_weaken _ _ _ _ Hp Hsub). reflexivity.
      * intros q Hq. apply elem_of_cons in Hq as [->|Hq]; [|auto].
        rewrite (lookup_weaken _ _ _ _ Hp Hsub). eauto.
    + unfold bind at 1. unfold bind at 1. unfold put_user at 1. unfold ret at 1.
      destruct s as [P np J A T nt Sr ns I U].
      destruct U as [R En ne kc kd pv cl nl O no cr ux]. cbn in Hp |- *.
      match goal with |- context [Outline._hash ps ?a ?s1] =>
        destruct (IH a s1) as (c' & d' & E & Hsub & Hall) end.
      cbn in Hsub, E. exists c', d'. rewrite E.
      assert (Hin : d' !! p = Some kc).
      { eapply lookup_weaken; [apply lookup_insert_eq|exact Hsub]. }
      split; [|split].
      * cbn. rewrite Hin. reflexivity.
      * etransitivity; [|exact Hsub]. apply insert_subseteq. exact Hp.
      * intros q Hq. apply elem_of_cons in Hq as [->|Hq]; [eauto|auto].
Qed.

Lemma hash_known_ext (d d' : gmap nat nat) ps acc :
  d ⊆ d' -> (forall p, p ∈ ps -> is_Some (d !! p)) ->
  hash_known d' ps acc = hash_known d ps acc.
Proof.
  intros Hsub. revert acc. induction ps as [|p ps IH]; intros acc Hall; [reflexivity|].
  cbn. destruct (Hall p) as [n Hn]; [left|].
  rewrite Hn, (lookup_weaken _ _ _ _ Hn Hsub). apply IH.
  intros q Hq. apply Hall. right. exact Hq.
Qed.

(** Once every provider has its number, [_hash] changes nothing. *)
Lemma _hash_known (ps : list nat) (acc : string) (s : Outline.state) :
  (forall p, p ∈ ps -> is_Some (Outline.keys_data (user s) !! p)) ->
  Outline._hash ps acc s = (hash_known (Outline.keys_data (user s)) ps acc, s).
Proof.
  revert acc. induction ps as [|p ps IH]; intros acc Hall; [reflexivity|].
  cbn [Outline._hash]. unfold bind at 1. unfold get_user at 1.
  destruct (Hall p) as [n Hn]; [left|]. rewrite Hn.
  unfold bind at 1. unfold ret at 1. rewrite IH.
  - cbn. rewrite Hn. reflexivity.
  - intros q Hq. apply Hall. right. exact Hq.
Qed.

(** Every provider of the registry has its number. *)
Definition keys_known (kd : gmap nat nat) (pv : list nat) : Prop :=
  forall p, p ∈ pv -> is_Some (kd !! p).

Definition key_of (tm : Outline.textModel) (kd : gmap nat nat) (pv : list nat) : string :=
  Outline.tm_id tm +:+ "/" +:+ pretty (Outline.tm_versionId tm) +:+ "/" +:+
  hash_known kd pv EmptyString.

(** [_keys.for] only assigns numbers to providers, and afterwards every
    provider has one. *)
Lemma keys_for_spec (tm : Outline.textModel) P np J A T nt Sr ns I
    R En ne kc kd pv cl nl O no cr ux :
  exists c' d',
    Outline.keys_for tm true
      (Rt P np J A T nt Sr ns I (Outline.State R En ne kc kd pv cl nl O no cr ux)) =
    (key_of tm d' pv,
     Rt P np J A T nt Sr ns I (Outline.State R En ne c' d' pv cl nl O no cr ux)) /\
    keys_known d' pv.
Proof.
  unfold Outline.keys_for. unfold bind at 1. unfold get_user at 1.
  cbn [user Outline.providers].
  match goal with |- context [bind (Outline._hash ?ps ?a) _ ?s] =>
    destruct (_hash_spec ps a s) as (c' & d' & E & Hsub & Hall) end.
  exists c', d'. unfold bind at 1. cbn in E, Hall |- *. rewrite E. unfold ret.
  split; [reflexivity|]. exact Hall.
Qed.

(** With the numbers assigned, [_keys.for] gives the same key again and
    leaves the state as it is. *)
Lemma keys_for_known (tm : Outline.textModel) P np J A T nt Sr ns I
    R En ne kc kd pv cl nl O no cr ux :
  keys_known kd pv ->
  Outline.keys_for tm true
    (Rt P np J A T nt Sr ns I (Outline.State R En ne kc kd pv cl nl O no cr ux)) =
  (key_of tm kd pv,
   Rt P np J A T nt Sr ns I (Outline.State R En ne kc kd pv cl nl O no cr ux)).
Proof.
  intros Hk. unfold Outline.keys_for. unfold bind at 1. unfold get_user at 1.
  unfold bind at 1. rewrite _hash_known by exact Hk. reflexivity.
Qed.

(** *** What [create] and [_create] do to the cache and to the sources *)

(** The part of a state that the cache and the cancellation depend on:
    timers, sources, and the state of the module without its objects. *)
Definition om_view (s' : Outline.state) T nt Sr ns R En ne kc kd pv cl nl cr ux : Prop :=
  timers s' = T /\ next_timer s' = nt /\ sources s' = Sr /\ next_source s' = ns /\
  Outline._requests (user s') = R /\ Outline.entries (user s') = En /\
  Outline.next_entry (user s') = ne /\ Outline.keys_counter (user s') = kc /\
  Outline.keys_data (user s') = kd /\ Outline.providers (user s') = pv /\
  Outline.change_listeners (user s') = cl /\ Outline.next_listener (user s') = nl /\
  Outline.created (user s') = cr /\ Outline.unexpected (user s') = ux.

Definition om_frame (s s' : Outline.state) : Prop :=
  om_view s' (timers s) (next_timer s) (sources s) (next_source s)
    (Outline._requests (user s)) (Outline.entries (user s)) (Outline.next_entry (user s))
    (Outline.keys_counter (user s)) (Outline.keys_data (user s))
    (Outline.providers (user s)) (Outline.change_listeners (user s))
    (Outline.next_listener (user s)) (Outline.created (user s))
    (Outline.unexpected (user s)).

Lemma om_frame_refl s : om_frame s s.
Proof. unfold om_frame, om_view. repeat split. Qed.

Lemma om_frame_trans s1 s2 s3 : om_frame s1 s2 -> om_frame s2 s3 -> om_frame s1 s3.
Proof.
  unfold om_frame, om_view.
  intros (?&?&?&?&?&?&?&?&?&?&?&?&?&?) (?&?&?&?&?&?&?&?&?&?&?&?&?&?).
  repeat split; congruence.
Qed.

Lemma heap_frame_om s s' : heap_frame s s' -> om_frame s s'.
Proof.
  unfold heap_frame, om_frame, om_view. intros (?&?&?&?&?&->&?).
  repeat split; assumption.
Qed.

Lemma bind_om_frame {A B} (m : M Outline.clo Outline.t A) (k : A -> M Outline.clo Outline.t B) s :
  om_frame s (m s).2 -> (forall a s1, om_frame s1 (k a s1).2) ->
  om_frame s (bind m k s).2.
Proof.
  intros H1 H2. unfold bind. destruct (m s) as [a s1]. cbn in H1.
  eapply om_frame_trans; [exact H1|apply H2].
Qed.

Lemma start_providers_frame tm cts result i ps s :
  om_frame s (Outline.start_providers tm cts result i ps s).2.
Proof.
  revert i s. induction ps as [|p ps IH]; intros i s; [apply om_frame_refl|].
  cbn [Outline.start_providers].
  apply bind_om_frame; [apply om_frame_refl|]. intros r s1.
  apply bind_om_frame; [unfold om_frame, om_view; repeat split|]. intros g s2.
  apply bind_om_frame; [unfold om_frame, om_view; repeat split|]. intros y s3.
  apply bind_om_frame; [apply heap_frame_om, promise_resolve_frame|]. intros q s4.
  apply bind_om_frame; [apply heap_frame_om, then_frame|]. intros d1 s5.
  apply bind_om_frame; [apply heap_frame_om, then_frame|]. intros d2 s6.
  apply bind_om_frame; [apply IH|]. intros ds s7. apply om_frame_refl.
Qed.

(** A state known by its view: the rest becomes variables. *)
Ltac use_view H s' :=
  let U := fresh "U" in
  destruct s' as [?P ?np ?J ?A ?T ?nt ?Sr ?ns ?I U];
  destruct U as [?R ?En ?ne ?kc ?kd ?pv ?cl ?nl ?O ?no ?cr ?ux];
  unfold om_frame, om_view in H;
  cbn [timers next_timer sources next_source user
       Outline._requests Outline.entries Outline.next_entry Outline.keys_counter
       Outline.keys_data Outline.providers Outline.change_listeners
       Outline.next_listener Outline.created Outline.unexpected] in H;
  destruct H as (-> & -> & -> & -> & -> & -> & -> & -> & -> & -> & -> & -> & -> & ->).

(** The first operation in the goal only changes what the view leaves out:
    [lem] says so. *)
Ltac step_frame tac :=
  rewrite ?bind_bind;
  lazymatch goal with
  | |- context [bind ?m ?k ?s] =>
      let F := fresh "F" in
      let a := fresh "a" in
      let s1 := fresh "s" in
      assert (F : om_frame s (m s).2) by tac;
      unfold bind at 1;
      destruct (m s) as [a s1]; cbn [snd] in F;
      use_view F s1
  end.

(** [_create] with a token that is not cancelled: a child source is made and
    linked to the token, a listener of the registry is added, the call is
    counted. *)
Lemma _create_view self tm token P np J A T nt Sr ns I
    R En ne kc kd pv cl nl O no cr ux ls cc dc :
  Sr !! token = Some (Source false ls cc dc) -> token <> ns ->
  om_view
    (Outline._create self tm token
       (Rt P np J A T nt Sr ns I (Outline.State R En ne kc kd pv cl nl O no cr ux))).2
    T nt
    (<[token := Source false (ls ++ [FCancel ns]) cc dc]>
       (<[ns := Source false [] 0 0]> Sr))
    (S ns) R En ne kc kd pv
    (cl ++ [(nl, Outline.OnRegistryChange tm pv ns)]) (S nl) (S cr) ux.
Proof.
  intros Htok Hne. unfold Outline._create.
  step_run om_unf om_prim.
  step_run om_unf om_prim.
  step_run om_unf om_prim.
  step_run om_unf om_prim.
  step_frame ltac:(apply start_providers_frame).
  step_run om_unf om_prim.
  step_run om_unf om_prim.
  step_frame ltac:(apply heap_frame_om, promise_all_frame).
  step_frame ltac:(apply heap_frame_om, then_frame).
  match goal with |- context [then_ ?p ?f ?g ?s] =>
    pose proof (heap_frame_om _ _ (proj2 (then_frame p f g s))) as F;
    destruct (then_ p f g s) as [d s1] end.
  cbn [snd] in F |- *. use_view F s1. unfold om_view. repeat split.
Qed.

(** [create] for a key that is not in the cache: [_create] is called, the
    entry is stored with one reference, and a listener is put on the
    caller's token. *)
Lemma create_absent_view tm token P np J A T nt Sr ns I
    R En ne kc kd pv cl nl O no cr ux c' d' key ls cc dc :
  Outline.keys_for tm true
    (Rt P np J A T nt Sr ns I (Outline.State R En ne kc kd pv cl nl O no cr ux)) =
  (key, Rt P np J A T nt Sr ns I (Outline.State R En ne c' d' pv cl nl O no cr ux)) ->
  R !! key = None ->
  Sr !! token = Some (Source false ls cc dc) -> token < ns ->
  exists p,
  om_view
    (Outline.create Outline.invoke tm token
       (Rt P np J A T nt Sr ns I (Outline.State R En ne kc kd pv cl nl O no cr ux))).2
    T nt
    (<[token := Source false (ls ++ [FClo (Outline.OnTokenCancelled ne key)]) cc dc]>
       (<[ns := Source false [FCancel (S ns)] 0 0]>
          (<[S ns := Source false [] 0 0]>
             (<[ns := Source false [] 0 0]> Sr))))
    (S (S ns)) (<[key := ne]> R)
    (<[ne := Outline.Entry (0 + 1) ns p VUndefined]> En)
    (S ne) c' d' pv
    (cl ++ [(nl, Outline.OnRegistryChange tm pv (S ns))]) (S nl) (S cr) ux.
Proof.
  intros E Hreq Htok Hlt. unfold Outline.create.
  rewrite (bind_step _ _ _ _ _ E). cbv beta.
  step_run om_unf om_prim.
  step_run om_unf om_prim.
  rewrite ?bind_bind.
  match goal with |- context [bind (Outline._create ?self ?tm ?tok) ?k ?s] =>
    eassert (V : om_view (Outline._create self tm tok s).2 _ _ _ _ _ _ _ _ _ _ _ _ _ _)
      by (apply _create_view with (ls := []) (cc := 0) (dc := 0);
          [look om_prim; reflexivity|lia]);
    unfold bind at 1;
    destruct (Outline._create self tm tok s) as [p s1] end.
  cbn [snd] in V. use_view V s1.
  exists p.
  step_run om_unf om_prim.
  step_run om_unf om_prim.
  step_frame ltac:(apply heap_frame_om, then_frame).
  step_run om_unf om_prim.
  step_run om_unf om_prim.
  cbn [truthy Outline.model].
  step_run om_unf om_prim.
  step_run om_unf om_prim.
  step_run om_unf om_prim.
  step_run om_unf om_prim.
  step_frame ltac:(apply heap_frame_om, then_frame).
  unfold ret, om_view. cbn. repeat split.
  rewrite insert_insert_eq. reflexivity.
Qed.

(** [create] for a key whose entry has no model yet: no [_create], one more
    reference, and a listener on the caller's token. *)
Lemma create_pending_view tm token P np J A T nt Sr ns I
    R En ne kc kd pv cl nl O no cr ux key d cnt src pr m ls cc dc :
  Outline.keys_for tm true
    (Rt P np J A T nt Sr ns I (Outline.State R En ne kc kd pv cl nl O no cr ux)) =
  (key, Rt P np J A T nt Sr ns I (Outline.State R En ne kc kd pv cl nl O no cr ux)) ->
  R !! key = Some d ->
  En !! d = Some (Outline.Entry cnt src pr m) ->
  truthy m = false ->
  Sr !! token = Some (Source false ls cc dc) ->
  om_view
    (Outline.create Outline.invoke tm token
       (Rt P np J A T nt Sr ns I (Outline.State R En ne kc kd pv cl nl O no cr ux))).2
    T nt
    (<[token := Source false (ls ++ [FClo (Outline.OnTokenCancelled d key)]) cc dc]> Sr)
    ns R (<[d := Outline.Entry (cnt + 1) src pr m]> En) ne kc kd pv cl nl cr ux.
Proof.
  intros E Hreq Hent Hm Htok. unfold Outline.create.
  rewrite (bind_step _ _ _ _ _ E). cbv beta.
  step_run om_unf om_prim.
  step_run om_unf om_prim.
  step_run om_unf om_prim.
  cbn [Outline.model]. rewrite Hm.
  step_run om_unf om_prim.
  step_run om_unf om_prim.
  step_run om_unf om_prim.
  step_run om_unf om_prim.
  step_frame ltac:(apply heap_frame_om, then_frame).
  unfold ret, om_view. cbn. repeat split.
Qed.

(** The two orders in which two callers can cancel their tokens. *)
Definition cancel_both (first second : nat) : M Outline.clo Outline.t unit :=
  bind (cancel_source Outline.invoke first) (fun _ => cancel_source Outline.invoke second).

(** C2.  In any state whose cache has no entry for the key of [tm], two
    callers with tokens [t1] and [t2] call [create] before anything resolves:
    [_create] is called once, and the entry counts two references.  When both
    tokens are cancelled, whichever is cancelled last, the stored source has
    received one [cancel()] and is cancelled, its child source (the token that
    [_create] works with) is cancelled, and the entry is no longer in the
    cache.  A third [create] for the same key then calls [_create] again:
    two calls in total. *)
Theorem two_callers_share_one_create_and_last_release_cancels
    (s : Outline.state) (tm : Outline.textModel) (t1 t2 t3 : nat)
    (first second : nat) (c1 d1 c2 d2 c3 d3 : nat) :
  let key := (Outline.keys_for tm true s).1 in
  Outline._requests (user s) !! key = None ->
  sources s !! t1 = Some (Source false [] c1 d1) ->
  sources s !! t2 = Some (Source false [] c2 d2) ->
  sources s !! t3 = Some (Source false [] c3 d3) ->
  t1 < next_source s -> t2 < next_source s -> t3 < next_source s ->
  t1 <> t2 -> t3 <> t1 -> t3 <> t2 ->
  (first = t1 /\ second = t2) \/ (first = t2 /\ second = t1) ->
  let source := next_source s in
  let data := Outline.next_entry (user s) in
  let s1 := exec (Outline.create Outline.invoke tm t1) s in
  let s2 := exec (Outline.create Outline.invoke tm t2) s1 in
  let s3 := exec (cancel_both first second) s2 in
  let s4 := exec (Outline.create Outline.invoke tm t3) s3 in
  Outline.created (user s2) = S (Outline.created (user s)) /\
  Outline._requests (user s2) !! key = Some data /\
  (exists p, Outline.entries (user s2) !! data =
               Some (Outline.Entry 2 source p VUndefined)) /\
  cancellations source s2 = 0 /\
  Outline._requests (user s3) !! key = None /\
  cancellations source s3 = 1 /\
  source_cancelled source s3 = true /\
  source_cancelled (S source) s3 = true /\
  Outline.created (user s4) = S (S (Outline.created (user s))) /\
  (exists data', Outline._requests (user s4) !! key = Some data' /\ data' <> data).
Proof.
  destruct s as [P np J A T nt Sr ns I U].
  destruct U as [R En ne kc kd pv cl nl O no cr ux].
  destruct (keys_for_spec tm P np J A T nt Sr ns I R En ne kc kd pv cl nl O no cr ux)
    as (kc' & kd' & E & Hk).
  intros key. subst key. rewrite E.
  intros Hreq H1 H2 H3 L1 L2 L3 N12 N31 N32 Hord.
  cbn [fst user next_source sources Outline._requests] in Hreq, H1, H2, H3, L1, L2, L3.
  intros source data. subst source data.
  (* the first caller *)
  intros s1.
  destruct (create_absent_view tm t1 P np J A T nt Sr ns I R En ne kc kd pv cl nl O no cr ux
              kc' kd' _ [] c1 d1 E Hreq H1 L1) as (p & V1).
  change (Outline.create _ _ _ _).2 with s1 in V1. clearbody s1. use_view V1 s1.
  (* the second caller *)
  intros s2.
  eassert (V2 : om_view s2 _ _ _ _ _ _ _ _ _ _ _ _ _ _).
  { eapply create_pending_view with (d := ne) (m := VUndefined).
    - apply keys_for_known. exact Hk.
    - apply lookup_insert_eq.
    - apply lookup_insert_eq.
    - reflexivity.
    - look om_prim. reflexivity. }
  clearbody s2. use_view V2 s2.
  (* both tokens are cancelled *)
  destruct Hord as [[-> ->]|[-> ->]];
    eval_let ltac:(om_unf; cbv beta delta [cancel_both]) om_prim.
  all: intros s4.
  all: match goal with
       | s4 := exec (Outline.create _ _ _)
                 (Rt ?P ?np ?J ?A ?T ?nt ?Sr ?ns ?I
                     (Outline.State ?R ?En ?ne ?kc ?kd ?pv ?cl ?nl ?O ?no ?cr ?ux)) |- _ =>
           destruct (create_absent_view tm t3 P np J A T nt Sr ns I R En ne kc kd pv cl nl
                       O no cr ux kc kd (key_of tm kd pv) [] c3 d3) as (p' & V4);
           [ apply keys_for_known; exact Hk
           | apply lookup_delete_eq
           | look om_prim; reflexivity
           | lia
           | ]
       end.
  all: change (Outline.create _ _ _ _).2 with s4 in V4; clearbody s4; use_view V4 s4.
  all: repeat (split; [look om_prim; reflexivity|]).
  all: split; [eexists; look om_prim; reflexivity|].
  all: repeat (split; [look om_prim; reflexivity|]).
  all: exists (S ne); split; [look om_prim; reflexivity|cbn; lia].
Qed.

(** ** Promises.settled *)

Ltac ps_unf :=
  cbv beta iota zeta delta
    [Promises.settled Promises.cells Promises.next_cell];
  cbn [Promises.call Promises.map_then].

Ltac ps_prim :=
  cbv beta iota zeta delta
    [Promises.read_firstError Promises.write_firstError Promises.new_firstError
     Promises.cells Promises.next_cell].

(** The environment settles the input promises, one after the other, in
    the order of [ev]: each event names an input by its index in [ps] and
    gives its outcome; the microtasks run after each. *)
Fixpoint settle_inputs (fuel : nat) (ps : list nat) (ev : list (nat * outcome))
    (s : Promises.state) : option Promises.state :=
  match ev with
  | [] => Some s
  | (i, o) :: ev' =>
      match ps !! i with
      | Some p =>
          match drain Promises.call fuel (exec (settle p o) s) with
          | Some s' => settle_inputs fuel ps ev' s'
          | None => None
          end
      | None => None
      end
  end.

(** [firstError] after the rejection handlers ran in the order of [ev]. *)
Definition record_error (fe : val) (o : outcome) : val :=
  match o with
  | Fulfil _ => fe
  | Fail e => if truthy fe then fe else e
  end.

Definition firstError_after (ev : list (nat * outcome)) : val :=
  foldl (fun fe io => record_error fe io.2) VUndefined ev.

(** What the mapped promise of an input is fulfilled with. *)
Definition slot_of (o : outcome) : val :=
  match o with
  | Fulfil v => v
  | Fail _ => VUndefined
  end.

Definition slots_after (n : nat) (ev : list (nat * outcome)) : list val :=
  foldl (fun vs io => <[io.1 := slot_of io.2]> vs) (replicate n VUndefined) ev.

(** A state with [n] pending promises, [0] to [n - 1]. *)
Definition pending_inputs (n : nat) : Promises.state :=
  Nat.iter n (exec new_promise) (init Promises.new).

Definition run_settled (ps : list nat) (ev : list (nat * outcome)) (s : Promises.state)
  : option (pstate Promises.clo) :=
  let (r, s0) := Promises.settled ps s in
  match drain Promises.call 1 s0 with
  | Some s1 =>
      match settle_inputs 3 ps ev s1 with
      | Some s2 => promise_state r s2
      | None => None
      end
  | None => None
  end.

(** *** The two loops over the inputs *)

Section Loops.
Variables (A : gmap nat all_state) (T : gmap nat (fn Promises.clo * Z)) (nt : nat)
            (Sr : gmap nat (source Promises.clo)) (ns : nat) (I : list (nat * nat))
            (U : Promises.t).

Definition on_input (c d : nat) : reaction Promises.clo :=
    Reaction (Some (FClo Promises.OnValue)) (Some (FClo (Promises.OnError c))) (Some d).

Definition on_mapped (a i e : nat) : reaction Promises.clo :=
    Reaction (Some (FAllElement a i)) (Some (FReject a)) (Some e).

  (** [promises.map(promise => promise.then(...))] on pending inputs: the
      mapped promises are the next ones, in the order of the inputs. *)
Lemma map_then_spec c ps : forall P np J,
    NoDup ps ->
    Forall (fun p => p < np /\ P !! p = Some (Pending false [])) ps ->
    exists P',
      Promises.map_then c ps (Rt P np J A T nt Sr ns I U) =
        (VPromise <$> seq np (length ps),
         Rt P' (np + length ps) J A T nt Sr ns I U) /\
      (forall i p, ps !! i = Some p ->
         P' !! p = Some (Pending false [on_input c (np + i)])) /\
      (forall i, i < length ps -> P' !! (np + i) = Some (Pending false [])) /\
      (forall x, x ∉ ps -> x < np \/ np + length ps <= x -> P' !! x = P !! x).
Proof.
    induction ps as [|p ps IH]; intros P np J Hnd Hall.
    - exists P. cbn. rewrite Nat.add_0_r. split; [reflexivity|].
      split; [intros i p H; discriminate|]. split; [intros; lia|]. reflexivity.
    - apply NoDup_cons in Hnd. destruct Hnd as [Hp Hnd].
      apply Forall_cons in Hall. destruct Hall as [[Hlt Hpl] Hall].
      cbn [Promises.map_then length seq fmap list_fmap].
      eassert (E : then_ p (Some (FClo Promises.OnValue))
                     (Some (FClo (Promises.OnError c))) (Rt P np J A T nt Sr ns I U) = _)
        by (mrun ps_unf ps_prim).
      rewrite (bind_step _ _ _ _ _ E). clear E.
      match goal with |- context [Rt ?P1 (S np) J A T nt Sr ns I U] =>
        destruct (IH P1 (S np) J Hnd) as (P' & E & Hin & Hnew & Hfr) end.
      { rewrite Forall_forall in Hall |- *.
        intros q Hq. destruct (Hall q Hq) as [Hq1 Hq2]. split; [lia|].
        rewrite lookup_insert_ne by (intros ->; contradiction).
        rewrite lookup_insert_ne by lia. exact Hq2. }
      rewrite (bind_step _ _ _ _ _ E). cbv beta delta [ret].
      exists P'. replace (np + S (length ps)) with (S np + length ps) by lia.
      split; [reflexivity|].
      assert (Hps : forall q, q ∈ ps -> q < np).
      { intros q Hq. rewrite Forall_forall in Hall. apply Hall. exact Hq. }
      split; [|split].
      + intros [|i] q Hq; cbn in Hq.
        * injection Hq as <-. rewrite Hfr by (auto; lia).
          rewrite Nat.add_0_r. unfold on_input. apply lookup_insert_eq.
        * replace (np + S i) with (S np + i) by lia. apply Hin. exact Hq.
      + intros [|i] Hi.
        * rewrite Nat.add_0_r. rewrite Hfr.
          -- rewrite lookup_insert_ne by lia. apply lookup_insert_eq.
          -- intros Hq. apply Hps in Hq. lia.
          -- left. lia.
        * replace (np + S i) with (S np + i) by lia. apply Hnew. cbn in Hi. lia.
      + intros x Hx Hr. rewrite Hfr.
        * rewrite lookup_insert_ne by (intros ->; apply Hx; left).
          apply lookup_insert_ne. lia.
        * intros Hq. apply Hx. right. exact Hq.
        * cbn [length] in Hr. lia.
Qed.

  (** The loop of [Promise.all] over the mapped promises, all pending. *)
Lemma all_loop_spec a n : forall i0 d0 P np J,
    d0 + n <= np ->
    (forall j, j < n -> P !! (d0 + j) = Some (Pending false [])) ->
    exists P',
      all_loop a i0 (VPromise <$> seq d0 n) (Rt P np J A T nt Sr ns I U) =
        (tt, Rt P' (np + n) J A T nt Sr ns I U) /\
      (forall j, j < n ->
         P' !! (d0 + j) = Some (Pending false [on_mapped a (i0 + j) (np + j)])) /\
      (forall j, j < n -> P' !! (np + j) = Some (Pending false [])) /\
      (forall x, x < d0 \/ (d0 + n <= x /\ x < np) \/ np + n <= x -> P' !! x = P !! x).
Proof.
    induction n as [|n IH]; intros i0 d0 P np J Hle Hpend.
    - exists P. cbn. rewrite Nat.add_0_r. split; [reflexivity|].
      split; [intros; lia|]. split; [intros; lia|]. reflexivity.
    - cbn [seq fmap list_fmap all_loop].
      assert (Hd0 : P !! d0 = Some (Pending false [])).
      { rewrite <- (Nat.add_0_r d0). apply Hpend. lia. }
      eassert (E : promise_resolve (VPromise d0) (Rt P np J A T nt Sr ns I U) = _)
        by (mrun ps_unf ps_prim).
      rewrite (bind_step _ _ _ _ _ E). clear E.
      eassert (E : then_ d0 (Some (FAllElement a i0)) (Some (FReject a))
                     (Rt P np J A T nt Sr ns I U) = _)
        by (mrun ps_unf ps_prim).
      rewrite (bind_step _ _ _ _ _ E). clear E.
      match goal with |- context [Rt ?P1 (S np) J A T nt Sr ns I U] =>
        destruct (IH (S i0) (S d0) P1 (S np) J) as (P' & E & Hin & Hnew & Hfr) end.
      { lia. }
      { intros j Hj. rewrite !lookup_insert_ne by lia.
        replace (S d0 + j) with (d0 + S j) by lia. apply Hpend. lia. }
      rewrite E. exists P'.
      replace (np + S n) with (S np + n) by lia. split; [reflexivity|].
      split; [|split].
      + intros [|j] Hj.
        * rewrite !Nat.add_0_r. rewrite Hfr by lia. unfold on_mapped.
          apply lookup_insert_eq.
        * replace (d0 + S j) with (S d0 + j) by lia.
          replace (i0 + S j) with (S i0 + j) by lia.
          replace (np + S j) with (S np + j) by lia. apply Hin. lia.
      + intros [|j] Hj.
        * rewrite Nat.add_0_r. rewrite Hfr by lia.
          rewrite lookup_insert_ne by lia. apply lookup_insert_eq.
        * replace (np + S j) with (S np + j) by lia. apply Hnew. lia.
      + intros x Hx. rewrite Hfr by lia. rewrite !lookup_insert_ne by lia. reflexivity.
Qed.
End Loops.

(** *** The state while inputs are outstanding *)

(** [settled_inv ps r c done s]: the call of [settled(ps)] that returned
    [r], with [firstError] in cell [c], waits; the inputs of [done] have
    settled, in that order, and the others are pending. *)
Definition settled_inv (ps : list nat) (r c : nat) (done : list (nat * outcome))
    (s : Promises.state) : Prop :=
  let n := length ps in
  let a := S r + n in
  jobs s = [] /\ length done < n /\
  promises s !! r = Some (Pending false []) /\
  promises s !! a =
    Some (Pending false [Reaction (Some (FClo (Promises.Resume c r)))
                                  (Some (FClo (Promises.ResumeThrow r))) None]) /\
  alls s !! a = Some (AllState (slots_after n done) (n - length done)) /\
  Promises.cells (user s) !! c = Some (firstError_after done) /\
  forall i p, ps !! i = Some p -> i ∉ done.*1 ->
    promises s !! p = Some (Pending false [on_input c (S r + i)]) /\
    promises s !! (S r + i) = Some (Pending false [on_mapped a i (S a + i)]) /\
    promises s !! (S a + i) = Some (Pending false []).

Definition inputs_ok (ps : list nat) (s : Promises.state) : Prop :=
  jobs s = [] /\ NoDup ps /\
  Forall (fun p => p < next_promise s /\ promises s !! p = Some (Pending false [])) ps.

Lemma match_mapped_nonempty {B} d n (X Y : B) :
  0 < n -> match VPromise <$> seq d n with [] => X | _ :: _ => Y end = Y.
Proof. destruct n; [lia|reflexivity]. Qed.

Lemma settled_start p0 ps' (s : Promises.state) :
  let ps := p0 :: ps' in
  inputs_ok ps s ->
  exists s0,
    Promises.settled ps s = (next_promise s, s0) /\
    settled_inv ps (next_promise s) (Promises.next_cell (user s)) [] s0.
Proof.
  intros ps (Hj & Hnd & Hall).
  destruct s as [P np J A T nt Sr ns I [C nc]]. cbn in Hj, Hall. subst J.
  cbn [next_promise user Promises.next_cell].
  unfold Promises.settled.
  step_run ps_unf ps_prim. step_run ps_unf ps_prim.
  match goal with |- context [Rt ?P1 (S np) [] A T nt Sr ns I ?U1] =>
    destruct (map_then_spec A T nt Sr ns I U1 nc ps P1 (S np) [] Hnd)
      as (P2 & E & Hin & Hnew & Hfr) end.
  { rewrite Forall_forall in Hall |- *. intros q Hq.
    destruct (Hall q Hq) as [Hq1 Hq2]. split; [lia|].
    rewrite lookup_insert_ne by lia. exact Hq2. }
  rewrite (bind_step _ _ _ _ _ E). clear E.
  assert (Hn : 0 < length ps) by (cbn; lia).
  assert (Hlt : forall q, q ∈ ps -> q < np).
  { intros q Hq. rewrite Forall_forall in Hall. apply Hall. exact Hq. }
  unfold promise_all.
  step_run ps_unf ps_prim. rewrite !length_fmap, !length_seq.
  step_run ps_unf ps_prim.
  match goal with |- context [Rt ?P3 (S ?a) [] ?A3 T nt Sr ns I ?U1] =>
    destruct (all_loop_spec A3 T nt Sr ns I U1 a (length ps) 0 (S np) P3 (S a) [])
      as (P4 & E & Hin4 & Hnew4 & Hfr4) end.
  { lia. }
  { intros j Hj. rewrite lookup_insert_ne by lia. apply Hnew. exact Hj. }
  rewrite ?bind_bind. rewrite (bind_step _ _ _ _ _ E). clear E.
  rewrite (match_mapped_nonempty _ _ _ _ Hn).
  assert (Ha4 : P4 !! (S np + length ps) = Some (Pending false [])).
  { rewrite Hfr4 by lia. apply lookup_insert_eq. }
  eexists. split; [mrun ps_unf ps_prim|].
  unfold settled_inv. look ps_prim.
  split; [reflexivity|]. split; [exact Hn|].
  split.
  { rewrite Hfr4 by lia. rewrite lookup_insert_ne by lia.
    rewrite Hfr; [apply lookup_insert_eq| |lia].
    intros Hq. apply Hlt in Hq. lia. }
  split; [reflexivity|].
  split; [unfold slots_after; cbn [foldl]; rewrite Nat.sub_0_r; reflexivity|].
  split; [reflexivity|].
  intros i p Hp _.
  assert (Hi : i < length ps) by (eapply lookup_lt_Some; exact Hp).
  assert (Hpn : p < np) by (apply Hlt; eapply list_elem_of_lookup_2; exact Hp).
  split; [|split].
  - rewrite lookup_insert_ne by lia. rewrite Hfr4 by lia.
    rewrite lookup_insert_ne by lia. apply Hin. exact Hp.
  - rewrite lookup_insert_ne by lia. rewrite (Hin4 i Hi). reflexivity.
  - rewrite lookup_insert_ne by lia. apply (Hnew4 i Hi).
Qed.

Lemma firstError_after_snoc done i o :
  firstError_after (done ++ [(i, o)]) = record_error (firstError_after done) o.
Proof. unfold firstError_after. rewrite foldl_app. reflexivity. Qed.

Lemma slots_after_snoc n done i o :
  slots_after n (done ++ [(i, o)]) = <[i := slot_of o]> (slots_after n done).
Proof. unfold slots_after. rewrite foldl_app. reflexivity. Qed.

(** The invariant holds again after an input that is not the last one
    settled: the facts of the other inputs are untouched. *)
Ltac settled_inv_again Hrest Hr Ha HC Hnd Hlt Hp i p r done :=
  unfold settled_inv; cbn [jobs promises alls user Promises.cells];
  rewrite length_app, firstError_after_snoc, slots_after_snoc;
  cbn [length record_error slot_of];
  split; [reflexivity|]; split; [lia|];
  split; [rewrite !lookup_insert_ne by lia; exact Hr|];
  split; [rewrite !lookup_insert_ne by lia; exact Ha|];
  split; [rewrite lookup_insert_eq; do 2 f_equal; lia|];
  try match goal with H : truthy _ = _ |- _ => rewrite H end;
  split; [first [exact HC | rewrite lookup_insert_eq; reflexivity]|];
  let j := fresh "j" in let q := fresh "q" in
  let Hq := fresh "Hq" in let Hj := fresh "Hj" in
  intros j q Hq Hj;
  rewrite fmap_app, elem_of_app in Hj; cbn in Hj; rewrite list_elem_of_singleton in Hj;
  assert (j <> i) by (intros ->; apply Hj; right; reflexivity);
  assert (q <> p) by (intros ->; pose proof (NoDup_lookup _ _ _ _ Hnd Hq Hp); congruence);
  assert (q < r) by (apply Hlt; eapply list_elem_of_lookup_2; exact Hq);
  assert (j ∉ done.*1) by (intros ?; apply Hj; left; assumption);
  pose proof (lookup_lt_Some _ _ _ Hq);
  destruct (Hrest j q Hq) as (? & ? & ?); [assumption|];
  rewrite !lookup_insert_ne by lia; repeat split; assumption.

Lemma settled_step ps r c done (s : Promises.state) i p o :
  NoDup ps -> (forall q, q ∈ ps -> q < r) ->
  settled_inv ps r c done s ->
  ps !! i = Some p -> i ∉ done.*1 ->
  match o with Fulfil v => is_promise v = false | Fail _ => True end ->
  S (length done) < length ps ->
  exists s',
    drain Promises.call 3 (exec (settle p o) s) = Some s' /\
    settled_inv ps r c (done ++ [(i, o)]) s'.
Proof.
  intros Hnd Hlt Hinv Hp Hi Ho Hmore.
  destruct s as [P np J A T nt Sr ns I [C nc]].
  destruct Hinv as (Hj & Hk & Hr & Ha & HA & HC & Hrest).
  cbn [jobs promises alls user Promises.cells] in Hj, Hr, Ha, HA, HC, Hrest. subst J.
  destruct (Hrest i p Hp Hi) as (Hpi & Hdi & Hei).
  assert (Hpr : p < r) by (apply Hlt; eapply list_elem_of_lookup_2; exact Hp).
  assert (Hin : i < length ps) by (eapply lookup_lt_Some; exact Hp).
  unfold on_input, on_mapped in Hpi, Hdi.
  destruct o as [v|e].
  - apply is_promise_false in Ho.
    eexists. split; [run ps_unf ps_prim|].
    settled_inv_again Hrest Hr Ha HC Hnd Hlt Hp i p r done.
  - destruct (truthy (firstError_after done)) eqn:Ht.
    + assert (Ht' : negb (truthy (firstError_after done)) = false) by (rewrite Ht; reflexivity).
      eexists. split; [run ps_unf ps_prim|].
      settled_inv_again Hrest Hr Ha HC Hnd Hlt Hp i p r done.
    + assert (Ht' : negb (truthy (firstError_after done)) = true) by (rewrite Ht; reflexivity).
      eexists. split; [run ps_unf ps_prim|].
      settled_inv_again Hrest Hr Ha HC Hnd Hlt Hp i p r done.
Qed.

Ltac settled_done :=
  rewrite firstError_after_snoc, slots_after_snoc;
  cbn [record_error slot_of];
  repeat match goal with H : truthy _ = _ |- _ => rewrite H; clear H end;
  repeat match goal with H : is_undefined _ = _ |- _ => rewrite H; clear H end;
  split; [reflexivity|]; look ps_prim; reflexivity.

(** The last input settles: the aggregate is resolved, the function
    resumes after the await and settles the promise it returned. *)
Lemma settled_last ps r c done (s : Promises.state) i p o :
  NoDup ps -> (forall q, q ∈ ps -> q < r) ->
  settled_inv ps r c done s ->
  ps !! i = Some p -> i ∉ done.*1 ->
  match o with Fulfil v => is_promise v = false | Fail _ => True end ->
  S (length done) = length ps ->
  exists s',
    drain Promises.call 3 (exec (settle p o) s) = Some s' /\
    jobs s' = [] /\
    promise_state r s' =
      Some (if is_undefined (firstError_after (done ++ [(i, o)]))
            then Fulfilled (VArr (slots_after (length ps) (done ++ [(i, o)])))
            else Rejected (firstError_after (done ++ [(i, o)]))).
Proof.
  intros Hnd Hlt Hinv Hp Hi Ho Hmore.
  destruct s as [P np J A T nt Sr ns I [C nc]].
  destruct Hinv as (Hj & Hk & Hr & Ha & HA & HC & Hrest).
  cbn [jobs promises alls user Promises.cells] in Hj, Hr, Ha, HA, HC, Hrest. subst J.
  destruct (Hrest i p Hp Hi) as (Hpi & Hdi & Hei).
  assert (Hpr : p < r) by (apply Hlt; eapply list_elem_of_lookup_2; exact Hp).
  assert (Hin : i < length ps) by (eapply lookup_lt_Some; exact Hp).
  unfold on_input, on_mapped in Hpi, Hdi.
  destruct o as [v|e].
  - apply is_promise_false in Ho.
    destruct (is_undefined (firstError_after done)) eqn:Hu;
      (eexists; split; [run ps_unf ps_prim|]); settled_done.
  - destruct (truthy (firstError_after done)) eqn:Ht.
    + assert (Ht' : negb (truthy (firstError_after done)) = false) by (rewrite Ht; reflexivity).
      destruct (is_undefined (firstError_after done)) eqn:Hu;
        (eexists; split; [run ps_unf ps_prim|]); settled_done.
    + assert (Ht' : negb (truthy (firstError_after done)) = true) by (rewrite Ht; reflexivity).
      destruct (is_undefined e) eqn:Hu;
        (eexists; split; [run ps_unf ps_prim|]); settled_done.
Qed.

Definition outcome_ok (o : outcome) : Prop :=
  match o with
  | Fulfil v => is_promise v = false
  | Fail _ => True
  end.

(** Each event settles an input of the list, and no input settles twice. *)
Definition schedule_ok (ps : list nat) (ev : list (nat * outcome)) : Prop :=
  NoDup ev.*1 /\ Forall (fun io => io.1 < length ps /\ outcome_ok io.2) ev.

(** The state of the returned promise when the inputs of [ev] have settled,
    in that order. *)
Definition settled_result (ps : list nat) (ev : list (nat * outcome))
  : pstate Promises.clo :=
  if decide (length ev < length ps) then Pending false []
  else if is_undefined (firstError_after ev)
       then Fulfilled (VArr (slots_after (length ps) ev))
       else Rejected (firstError_after ev).

Lemma schedule_length ps ev : schedule_ok ps ev -> length ev <= length ps.
Proof.
  intros [Hnd Hall].
  rewrite <- (length_fmap fst ev), <- (length_seq (length ps) 0).
  apply submseteq_length, NoDup_submseteq; [exact Hnd|].
  intros i Hi. apply elem_of_seq. split; [lia|]. cbn.
  apply list_elem_of_fmap in Hi. destruct Hi as (io & -> & Hio).
  rewrite Forall_forall in Hall. apply Hall. exact Hio.
Qed.

Lemma settle_inputs_spec ps r c :
  NoDup ps -> (forall q, q ∈ ps -> q < r) ->
  forall ev done (s : Promises.state),
    settled_inv ps r c done s ->
    NoDup (done ++ ev).*1 ->
    Forall (fun io => io.1 < length ps /\ outcome_ok io.2) ev ->
    length (done ++ ev) <= length ps ->
    exists s',
      settle_inputs 3 ps ev s = Some s' /\ jobs s' = [] /\
      promise_state r s' = Some (settled_result ps (done ++ ev)).
Proof.
  intros Hnd Hlt. induction ev as [|[i o] ev IH]; intros done s Hinv Hnd' Hall Hlen.
  - exists s. rewrite app_nil_r. destruct Hinv as (Hj & Hk & Hr & _).
    split; [reflexivity|]. split; [exact Hj|].
    unfold settled_result. rewrite decide_True by exact Hk. exact Hr.
  - apply Forall_cons in Hall. destruct Hall as [[Hi Ho] Hall]. cbn [fst snd] in Hi, Ho.
    destruct (lookup_lt_is_Some_2 ps i Hi) as [p Hp].
    assert (Hni : i ∉ done.*1).
    { rewrite fmap_app in Hnd'. apply NoDup_app in Hnd'.
      destruct Hnd' as (_ & Hdis & _). intros Hin. apply (Hdis i Hin).
      cbn. left. }
    rewrite length_app in Hlen. cbn [length] in Hlen.
    cbn [settle_inputs]. rewrite Hp.
    destruct (decide (S (length done) < length ps)) as [Hmore|Hmore].
    + destruct (settled_step ps r c done s i p o Hnd Hlt Hinv Hp Hni Ho Hmore)
        as (s1 & E1 & Hinv1).
      rewrite E1.
      replace (done ++ (i, o) :: ev) with ((done ++ [(i, o)]) ++ ev) in *
        by (rewrite <- app_assoc; reflexivity).
      apply (IH _ _ Hinv1 Hnd' Hall).
      rewrite !length_app. cbn [length]. lia.
    + assert (ev = []) by (destruct ev; [reflexivity|cbn [length] in Hlen; lia]).
      subst ev.
      destruct (settled_last ps r c done s i p o Hnd Hlt Hinv Hp Hni Ho ltac:(lia))
        as (s1 & E1 & Hj1 & Hr1).
      rewrite E1. exists s1. split; [reflexivity|]. split; [exact Hj1|].
      unfold settled_result. rewrite decide_False; [exact Hr1|].
      rewrite length_app. cbn [length]. lia.
Qed.

(** [settled] on inputs that are pending when it is called, which settle
    afterwards in the order of [ev]. *)
Lemma settled_spec ps ev (s : Promises.state) :
  inputs_ok ps s -> schedule_ok ps ev ->
  run_settled ps ev s = Some (settled_result ps ev).
Proof.
  intros Hin Hev. pose proof (schedule_length ps ev Hev) as Hlen.
  unfold run_settled. destruct ps as [|p0 ps'].
  - destruct ev; [|cbn in Hlen; lia].
    destruct s as [P np J A T nt Sr ns I [C nc]].
    destruct Hin as (Hj & _). cbn in Hj. subst J.
    match goal with |- context [Promises.settled ?l ?s] =>
      eval_term ps_unf ps_prim (Promises.settled l s) end.
    match goal with |- context [drain ?c ?f ?s] =>
      eval_term ps_unf ps_prim (drain c f s) end.
    cbn [settle_inputs]. look ps_prim. reflexivity.
  - destruct (settled_start p0 ps' s Hin) as (s0 & E0 & Hinv).
    rewrite E0.
    assert (Hj0 : jobs s0 = []) by (destruct Hinv as (H & _); exact H).
    rewrite (drain_nil _ _ _ Hj0).
    destruct Hin as (_ & Hnd & Hall). destruct Hev as [Hnd' Hall'].
    destruct (settle_inputs_spec (p0 :: ps') (next_promise s)
                (Promises.next_cell (user s)) Hnd) with (ev := ev) (done := @nil (nat * outcome)) (s := s0)
      as (s2 & E2 & _ & Hr); try assumption.
    + intros q Hq. rewrite Forall_forall in Hall. apply Hall. exact Hq.
    + rewrite E2. exact Hr.
Qed.

(** *** The error and the values, read off the events *)

(** The reason of the rejection that happened first. *)
Fixpoint first_rejection (ev : list (nat * outcome)) : option val :=
  match ev with
  | [] => None
  | (_, Fail e) :: _ => Some e
  | (_, Fulfil _) :: ev' => first_rejection ev'
  end.

(** The outcome of input [i]. *)
Fixpoint outcome_of (ev : list (nat * outcome)) (i : nat) : option outcome :=
  match ev with
  | [] => None
  | (j, o) :: ev' => if decide (j = i) then Some o else outcome_of ev' i
  end.

(** The values of the inputs, in the order of the inputs; [undefined] for
    an input that rejected. *)
Definition values_in_input_order (n : nat) (ev : list (nat * outcome)) : list val :=
  (fun i => from_option slot_of VUndefined (outcome_of ev i)) <$> seq 0 n.

(** The claim of the documentation: the error of the first input, in the
    order of the inputs, that rejected. *)
Definition first_error_in_input_order (n : nat) (ev : list (nat * outcome)) : option val :=
  head (omap (fun i => match outcome_of ev i with
                       | Some (Fail e) => Some e
                       | _ => None
                       end) (seq 0 n)).

Definition reasons_truthy (ev : list (nat * outcome)) : Prop :=
  Forall (fun io => match io.2 with Fail e => truthy e = true | Fulfil _ => True end) ev.

Definition reasons_undefined (ev : list (nat * outcome)) : Prop :=
  Forall (fun io => match io.2 with Fail e => e = VUndefined | Fulfil _ => True end) ev.

Lemma foldl_record_truthy fe ev :
  truthy fe = true ->
  foldl (fun fe (io : nat * outcome) => record_error fe io.2) fe ev = fe.
Proof.
  intros Hfe. induction ev as [|[i [v|e]] ev IH]; cbn [foldl record_error snd];
    [reflexivity|exact IH|]. rewrite Hfe. exact IH.
Qed.

Lemma firstError_after_truthy ev :
  reasons_truthy ev -> firstError_after ev = default VUndefined (first_rejection ev).
Proof.
  unfold firstError_after. induction ev as [|[i [v|e]] ev IH]; intros Hall.
  - reflexivity.
  - apply Forall_cons in Hall. destruct Hall as [_ Hall]. cbn. apply IH, Hall.
  - apply Forall_cons in Hall. destruct Hall as [He _]. cbn in He |- *.
    apply foldl_record_truthy, He.
Qed.

Lemma first_rejection_truthy ev e :
  reasons_truthy ev -> first_rejection ev = Some e -> truthy e = true.
Proof.
  induction ev as [|[i [v|e']] ev IH]; intros Hall Hf; cbn in Hf.
  - discriminate.
  - apply Forall_cons in Hall. apply IH; [apply Hall|exact Hf].
  - apply Forall_cons in Hall. destruct Hall as [He _]. cbn in He. congruence.
Qed.

Lemma truthy_not_undefined e : truthy e = true -> is_undefined e = false.
Proof. destruct e; cbn; congruence. Qed.

Lemma firstError_after_undefined ev :
  reasons_undefined ev -> firstError_after ev = VUndefined.
Proof.
  unfold firstError_after. induction ev as [|[i [v|e]] ev IH]; intros Hall.
  - reflexivity.
  - apply Forall_cons in Hall. destruct Hall as [_ Hall]. cbn. apply IH, Hall.
  - apply Forall_cons in Hall. destruct Hall as [He Hall]. cbn in He. subst e.
    cbn. apply IH, Hall.
Qed.

Lemma length_slots_after n ev : length (slots_after n ev) = n.
Proof.
  unfold slots_after. induction ev as [|io ev IH] using rev_ind.
  - apply length_replicate.
  - rewrite foldl_app. cbn. rewrite length_insert. exact IH.
Qed.

Lemma outcome_of_None ev i : i ∉ ev.*1 -> outcome_of ev i = None.
Proof.
  induction ev as [|[j o] ev IH]; intros Hi; [reflexivity|]. cbn in Hi |- *.
  rewrite not_elem_of_cons in Hi. destruct Hi as [Hij Hi].
  rewrite decide_False by congruence. apply IH, Hi.
Qed.

Lemma outcome_of_snoc ev j o i :
  j ∉ ev.*1 ->
  outcome_of (ev ++ [(j, o)]) i = if decide (j = i) then Some o else outcome_of ev i.
Proof.
  induction ev as [|[k o'] ev IH]; intros Hj; cbn [app outcome_of]; [reflexivity|].
  cbn in Hj. rewrite not_elem_of_cons in Hj. destruct Hj as [Hjk Hj].
  rewrite (IH Hj). destruct (decide (k = i)), (decide (j = i)); try reflexivity.
  congruence.
Qed.

Lemma slots_after_lookup n ev i :
  NoDup ev.*1 -> i < n ->
  slots_after n ev !! i = Some (from_option slot_of VUndefined (outcome_of ev i)).
Proof.
  intros Hnd Hi. induction ev as [|[j o] ev IH] using rev_ind.
  - unfold slots_after. cbn. apply lookup_replicate_2. exact Hi.
  - rewrite fmap_app in Hnd. apply NoDup_app in Hnd. destruct Hnd as (Hnd & Hdis & _).
    assert (Hj : j ∉ ev.*1).
    { intros Hin. apply (Hdis j Hin). cbn. left. }
    rewrite slots_after_snoc, (outcome_of_snoc _ _ _ _ Hj).
    destruct (decide (j = i)) as [->|Hne].
    + rewrite list_lookup_insert_eq by (rewrite length_slots_after; exact Hi). reflexivity.
    + rewrite list_lookup_insert_ne by exact Hne. apply IH, Hnd.
Qed.

Lemma slots_after_values n ev :
  NoDup ev.*1 -> slots_after n ev = values_in_input_order n ev.
Proof.
  intros Hnd. apply list_eq. intros i. unfold values_in_input_order.
  rewrite list_lookup_fmap. destruct (decide (i < n)) as [Hi|Hi].
  - rewrite (slots_after_lookup n ev i Hnd Hi), lookup_seq_lt by exact Hi. reflexivity.
  - rewrite lookup_seq_ge by lia. cbn. apply lookup_ge_None_2.
    rewrite length_slots_after. lia.
Qed.

(** C3, as it is stated, fails: of two inputs that both reject, the second
    in the order of the inputs rejects first; the promise of [settled] is
    rejected with its error, not with the error of the first input. *)
Lemma settled_rejects_with_the_later_input :
  first_error_in_input_order 2
    [(1, Fail (VError "E2")); (0, Fail (VError "E1"))] = Some (VError "E1") /\
  run_settled [0; 1] [(1, Fail (VError "E2")); (0, Fail (VError "E1"))]
    (pending_inputs 2) = Some (Rejected (VError "E2")) /\
  run_settled [0; 1] [(1, Fail (VError "E2")); (0, Fail (VError "E1"))]
    (pending_inputs 2) <> Some (Rejected (VError "E1")).
Proof.
  split; [reflexivity|].
  assert (E : run_settled [0; 1] [(1, Fail (VError "E2")); (0, Fail (VError "E1"))]
                (pending_inputs 2) = Some (Rejected (VError "E2")))
    by (vm_compute; reflexivity).
  split; [exact E|]. rewrite E. discriminate.
Qed.

(** C3, amended.  The inputs are pending when [settled] is called and
    settle afterwards, in any order; the reasons of the rejections are
    truthy, as errors are.  While an input is outstanding the returned
    promise is pending.  When all have settled it is rejected with the
    reason of the rejection that happened first, if an input rejected, and
    otherwise fulfilled with the values in the order of the inputs. *)
Theorem settled_rejects_with_the_first_rejection_to_happen (ps : list nat)
    (ev : list (nat * outcome)) (s : Promises.state) :
  inputs_ok ps s -> schedule_ok ps ev -> reasons_truthy ev ->
  run_settled ps ev s =
    Some (if decide (length ev < length ps) then Pending false []
          else match first_rejection ev with
               | Some e => Rejected e
               | None => Fulfilled (VArr (values_in_input_order (length ps) ev))
               end).
Proof.
  intros Hin Hev Htr. rewrite (settled_spec ps ev s Hin Hev).
  unfold settled_result. destruct (decide (length ev < length ps)); [reflexivity|].
  rewrite (firstError_after_truthy ev Htr).
  destruct (first_rejection ev) as [e|] eqn:Hf; cbn [default from_option id].
  - rewrite (truthy_not_undefined e (first_rejection_truthy ev e Htr Hf)). reflexivity.
  - cbn. rewrite slots_after_values by apply Hev. reflexivity.
Qed.

Lemma settled_rejects_with_the_first_rejection_to_happen_witness :
  run_settled [0; 1; 2]
    [(2, Fulfil (VNum 3)); (1, Fail (VError "E2")); (0, Fail (VError "E1"))]
    (pending_inputs 3) = Some (Rejected (VError "E2")).
Proof.
  apply (settled_rejects_with_the_first_rejection_to_happen [0; 1; 2]
           [(2, Fulfil (VNum 3)); (1, Fail (VError "E2")); (0, Fail (VError "E1"))]
           (pending_inputs 3)).
  - split; [reflexivity|].
    split; [apply (bool_decide_unpack _); vm_compute; exact Logic.I|].
    repeat constructor; cbn; lia.
  - split; [apply (bool_decide_unpack _); vm_compute; exact Logic.I|].
    repeat constructor; cbn; lia.
  - repeat constructor.
Defined.

(** The example of the documentation, with inputs that have settled
    before the call: the handlers run in the order of the inputs, and the
    error is the one of the first input that rejected. *)
Example settled_of_settled_inputs :
  let s := exec (settle 2 (Fail (VError "E2")))
             (exec (settle 1 (Fail (VError "E1")))
                (exec (settle 0 (Fulfil (VNum 1))) (pending_inputs 3))) in
  let (r, s0) := Promises.settled [0; 1; 2] s in
  (fun s1 => promise_state r s1) <$> drain Promises.call 9 s0 =
    Some (Some (Rejected (VError "E1"))).
Proof. vm_compute. reflexivity. Qed.









(** *** The retry of [_create] *)


(** A document with one provider, whose set of providers changes twice
    while a run of [_create] is outstanding; the caller's token 0 is never
    cancelled. *)
Definition retry_model : Outline.textModel := Outline.TextModel "m" 3 "uri".





(** ** Delayer *)

Ltac dl_unf :=
  cbv beta iota zeta delta
    [Delayer.trigger Delayer.cancelTimeout Delayer.cancel Delayer.dispose
     Delayer.set_timeout_ Delayer.set_completionPromise Delayer.set_doResolve
     Delayer.set_doReject Delayer.set_task
     Delayer.defaultDelay Delayer.timeout Delayer.completionPromise
     Delayer.doResolve Delayer.doReject Delayer.task];
  cbn [Delayer.call].

(** The calls of [trigger] of a sequence, one after the other, with no
    timer firing in between; the promises that they return. *)
Fixpoint triggers (ts : list (nat * option Z)) : M Delayer.clo Delayer.t (list nat) :=
  match ts with
  | [] => ret []
  | (task, delay) :: ts' =>
      let* c := Delayer.trigger task delay in
      let* cs := triggers ts' in
      ret (c :: cs)
  end.

(** The delayer between two tasks of the event loop: no microtask is left;
    if a completion promise is set, it is pending and is the promise
    derived from the pending promise whose [resolve] the delayer holds. *)
Definition delayer_ok (s : Delayer.state) : Prop :=
  jobs s = [] /\
  match Delayer.timeout (user s) with
  | Some h => h < next_timer s
  | None => True
  end /\
  match Delayer.completionPromise (user s) with
  | None => True
  | Some c =>
      exists p rs,
        Delayer.doResolve (user s) = Some p /\ p < c /\ c < next_promise s /\
        promises s !! p =
          Some (Pending false [Reaction (Some (FClo Delayer.OnElapsed)) None (Some c)]) /\
        promises s !! c = Some (Pending false rs)
  end.

Definition disarm (h : option nat) (T : gmap nat (fn Delayer.clo * Z))
  : gmap nat (fn Delayer.clo * Z) :=
  match h with
  | Some h => delete h T
  | None => T
  end.

Lemma trigger_spec (s : Delayer.state) task delay :
  delayer_ok s ->
  exists c s',
    Delayer.trigger task delay s = (c, s') /\
    delayer_ok s' /\
    Delayer.completionPromise (user s') = Some c /\
    (forall c0, Delayer.completionPromise (user s) = Some c0 -> c = c0) /\
    Delayer.timeout (user s') = Some (next_timer s) /\
    next_timer s' = S (next_timer s) /\
    timers s' =
      <[next_timer s := (FClo Delayer.OnTimeout,
                         default (Delayer.defaultDelay (user s)) delay)]>
        (disarm (Delayer.timeout (user s)) (timers s)) /\
    Delayer.task (user s') = Some task /\
    invocations s' = invocations s /\
    Delayer.defaultDelay (user s') = Delayer.defaultDelay (user s).
Proof.
  destruct s as [P np J A T nt Sr ns I [dd to cp dr dj tk]].
  intros (Hj & Hto & Hcp). cbn in Hj, Hto, Hcp. subst J.
  destruct cp as [c|].
  - destruct Hcp as (p & rs & -> & Hpc & Hc & Hp & Hcl).
    destruct to as [h|]; eexists _, _; (split; [run dl_unf dl_unf|]);
      unfold delayer_ok; look dl_unf;
      repeat split; try reflexivity; try lia; try congruence;
      exists p, rs; repeat split; try assumption; reflexivity.
  - destruct to as [h|]; eexists _, _; (split; [run dl_unf dl_unf|]);
      unfold delayer_ok; look dl_unf;
      repeat split; try reflexivity; try lia; try congruence;
      eexists _, _; (split; [reflexivity|]);
      (split; [|split; [|split; look dl_unf; reflexivity]]); lia.
Qed.

Lemma triggers_spec ts : forall (s : Delayer.state) task delay,
  delayer_ok s ->
  exists c s1,
    triggers (ts ++ [(task, delay)]) s = (replicate (S (length ts)) c, s1) /\
    delayer_ok s1 /\
    Delayer.completionPromise (user s1) = Some c /\
    (forall c0, Delayer.completionPromise (user s) = Some c0 -> c = c0) /\
    Delayer.timeout (user s1) = Some (next_timer s + length ts) /\
    next_timer s1 = S (next_timer s + length ts) /\
    timers s1 !! (next_timer s + length ts) =
      Some (FClo Delayer.OnTimeout, default (Delayer.defaultDelay (user s)) delay) /\
    (forall k, k < length ts -> timers s1 !! (next_timer s + k) = None) /\
    (forall h, h < next_timer s ->
       timers s1 !! h = disarm (Delayer.timeout (user s)) (timers s) !! h) /\
    Delayer.task (user s1) = Some task /\
    invocations s1 = invocations s.
Proof.
  induction ts as [|[f0 d0] ts IH]; intros s task delay Hok.
  - destruct (trigger_spec s task delay Hok)
      as (c & s' & E & Hok' & Hc & Hsame & Hto & Hnt & HT & Htk & HI & _).
    exists c, s'. cbn [app triggers length replicate].
    split; [unfold bind; rewrite E; reflexivity|].
    rewrite Nat.add_0_r.
    split; [exact Hok'|]. split; [exact Hc|]. split; [exact Hsame|].
    split; [exact Hto|]. split; [exact Hnt|].
    split; [rewrite HT; apply lookup_insert_eq|].
    split; [intros k Hk; cbn in Hk; lia|].
    split; [|split; [exact Htk|exact HI]].
    intros h Hh. rewrite HT. apply lookup_insert_ne. lia.
  - destruct (trigger_spec s f0 d0 Hok)
      as (c & s' & E & Hok' & Hc & Hsame & Hto & Hnt & HT & Htk & HI & Hdd).
    destruct (IH s' task delay Hok')
      as (c1 & s1 & E1 & Hok1 & Hc1 & Hsame1 & Hto1 & Hnt1 & HT1 & Hnone & Hold & Htk1 & HI1).
    assert (c1 = c) by (apply Hsame1; exact Hc). subst c1.
    exists c, s1. cbn [app triggers length replicate].
    split; [unfold bind; rewrite E, E1; reflexivity|].
    rewrite Hnt in *. rewrite Hdd in *. rewrite Hto in Hold. cbn [disarm] in Hold.
    replace (next_timer s + S (length ts)) with (S (next_timer s) + length ts) by lia.
    split; [exact Hok1|]. split; [exact Hc1|]. split; [exact Hsame|].
    split; [exact Hto1|]. split; [exact Hnt1|]. split; [exact HT1|].
    split; [|split; [|split; [exact Htk1|congruence]]].
    + intros k Hk. destruct k as [|k].
      * rewrite Nat.add_0_r, Hold by lia. apply lookup_delete_eq.
      * replace (next_timer s + S k) with (S (next_timer s) + k) by lia.
        apply Hnone. cbn in Hk. lia.
    + intros h Hh. rewrite Hold by lia. rewrite lookup_delete_ne by lia.
      rewrite HT. apply lookup_insert_ne. lia.
Qed.

(** The timer of a triggered delayer fires: the task recorded last is
    invoked, once, and the completion promise follows its promise. *)
Lemma fire_spec (s : Delayer.state) h c task dl :
  delayer_ok s ->
  Delayer.completionPromise (user s) = Some c ->
  Delayer.task (user s) = Some task ->
  timers s !! h = Some (FClo Delayer.OnTimeout, dl) ->
  exists s2,
    drain Delayer.call 2 (exec (fire_timer Delayer.call h) s) = Some s2 /\
    invocations s2 = invocations s ++ [(task, next_promise s)] /\
    timers s2 = delete h (timers s) /\
    Delayer.isTriggered (user s2) = false /\
    Delayer.completionPromise (user s2) = None /\
    promise_state (next_promise s) s2 =
      Some (Pending false [Reaction (Some (FAdoptFulfil c)) (Some (FAdoptReject c)) None]) /\
    exists rs, promise_state c s2 = Some (Pending true rs).
Proof.
  destruct s as [P np J A T nt Sr ns I [dd to cp dr dj tk]].
  intros (Hj & Hto & Hcp) Hc Htk HT. cbn in Hj, Hto, Hcp, Hc, Htk, HT. subst J cp tk.
  destruct Hcp as (p & rs & -> & Hpc & Hcn & Hp & Hcl).
  eexists. split; [run dl_unf dl_unf|].
  look dl_unf. repeat split; try reflexivity. eexists; reflexivity.
Qed.

(** C5.  A delayer between two tasks of the event loop receives a sequence
    of calls of [trigger], the last one with [task] and [delay], and no timer
    fires in between.  Every call returns the same completion promise.  No
    task is invoked by the calls.  After the sequence the timers armed by
    the earlier calls, and the one the delayer had armed before, are
    disarmed; the timer of the last call is armed, with its delay.  When it
    fires, [task], the last one submitted, is invoked, and nothing else: one
    invocation for the whole sequence; the completion promise follows the
    promise that the task returned. *)
Theorem debounced_triggers_run_the_last_task_once (s : Delayer.state)
    (ts : list (nat * option Z)) (task : nat) (delay : option Z) :
  delayer_ok s ->
  let h := next_timer s + length ts in
  exists c s1,
    triggers (ts ++ [(task, delay)]) s = (replicate (S (length ts)) c, s1) /\
    invoked s1 = invoked s /\
    (forall k, k < length ts -> timers s1 !! (next_timer s + k) = None) /\
    (forall h0, Delayer.timeout (user s) = Some h0 -> timers s1 !! h0 = None) /\
    timers s1 !! h =
      Some (FClo Delayer.OnTimeout, default (Delayer.defaultDelay (user s)) delay) /\
    Delayer.timeout (user s1) = Some h /\
    exists s2,
      drain Delayer.call 2 (exec (fire_timer Delayer.call h) s1) = Some s2 /\
      invoked s2 = invoked s ++ [task] /\
      Delayer.isTriggered (user s2) = false /\
      timers s2 !! h = None /\
      exists q rs,
        latest_promise s2 = Some q /\
        promise_state q s2 =
          Some (Pending false
                  [Reaction (Some (FAdoptFulfil c)) (Some (FAdoptReject c)) None]) /\
        promise_state c s2 = Some (Pending true rs).
Proof.
  intros Hok h. subst h.
  destruct (triggers_spec ts s task delay Hok)
    as (c & s1 & E & Hok1 & Hc & _ & Hto & Hnt & HT & Hnone & Hold & Htk & HI).
  exists c, s1. split; [exact E|].
  split; [unfold invoked; rewrite HI; reflexivity|].
  split; [exact Hnone|]. split.
  { intros h0 Hh0. destruct Hok as (_ & Hlt & _). rewrite Hh0 in Hlt.
    rewrite Hold by exact Hlt. rewrite Hh0. apply lookup_delete_eq. }
  split; [exact HT|]. split; [exact Hto|].
  destruct (fire_spec s1 _ c task _ Hok1 Hc Htk HT)
    as (s2 & E2 & HI2 & HT2 & Htr & _ & Hq & rs & Hcs).
  exists s2. split; [exact E2|].
  split; [unfold invoked; rewrite HI2, HI, fmap_app; reflexivity|].
  split; [exact Htr|]. split; [rewrite HT2; apply lookup_delete_eq|].
  exists (next_promise s1), rs. split; [|split; [exact Hq|exact Hcs]].
  unfold latest_promise. rewrite HI2, last_snoc. reflexivity.
Qed.

Lemma debounced_triggers_run_the_last_task_once_witness :
  exists c s1,
    triggers [(1, None); (2, Some 5%Z); (3, None)] (init (Delayer.new 100)) =
      ([c; c; c], s1) /\
    invoked s1 = [] /\
    (forall k, k < 2 -> timers s1 !! (0 + k) = None) /\
    (forall h0, None = Some h0 -> timers s1 !! h0 = None) /\
    timers s1 !! 2 = Some (FClo Delayer.OnTimeout, 100%Z) /\
    Delayer.timeout (user s1) = Some 2 /\
    exists s2,
      drain Delayer.call 2 (exec (fire_timer Delayer.call 2) s1) = Some s2 /\
      invoked s2 = [3] /\
      Delayer.isTriggered (user s2) = false /\
      timers s2 !! 2 = None /\
      exists q rs,
        latest_promise s2 = Some q /\
        promise_state q s2 =
          Some (Pending false
                  [Reaction (Some (FAdoptFulfil c)) (Some (FAdoptReject c)) None]) /\
        promise_state c s2 = Some (Pending true rs).
Proof.
  apply (debounced_triggers_run_the_last_task_once (init (Delayer.new 100))
           [(1, None); (2, Some 5%Z)] 3 None).
  split; [reflexivity|]. split; exact Logic.I.
Defined.

(** ** createCancelablePromise *)

Ltac cp_unf :=
  cbv beta iota zeta delta
    [CancelablePromise.source CancelablePromise.thenable
     CancelablePromise.promise CancelablePromise.createCancelablePromise
     CancelablePromise.cancel];
  cbn [CancelablePromise.call].

(** C6.  In any quiescent state, a cancelable promise is created and
    [cancel()] is called before the promise of the callback settles: the
    exposed promise, pending until then, is rejected with the Canceled error
    at once, and the source is not disposed yet.  When the promise of the
    callback settles later, with a value or with an error of its own, the
    exposed promise still holds the Canceled error, and the source has been
    disposed once. *)
Theorem cancel_before_settlement_wins (s : CancelablePromise.state) (callback : nat)
    (o : outcome) :
  jobs s = [] ->
  let (c, s1) := CancelablePromise.createCancelablePromise callback s in
  let s2 := exec (CancelablePromise.cancel c) s1 in
  promise_state (CancelablePromise.promise c) s1 = Some (Pending false []) /\
  promise_state (CancelablePromise.promise c) s2 = Some (Rejected canceled) /\
  disposals (CancelablePromise.source c) s2 = 0 /\
  jobs s2 = [] /\
  exists s3,
    drain CancelablePromise.call 1
      (exec (settle (CancelablePromise.thenable c) o) s2) = Some s3 /\
    promise_state (CancelablePromise.promise c) s3 = Some (Rejected canceled) /\
    disposals (CancelablePromise.source c) s3 = 1 /\
    cancellations (CancelablePromise.source c) s3 = 1 /\
    jobs s3 = [].
Proof.
  intros Hj. destruct s as [P np J A T nt Sr ns I U]. cbn in Hj. subst J.
  eval_let cp_unf cp_unf.
  eval_let cp_unf cp_unf.
  do 4 (split; [look cp_unf; reflexivity|]).
  destruct o; eval_ex cp_unf cp_unf; look cp_unf; done.
Qed.

Lemma cancel_before_settlement_wins_witness :
  let (c, s1) := CancelablePromise.createCancelablePromise 0 (init tt) in
  let s2 := exec (CancelablePromise.cancel c) s1 in
  promise_state (CancelablePromise.promise c) s1 = Some (Pending false []) /\
  promise_state (CancelablePromise.promise c) s2 = Some (Rejected canceled) /\
  disposals (CancelablePromise.source c) s2 = 0 /\
  jobs s2 = [] /\
  exists s3,
    drain CancelablePromise.call 1
      (exec (settle (CancelablePromise.thenable c) (Fail (VObj 1))) s2) = Some s3 /\
    promise_state (CancelablePromise.promise c) s3 = Some (Rejected canceled) /\
    disposals (CancelablePromise.source c) s3 = 1 /\
    cancellations (CancelablePromise.source c) s3 = 1 /\
    jobs s3 = [].
Proof.
  apply (cancel_before_settlement_wins (init tt) 0 (Fail (VObj 1))). reflexivity.
Defined.

(** Without [cancel()], the exposed promise takes the outcome of the
    callback's promise, and the source is disposed once as well. *)
Lemma cancelable_settles_with_the_callback (s : CancelablePromise.state) (callback : nat)
    (o : outcome) :
  jobs s = [] ->
  match o with Fulfil v => is_promise v = false | Fail _ => True end ->
  let (c, s1) := CancelablePromise.createCancelablePromise callback s in
  exists s2,
    drain CancelablePromise.call 1
      (exec (settle (CancelablePromise.thenable c) o) s1) = Some s2 /\
    promise_state (CancelablePromise.promise c) s2 =
      Some (match o with Fulfil v => Fulfilled v | Fail e => Rejected e end) /\
    disposals (CancelablePromise.source c) s2 = 1.
Proof.
  intros Hj Ho. destruct s as [P np J A T nt Sr ns I U]. cbn in Hj. subst J.
  eval_let cp_unf cp_unf.
  destruct o as [v|e]; [destruct v; try discriminate Ho|];
    eval_ex cp_unf cp_unf; look cp_unf; done.
Qed.

(** ** Lazy and IdleValue *)

(** What an access gives once the executor ended with [c]: a value is
    returned, an error that is truthy is thrown; an error that is falsy is
    not seen by [if (this._error)], and the value, never assigned, is
    returned. *)
Definition replay (c : completion) : completion :=
  match c with
  | Normal v => Normal v
  | Throw e => if truthy e then Throw e else Normal VUndefined
  end.

(** The states of an [IdleValue]: the executor has not run and nothing is
    cached, or it has run once, is no longer scheduled, and its outcome is
    cached. *)
Definition idle_inv (executor : nat -> completion) (st : IdleValue.t) : Prop :=
  (IdleValue.handle_disposed st = true -> IdleValue.scheduled st = false) /\
  ((IdleValue._didRun st = false /\ IdleValue.runs st = 0 /\
    IdleValue._value st = VUndefined /\ IdleValue._error st = VUndefined) \/
   (IdleValue._didRun st = true /\ IdleValue.runs st = 1 /\
    IdleValue.scheduled st = false /\
    match executor 0 with
    | Normal v => IdleValue._value st = v /\ IdleValue._error st = VUndefined
    | Throw e => IdleValue._value st = VUndefined /\ IdleValue._error st = e
    end)).

Lemma idle_inv_new executor : idle_inv executor IdleValue.new.
Proof. split; [discriminate|]. left. repeat split. Qed.

Lemma idle_inv_dispose executor st :
  idle_inv executor st -> idle_inv executor (IdleValue.dispose st).
Proof.
  destruct st as [d v e hd sc n].
  unfold idle_inv, IdleValue.dispose, IdleValue.handle_dispose. cbn.
  destruct hd; cbn; intuition.
Qed.

Lemma idle_inv_idle executor st :
  idle_inv executor st -> idle_inv executor (IdleValue.idle executor st).
Proof.
  destruct st as [d v e hd sc n].
  unfold idle_inv, IdleValue.idle, IdleValue._executor. cbn.
  destruct sc; cbn; [|intuition].
  intros [H1 [(-> & -> & -> & ->)|(_ & _ & ? & _)]]; [|discriminate].
  destruct (executor 0) eqn:Hx; cbn; (split; [reflexivity|]); right; auto.
Qed.

Lemma idle_value_spec executor st :
  idle_inv executor st ->
  (IdleValue.value executor st).1 = replay (executor 0) /\
  idle_inv executor (IdleValue.value executor st).2 /\
  IdleValue.runs (IdleValue.value executor st).2 = 1.
Proof.
  destruct st as [d v e hd sc n].
  unfold idle_inv, IdleValue.value, IdleValue._executor, IdleValue.handle_dispose. cbn.
  intros [H1 [(-> & -> & -> & ->)|(-> & -> & -> & Hc)]]; cbn.
  - destruct hd; cbn; destruct (executor 0) as [v|e] eqn:Hx; cbn;
      try destruct (truthy e) eqn:Ht; cbn; rewrite ?Hx; intuition.
  - destruct (executor 0) as [v'|e'] eqn:Hx; destruct Hc as [-> ->]; cbn;
      try destruct (truthy e') eqn:Ht; cbn; intuition.
Qed.

Lemma idle_run_spec executor evs st :
  idle_inv executor st ->
  IdleValue.runs (IdleValue.run executor evs st).2 <= 1 /\
  (In IdleValue.Access evs -> IdleValue.runs (IdleValue.run executor evs st).2 = 1) /\
  (IdleValue.runs st = 1 -> IdleValue.runs (IdleValue.run executor evs st).2 = 1) /\
  Forall (fun r => r = replay (executor 0)) (IdleValue.run executor evs st).1.
Proof.
  revert st. induction evs as [|ev evs IH]; intros st Hinv.
  - cbn. repeat split; [|intros []|auto|constructor].
    destruct Hinv as [_ [(_ & -> & _)|(_ & -> & _)]]; lia.
  - destruct ev; cbn.
    + destruct (idle_value_spec executor st Hinv) as (Hr & Hi & Hn).
      destruct (IdleValue.value executor st) as [r st1]. cbn in *.
      destruct (IH st1 Hi) as (IH1 & IH2 & IH3 & IH4).
      destruct (IdleValue.run executor evs st1) as [rs st2]. cbn in *.
      repeat split; auto.
    + pose proof (idle_inv_idle executor st Hinv) as Hi.
      destruct (IH _ Hi) as (IH1 & IH2 & IH3 & IH4).
      repeat split; auto.
      * intros [H|H]; [discriminate|auto].
      * intros Hn. apply IH3. unfold IdleValue.idle.
        destruct Hinv as [_ [(_ & Hz & _)|(_ & _ & -> & _)]]; [lia|assumption].
    + pose proof (idle_inv_dispose executor st Hinv) as Hi.
      destruct (IH _ Hi) as (IH1 & IH2 & IH3 & IH4).
      repeat split; auto.
      * intros [H|H]; [discriminate|auto].
      * intros Hn. apply IH3. unfold IdleValue.dispose, IdleValue.handle_dispose.
        destruct (IdleValue.handle_disposed st); assumption.
Qed.

Lemma lazy_getValue_spec executor (l : LazyValue.t) :
  (LazyValue._didRun l = false /\ LazyValue.runs l = 0 /\
   LazyValue._value l = VUndefined /\ LazyValue._error l = VUndefined) \/
  (LazyValue._didRun l = true /\ LazyValue.runs l = 1 /\
   match executor 0 with
   | Normal v => LazyValue._value l = v /\ LazyValue._error l = VUndefined
   | Throw e => LazyValue._value l = VUndefined /\ LazyValue._error l = e
   end) ->
  (LazyValue.getValue executor l).1 = replay (executor 0) /\
  let l' := (LazyValue.getValue executor l).2 in
  LazyValue._didRun l' = true /\ LazyValue.runs l' = 1 /\
  match executor 0 with
  | Normal v => LazyValue._value l' = v /\ LazyValue._error l' = VUndefined
  | Throw e => LazyValue._value l' = VUndefined /\ LazyValue._error l' = e
  end.
Proof.
  unfold LazyValue.getValue.
  intros [(Hr & Hn & Hv & He)|(Hr & Hn & Hc)]; rewrite Hr; cbn.
  - rewrite Hn. destruct (executor 0) as [v|e] eqn:Hx; cbn; rewrite ?He, ?Hv; cbn.
    + repeat split.
    + destruct (truthy e); cbn; repeat split.
  - destruct (executor 0) as [v|e] eqn:Hx; destruct Hc as [Hv He]; rewrite He, ?Hv; cbn.
    + repeat split; assumption.
    + destruct (truthy e); cbn; repeat split; assumption.
Qed.

Lemma lazy_getValues_spec executor n (l : LazyValue.t) :
  (LazyValue._didRun l = false /\ LazyValue.runs l = 0 /\
   LazyValue._value l = VUndefined /\ LazyValue._error l = VUndefined) \/
  (LazyValue._didRun l = true /\ LazyValue.runs l = 1 /\
   match executor 0 with
   | Normal v => LazyValue._value l = v /\ LazyValue._error l = VUndefined
   | Throw e => LazyValue._value l = VUndefined /\ LazyValue._error l = e
   end) ->
  (LazyValue.getValues executor n l).1 = replicate n (replay (executor 0)) /\
  (0 < n -> LazyValue.runs (LazyValue.getValues executor n l).2 = 1).
Proof.
  revert l. induction n as [|n IH]; intros l Hl; cbn.
  - split; [reflexivity|lia].
  - destruct (lazy_getValue_spec executor l Hl) as (Hr & Hd & Hn & Hc).
    destruct (LazyValue.getValue executor l) as [r l1]. cbn in *.
    destruct (IH l1) as (IH1 & IH2); [right; auto|].
    destruct (LazyValue.getValues executor n l1) as [rs l2] eqn:Hg. cbn in *.
    split; [congruence|]. intros _. destruct n; [|apply IH2; lia].
    cbn in Hg. congruence.
Qed.



(** An error that is falsy is cached but not thrown again: the accesses
    return [undefined]. *)
Lemma idle_falsy_error_is_not_rethrown (executor : nat -> completion) e evs :
  executor 0 = Throw e -> truthy e = false ->
  Forall (fun r => r = Normal VUndefined) (IdleValue.run executor evs IdleValue.new).1.
Proof.
  intros He Ht.
  destruct (idle_run_spec executor evs _ (idle_inv_new executor)) as (_ & _ & _ & H4).
  rewrite He in H4. cbn in H4. rewrite Ht in H4. exact H4.
Qed.

(** ** first *)

Ltac first_unf :=
  cbv beta iota zeta delta
    [First.loop First.first First.cells First.next_cell
     First.index First.promiseFactories First.shouldStop First.defaultValue];
  cbn [First.call].

Ltac first_prim :=
  cbv beta iota zeta delta
    [First.read_index First.write_index First.cells First.next_cell
     First.index First.promiseFactories First.shouldStop First.defaultValue].

(** The promise of the factory in turn is fulfilled with a value that does
    not stop the loop, and there is a next factory: it is invoked, and the
    chain grows by the promise of the new [then]. *)
Lemma first_continue c fs stop dv P np A T nt Sr ns I C nc i p d up f' v :
  let e := First.Env c fs stop dv in
  C !! c = Some (S i) -> fs !! (S i) = Some f' ->
  P !! p = Some (Pending false [Reaction (Some (FClo (First.OnResult e))) None (Some d)]) ->
  p < d -> d < np -> chain P d up false ->
  match up with [] => True | d' :: _ => d' < p end ->
  stop v = false -> is_promise v = false ->
  exists P',
    drain First.call 2
      (exec (settle p (Fulfil v)) (Rt P np [] A T nt Sr ns I (First.Cells C nc))) =
    Some (Rt P' (S (S np)) [] A T nt Sr ns (I ++ [(f', np)])
             (First.Cells (<[c := S (S i)]> C) nc)) /\
    P' !! np = Some (Pending false
                       [Reaction (Some (FClo (First.OnResult e))) None (Some (S np))]) /\
    chain P' (S np) (d :: up) false.
Proof.
  intros e HC Hf Hp Hpd Hd Hch Hup Hs Hv. subst e.
  assert (Hlt : S i < length fs) by (eapply lookup_lt_Some; exact Hf).
  assert (Hd' : exists rs, P !! d = Some (Pending false rs)).
  { destruct up; cbn in Hch; [eauto|destruct Hch as (H & _); eauto]. }
  destruct Hd' as (rs & Hdl).
  eexists. split; [|split].
  - apply is_promise_false in Hv. run first_unf first_prim.
  - look first_prim. reflexivity.
  - cbn [chain]. split; [look first_prim; reflexivity|]. split; [lia|].
    destruct up as [|d' up]; cbn [chain] in Hch |- *.
    + look first_prim. congruence.
    + destruct Hch as (H1 & H2 & H3). split; [look first_prim; congruence|].
      split; [exact H2|]. eapply chain_frame; [|exact H3].
      intros x Hx. look first_prim. reflexivity.
Qed.

(** The loop ends, with the value [w] that stops it or with the default
    value when the factories are exhausted: the promise at the end of the
    chain is fulfilled with [w], and no factory is invoked. *)
Lemma first_finish c fs stop dv P np A T nt Sr ns I C nc i p d up v w :
  let e := First.Env c fs stop dv in
  C !! c = Some (S i) ->
  P !! p = Some (Pending false [Reaction (Some (FClo (First.OnResult e))) None (Some d)]) ->
  p < d -> d < np -> chain P d up false ->
  match up with [] => True | d' :: _ => d' < p end ->
  is_promise v = false -> is_promise w = false ->
  (stop v = true /\ w = v) \/ (stop v = false /\ length fs <= S i /\ w = dv) ->
  exists P' np' C',
    drain First.call (3 + length up)
      (exec (settle p (Fulfil v)) (Rt P np [] A T nt Sr ns I (First.Cells C nc))) =
    Some (Rt P' np' [] A T nt Sr ns I (First.Cells C' nc)) /\
    P' !! chain_end d up = Some (Fulfilled w).
Proof.
  intros e HC Hp Hpd Hd Hch Hup Hv Hw Hcase. subst e.
  assert (Hd' : exists rs, P !! d = Some (Pending false rs)).
  { destruct up; cbn in Hch; [eauto|destruct Hch as (H & _); eauto]. }
  destruct Hd' as (rs & Hdl).
  apply is_promise_false in Hv. apply is_promise_false in Hw.
  assert (E : exists P2 np2,
             drain First.call (3 + length up)
                 (exec (settle p (Fulfil v))
                    (Rt P np [] A T nt Sr ns I (First.Cells C nc))) =
             drain First.call (length up)
                 (exec (settle d (Fulfil w))
                    (Rt P2 np2 [] A T nt Sr ns I (First.Cells C nc))) /\
             P2 !! d = Some (Pending true rs) /\
             forall x, x < p -> P2 !! x = P !! x).
  { destruct Hcase as [[Hs Hwv]|(Hs & Hlen & Hwv)]; subst w.
    all: eexists _, _; split;
      [ cbn [Nat.add];
        match goal with |- drain _ _ (exec ?m ?s) = _ =>
          eval_term first_unf first_prim (exec m s) end;
        drain_step first_unf first_prim;
        drain_step first_unf first_prim;
        (etransitivity;
           [eapply drain_cons_eq; [reflexivity|apply run_adopt; reflexivity]|]);
        rt_unf; reflexivity
      | split; [look first_prim; reflexivity|];
        intros x Hx; look first_prim; reflexivity ]. }
  destruct E as (P2 & np2 & E & Hd2 & Hf).
  assert (Hch2 : chain P2 d up true).
  { destruct up as [|d' up]; cbn [chain] in Hch |- *.
    - congruence.
    - destruct Hch as (H1 & H2 & H3). split; [congruence|]. split; [exact H2|].
      eapply chain_frame; [|exact H3]. intros x Hx. apply Hf. lia. }
  destruct (chain_settle First.call P2 np2 A T nt Sr ns I (First.Cells C nc)
              d up true (Fulfil w) Hch2) as (P' & E' & Hend & _).
  exists P', np2, C. split; [rewrite E; exact E'|exact Hend].
Qed.

Lemma feed_app {clo ust} (call : clo -> val -> M clo ust completion) fuel os os' s :
  feed call fuel (os ++ os') s =
  match feed call fuel os s with
  | Some s' => feed call fuel os' s'
  | None => None
  end.
Proof.
  revert s. induction os as [|o os IH]; intros s; cbn [feed app]; [reflexivity|].
  destruct (latest_promise s); [|reflexivity].
  destruct (drain _ _ _); [apply IH|reflexivity].
Qed.

Section FirstLoop.
Variables (fs : list nat) (stop : val -> bool) (dv : val).
Variables (A : gmap nat all_state) (T : gmap nat (fn First.clo * Z)) (nt : nat)
            (Sr : gmap nat (source First.clo)) (ns : nat) (I : list (nat * nat)).
Variables (c nc r : nat).

  (** The state of the loop while it waits for the promise of factory [j]:
      the factories up to [j] were invoked, in turn; the promise of the last
      one carries the continuation of the loop; the promise [r] that [first]
      returned is pending, at the end of the chain of the promises of the
      calls of [loop] made so far. *)
Definition first_inv (j : nat) (s : First.state) : Prop :=
    exists P np C p d up Ij f,
      s = Rt P np [] A T nt Sr ns (I ++ Ij ++ [(f, p)]) (First.Cells C nc) /\
      (Ij ++ [(f, p)]).*1 = take (S j) fs /\
      C !! c = Some (S j) /\
      P !! p = Some (Pending false
                 [Reaction (Some (FClo (First.OnResult (First.Env c fs stop dv))))
                           None (Some d)]) /\
      p < d /\ d < np /\ chain P d up false /\
      match up with [] => True | d' :: _ => d' < p end /\
      length up = j /\ chain_end d up = r /\ j < length fs.

Lemma first_inv_latest j s : first_inv j s -> exists p, latest_promise s = Some p.
Proof.
    intros (P & np & C & p & d & up & Ij & f & -> & _).
    exists p. unfold latest_promise. cbn [invocations].
    rewrite app_assoc, last_snoc. reflexivity.
Qed.

Lemma first_inv_step j s v :
    first_inv j s -> S j < length fs -> stop v = false -> is_promise v = false ->
    exists s', feed First.call (3 + length fs) [Fulfil v] s = Some s' /\
               first_inv (S j) s'.
Proof.
    intros (P & np & C & p & d & up & Ij & f & -> & HI & HC & Hp & Hpd & Hd & Hch
            & Hup & Hlen & Hend & _) Hj Hs Hv.
    destruct (lookup_lt_is_Some_2 fs (S j) Hj) as [f' Hf'].
    destruct (first_continue c fs stop dv P np A T nt Sr ns (I ++ Ij ++ [(f, p)]) C nc
                j p d up f' v HC Hf' Hp Hpd Hd Hch Hup Hs Hv) as (P' & E & Hp' & Hch').
    eexists. split.
    - cbn [feed]. unfold latest_promise. cbn [invocations].
      rewrite app_assoc, last_snoc. cbn [fmap option_fmap option_map snd].
      rewrite <- app_assoc.
      rewrite (drain_mono _ 2 _ _ _ E) by lia. reflexivity.
    - exists P', (S (S np)), (<[c := S (S j)]> C), np, (S np), (d :: up),
        (Ij ++ [(f, p)]), f'.
      split; [rewrite <- !app_assoc; reflexivity|].
      split.
      { rewrite fmap_app, HI. cbn [fmap list_fmap fst].
        symmetry. apply take_S_r. exact Hf'. }
      split; [apply lookup_insert_eq|].
      split; [exact Hp'|].
      split; [lia|]. split; [lia|]. split; [exact Hch'|].
      split; [exact Hd|]. split; [cbn; lia|].
      split; [rewrite chain_end_cons; exact Hend|exact Hj].
Qed.

Lemma first_inv_feed s0 vs :
    first_inv 0 s0 -> length vs < length fs ->
    Forall (fun v => stop v = false /\ is_promise v = false) vs ->
    exists s1, feed First.call (3 + length fs) (Fulfil <$> vs) s0 = Some s1 /\
               first_inv (length vs) s1.
Proof.
    intros H0. induction vs as [|v vs IH] using rev_ind; intros Hlen Hall.
    - exists s0. split; [reflexivity|exact H0].
    - rewrite length_app in Hlen. cbn in Hlen.
      apply Forall_app in Hall. destruct Hall as [Hall Hv].
      rewrite Forall_singleton in Hv. destruct Hv as [Hs Hv].
      destruct IH as (s1 & E1 & H1); [lia|exact Hall|].
      destruct (first_inv_step (length vs) s1 v H1) as (s2 & E2 & H2);
        [lia|exact Hs|exact Hv|].
      exists s2. split.
      + rewrite fmap_app, feed_app, E1. exact E2.
      + rewrite length_app. cbn [length]. rewrite Nat.add_1_r. exact H2.
Qed.

Lemma first_inv_finish j s v w :
    first_inv j s -> is_promise v = false -> is_promise w = false ->
    (stop v = true /\ w = v) \/ (stop v = false /\ length fs <= S j /\ w = dv) ->
    exists s', feed First.call (3 + length fs) [Fulfil v] s = Some s' /\
               promise_state r s' = Some (Fulfilled w) /\
               invocations s' = invocations s /\ jobs s' = [].
Proof.
    intros (P & np & C & p & d & up & Ij & f & -> & HI & HC & Hp & Hpd & Hd & Hch
            & Hup & Hlen & Hend & Hj) Hv Hw Hcase.
    destruct (first_finish c fs stop dv P np A T nt Sr ns (I ++ Ij ++ [(f, p)]) C nc
                j p d up v w HC Hp Hpd Hd Hch Hup Hv Hw Hcase)
      as (P' & np' & C' & E & HP').
    eexists. split; [|split; [|split]].
    - cbn [feed]. unfold latest_promise. cbn [invocations].
      rewrite app_assoc, last_snoc. cbn [fmap option_fmap option_map snd].
      rewrite <- app_assoc.
      rewrite (drain_mono _ (3 + length up) _ _ _ E) by lia. reflexivity.
    - unfold promise_state. cbn [promises]. rewrite <- Hend. exact HP'.
    - reflexivity.
    - reflexivity.
Qed.

End FirstLoop.

(** [first] invokes the first factory and returns the promise of the loop;
    with no factory it returns a promise of the default value. *)
Lemma first_start f0 fs stop dv P np A T nt Sr ns I C nc :
  exists s0,
    First.first (f0 :: fs) stop dv (Rt P np [] A T nt Sr ns I (First.Cells C nc)) =
      (S np, s0) /\
    first_inv (f0 :: fs) stop dv A T nt Sr ns I nc (S nc) (S np) 0 s0.
Proof.
  assert (H0 : (f0 :: fs) !! 0 = Some f0) by reflexivity.
  eexists. split; [run first_unf first_prim|].
  eexists _, (S (S np)), _, np, (S np), [], [], f0.
  split.
  { look first_prim. reflexivity. }
  split; [reflexivity|]. split; [apply lookup_insert_eq|].
  split; [look first_prim; reflexivity|].
  split; [lia|]. split; [lia|]. split; [cbn [chain]; look first_prim; reflexivity|].
  split; [exact Logic.I|]. split; [reflexivity|]. split; [reflexivity|cbn; lia].
Qed.

(** The predicate of the example: [x => x > 3]. *)
Definition greater_than_3 (v : val) : bool :=
  match v with
  | VNum n => (3 <? n)%Z
  | _ => false
  end.

(** C8.  [first(promiseFactories, shouldStop, defaultValue)] is called in a
    quiescent state, and the promises of the factories are fulfilled one
    after the other with the values [vs], none of which satisfies the
    predicate.  Then the factories invoked are the first [length vs + 1]
    ones, in the order of the list and nothing else: a factory is invoked
    only when the promise of the one before it has been fulfilled.  While
    factories are left the returned promise is pending, and if the next
    result [v] satisfies the predicate the returned promise is fulfilled
    with [v] and no further factory is invoked.  When every factory has given
    its result and none satisfied the predicate, the returned promise is
    fulfilled with the default value. *)
Theorem first_runs_the_factories_in_turn (fs : list nat) (stop : val -> bool)
    (dv : val) (vs : list val) (s : First.state) :
  jobs s = [] -> is_promise dv = false ->
  Forall (fun v => stop v = false /\ is_promise v = false) vs ->
  length vs <= length fs ->
  let r := (First.first fs stop dv s).1 in
  let s0 := (First.first fs stop dv s).2 in
  exists s1,
    feed First.call (3 + length fs) (Fulfil <$> vs) s0 = Some s1 /\
    jobs s1 = [] /\
    invoked s1 = invoked s ++ take (S (length vs)) fs /\
    (length vs < length fs ->
       (exists l rs, promise_state r s1 = Some (Pending l rs)) /\
       forall v, stop v = true -> is_promise v = false ->
         exists s2,
           feed First.call (3 + length fs) [Fulfil v] s1 = Some s2 /\
           jobs s2 = [] /\
           promise_state r s2 = Some (Fulfilled v) /\
           invoked s2 = invoked s1) /\
    (length vs = length fs -> promise_state r s1 = Some (Fulfilled dv)).
Proof.
  intros Hj Hdv Hall Hlen.
  destruct s as [P np J A T nt Sr ns I [C nc]]. cbn in Hj. subst J.
  destruct fs as [|f0 fs].
  - destruct vs as [|v vs]; [|cbn in Hlen; lia].
    apply is_promise_false in Hdv.
    match goal with |- let r := (?t).1 in _ =>
      eval_term first_unf first_prim t end.
    intros r s0. subst r s0. cbn [fst snd].
    eexists. split; [reflexivity|]. split; [reflexivity|].
    split; [unfold invoked; cbn; rewrite app_nil_r; reflexivity|].
    split; [cbn; lia|]. intros _. look first_prim. reflexivity.
  - destruct (first_start f0 fs stop dv P np A T nt Sr ns I C nc) as (s0' & E0 & H0).
    rewrite E0. intros r s0. subst r s0. cbn [fst snd].
    assert (Hinv : forall j s1,
              first_inv (f0 :: fs) stop dv A T nt Sr ns I nc (S nc) (S np) j s1 ->
              jobs s1 = [] /\
              invoked s1 = I.*1 ++ take (S j) (f0 :: fs) /\
              exists l rs, promise_state (S np) s1 = Some (Pending l rs)).
    { intros j s1 (P1 & np1 & C1 & p & d & up & Ij & f & -> & HI & HC & Hp & Hpd & Hd
                   & Hch & Hup & Hl & Hend & Hjl).
      split; [reflexivity|]. split.
      - unfold invoked. cbn [invocations]. rewrite fmap_app, HI. reflexivity.
      - unfold promise_state. cbn [promises]. rewrite <- Hend.
        eapply chain_pending. exact Hch. }
    destruct (decide (length vs < length (f0 :: fs))) as [Hlt|Hge].
    + destruct (first_inv_feed (f0 :: fs) stop dv A T nt Sr ns I nc (S nc) (S np)
                  s0' vs H0 Hlt Hall) as (s1 & E1 & H1).
      destruct (Hinv _ _ H1) as (Hj1 & Hi1 & Hp1).
      exists s1. split; [exact E1|]. split; [exact Hj1|]. split; [exact Hi1|].
      split; [|intros; lia]. intros _. split; [exact Hp1|].
      intros v Hs Hv.
      destruct (first_inv_finish (f0 :: fs) stop dv A T nt Sr ns I nc (S nc) (S np)
                  (length vs) s1 v v H1 Hv Hv (or_introl (conj Hs eq_refl)))
        as (s2 & E2 & Hr2 & Hi2 & Hj2).
      exists s2. split; [exact E2|]. split; [exact Hj2|]. split; [exact Hr2|].
      unfold invoked. rewrite Hi2. reflexivity.
    + assert (Hn : length vs = length (f0 :: fs)) by lia.
      assert (Hne : vs <> []) by (intros ->; cbn in Hn; lia).
      destruct (exists_last Hne) as (vs' & v & ->). clear Hne. rename vs' into vs.
      rewrite length_app in Hn. cbn [length] in Hn.
      apply Forall_app in Hall. destruct Hall as [Hall Hv].
      rewrite Forall_singleton in Hv. destruct Hv as [Hs Hv].
      assert (Hlt : length vs < length (f0 :: fs)) by (cbn [length]; lia).
      assert (Hle : length (f0 :: fs) <= S (length vs)) by (cbn [length]; lia).
      destruct (first_inv_feed (f0 :: fs) stop dv A T nt Sr ns I nc (S nc) (S np)
                  s0' vs H0 Hlt Hall) as (s1 & E1 & H1).
      destruct (Hinv _ _ H1) as (Hj1 & Hi1 & Hp1).
      destruct (first_inv_finish (f0 :: fs) stop dv A T nt Sr ns I nc (S nc) (S np)
                  (length vs) s1 v dv H1 Hv Hdv
                  (or_intror (conj Hs (conj Hle eq_refl))))
        as (s2 & E2 & Hr2 & Hi2 & Hj2).
      exists s2. split; [rewrite fmap_app, feed_app, E1; exact E2|].
      split; [exact Hj2|]. split.
      * unfold invoked in *. rewrite Hi2, Hi1. cbn [invocations].
        rewrite length_app. cbn [length].
        rewrite !take_ge by (cbn [length] in *; lia). reflexivity.
      * split; [intros; cbn [length] in *; rewrite length_app in *; cbn [length] in *; lia|].
        intros _. exact Hr2.
Qed.

Lemma first_runs_the_factories_in_turn_witness :
  let r := (First.first [10; 11; 12] greater_than_3 VNull (init First.new)).1 in
  let s0 := (First.first [10; 11; 12] greater_than_3 VNull (init First.new)).2 in
  exists s1,
    feed First.call 6 [Fulfil (VNum 0)] s0 = Some s1 /\
    jobs s1 = [] /\
    invoked s1 = [10; 11] /\
    (1 < 3 ->
       (exists l rs, promise_state r s1 = Some (Pending l rs)) /\
       forall v, greater_than_3 v = true -> is_promise v = false ->
         exists s2,
           feed First.call 6 [Fulfil v] s1 = Some s2 /\
           jobs s2 = [] /\
           promise_state r s2 = Some (Fulfilled v) /\
           invoked s2 = invoked s1) /\
    (1 = 3 -> promise_state r s1 = Some (Fulfilled VNull)).
Proof.
  apply (first_runs_the_factories_in_turn [10; 11; 12] greater_than_3 VNull
           [VNum 0] (init First.new)).
  - reflexivity.
  - reflexivity.
  - repeat constructor.
  - simpl. lia.
Defined.

(** The example of the documentation: the factories give 0, 5 and 9, the
    predicate is [x => x > 3]: the result is 5 and the third factory is not
    invoked. *)
Example first_stops_at_5 :
  let r := (First.first [10; 11; 12] greater_than_3 VNull (init First.new)).1 in
  let s0 := (First.first [10; 11; 12] greater_than_3 VNull (init First.new)).2 in
  exists s2,
    feed First.call 6 [Fulfil (VNum 0); Fulfil (VNum 5)] s0 = Some s2 /\
    promise_state r s2 = Some (Fulfilled (VNum 5)) /\
    invoked s2 = [10; 11].
Proof. eexists. split; [vm_compute; reflexivity|]. split; vm_compute; reflexivity. Qed.


(** *** The theorems of the cache at concrete states *)

(** Three callers' tokens, 0, 1 and 2, and two providers. *)
Definition three_tokens : Outline.state :=
  exec (new_source ;;; new_source ;;; new_source) (init (Outline.new [100; 101])).

Lemma two_callers_share_one_create_and_last_release_cancels_witness :
  let s := three_tokens in
  let key := (Outline.keys_for retry_model true s).1 in
  let source := next_source s in
  let data := Outline.next_entry (user s) in
  let s1 := exec (Outline.create Outline.invoke retry_model 0) s in
  let s2 := exec (Outline.create Outline.invoke retry_model 1) s1 in
  let s3 := exec (cancel_both 1 0) s2 in
  let s4 := exec (Outline.create Outline.invoke retry_model 2) s3 in
  Outline.created (user s2) = S (Outline.created (user s)) /\
  Outline._requests (user s2) !! key = Some data /\
  (exists p, Outline.entries (user s2) !! data =
               Some (Outline.Entry 2 source p VUndefined)) /\
  cancellations source s2 = 0 /\
  Outline._requests (user s3) !! key = None /\
  cancellations source s3 = 1 /\
  source_cancelled source s3 = true /\
  source_cancelled (S source) s3 = true /\
  Outline.created (user s4) = S (S (Outline.created (user s))) /\
  (exists data', Outline._requests (user s4) !! key = Some data' /\ data' <> data).
Proof.
  apply (two_callers_share_one_create_and_last_release_cancels three_tokens retry_model
           0 1 2 1 0 0 0 0 0 0 0).
  - vm_compute. reflexivity.
  - vm_compute. reflexivity.
  - vm_compute. reflexivity.
  - vm_compute. reflexivity.
  - vm_compute. lia.
  - vm_compute. lia.
  - vm_compute. lia.
  - lia.
  - lia.
  - lia.
  - right. split; reflexivity.
Defined.



(** ** Identifiers of tree elements *)

(** The identifiers that the loop of [findId] tries after the candidate. *)
Definition numbered (candidateId : string) (i : nat) : string :=
  candidateId +:+ "_" +:+ pretty i.

Lemma numbered_inj candidateId i j : numbered candidateId i = numbered candidateId j -> i = j.
Proof.
  unfold numbered. intros H.
  apply (inj (String.app candidateId)) in H.
  apply (inj (String.app "_")) in H.
  apply (inj pretty) in H. exact H.
Qed.

(** Among more numbered identifiers than there are keys, one is free. *)
Lemma numbered_free candidateId (taken : list string) :
  exists j, j <= length taken /\ numbered candidateId j ∉ taken.
Proof.
  set (cs := numbered candidateId <$> seq 0 (S (length taken))).
  destruct (decide (Forall (fun x => x ∈ taken) cs)) as [Hall|Hnot].
  - exfalso.
    assert (Hnd : NoDup cs).
    { apply NoDup_fmap_2_strong; [|apply NoDup_seq].
      intros i j _ _. apply numbered_inj. }
    assert (Hle : length cs <= length taken).
    { apply submseteq_length, NoDup_submseteq; [exact Hnd|].
      rewrite Forall_forall in Hall. exact Hall. }
    unfold cs in Hle. rewrite length_fmap, length_seq in Hle. lia.
  - apply (not_Forall_Exists _), Exists_exists in Hnot.
    destruct Hnot as (x & Hx & Hfree). unfold cs in Hx.
    apply list_elem_of_fmap in Hx. destruct Hx as (j & -> & Hj).
    apply elem_of_seq in Hj. exists j. split; [lia|exact Hfree].
Qed.

Lemma findId_loop_fresh candidateId taken : forall fuel i id,
  (id ∉ taken \/ exists j, i <= j < i + fuel /\ numbered candidateId j ∉ taken) ->
  Outline.findId_loop fuel i candidateId id taken ∉ taken.
Proof.
  induction fuel as [|fuel IH]; intros i id H; cbn [Outline.findId_loop];
    destruct (bool_decide_reflect (id ∈ taken)) as [Hin|Hout]; try exact Hout.
  - destruct H as [H|(j & Hj & _)]; [contradiction|lia].
  - apply IH. destruct H as [H|(j & Hj & Hfree)]; [contradiction|].
    destruct (decide (j = i)) as [->|Hne]; [left; exact Hfree|].
    right. exists j. split; [lia|exact Hfree].
Qed.

(** What the loop returns: the candidate itself, or a numbered one. *)
Lemma findId_loop_shape candidateId taken : forall fuel i id,
  Outline.findId_loop fuel i candidateId id taken = id \/
  exists j, i <= j /\ Outline.findId_loop fuel i candidateId id taken = numbered candidateId j.
Proof.
  induction fuel as [|fuel IH]; intros i id; cbn [Outline.findId_loop];
    destruct (bool_decide (id ∈ taken)); try (left; reflexivity).
  destruct (IH (S i) (numbered candidateId i)) as [E|(j & Hj & E)].
  - right. exists i. split; [lia|exact E].
  - right. exists j. split; [lia|exact E].
Qed.

(** X1.  The identifier that [findId] gives to a new child is never the key
    of a child the container already has, whatever the keys are; it is the
    plain [container.id/candidate] when that is free, and otherwise that
    string followed by [_i] for some [i]. *)
Theorem findId_is_fresh (candidate container_id : string) (taken : list string) :
  let id := Outline.findId candidate container_id taken in
  let candidateId := container_id +:+ "/" +:+ candidate in
  (id ∉ taken) /\
  (candidateId ∉ taken -> id = candidateId) /\
  (candidateId ∈ taken -> exists i : nat, id = candidateId +:+ "_" +:+ pretty i).
Proof.
  intros id candidateId. subst id. unfold Outline.findId. fold candidateId.
  split; [|split].
  - apply findId_loop_fresh. right.
    destruct (numbered_free candidateId taken) as (j & Hj & Hfree).
    exists j. split; [lia|exact Hfree].
  - intros Hfree. cbn [Outline.findId_loop].
    rewrite bool_decide_eq_false_2 by exact Hfree. reflexivity.
  - intros Hin. cbn [Outline.findId_loop].
    rewrite bool_decide_eq_true_2 by exact Hin.
    destruct (findId_loop_shape candidateId taken (length taken) 1 (numbered candidateId 0))
      as [E|(j & _ & E)]; [exists 0|exists j]; exact E.
Qed.

(** X2.  [TreeElement.findId] for a document symbol: its identifier is never
    the key of a child the container already has; it is [container.id/name]
    when that is free. *)
Theorem findId_of_symbol_is_fresh (name : string) (line col : nat)
    (container_id : string) (taken : list string) :
  let id := TreeElement.findId name line col container_id taken in
  (id ∉ taken) /\
  (container_id +:+ "/" +:+ name ∉ taken -> id = container_id +:+ "/" +:+ name).
Proof.
  intros id. subst id. unfold TreeElement.findId. split.
  - apply findId_loop_fresh. right.
    match goal with |- context [numbered ?c _] =>
      destruct (numbered_free c taken) as (j & Hj & Hfree) end.
    exists j. split; [lia|exact Hfree].
  - intros Hfree. rewrite (bool_decide_eq_false_2 _ Hfree).
    cbn [Outline.findId_loop]. rewrite (bool_decide_eq_false_2 _ Hfree). reflexivity.
Qed.

(** ** Keys of the request cache *)

Lemma string_length_app (s t : string) :
  String.length (s +:+ t) = String.length s + String.length t.
Proof. induction s as [|a s IH]; simpl; [reflexivity|f_equal; exact IH]. Qed.

Lemma string_app_inv_tail (s1 s2 t : string) : s1 +:+ t = s2 +:+ t -> s1 = s2.
Proof.
  revert s2. induction s1 as [|a s1 IH]; intros [|b s2] H; simpl in H.
  - reflexivity.
  - apply (f_equal String.length) in H. rewrite !string_length_app in H. simpl in H. lia.
  - apply (f_equal String.length) in H. rewrite !string_length_app in H. simpl in H. lia.
  - injection H as -> H. f_equal. apply IH, H.
Qed.

(** X3.  [_keys.for(textModel, true)] is stable: once it has been called,
    calling it again, for a model with the same id, changes nothing in the
    state, and gives the same key exactly when the version is the same. *)
Theorem keys_for_is_stable_and_tells_versions_apart (s : Outline.state)
    (tm1 tm2 : Outline.textModel) :
  Outline.tm_id tm1 = Outline.tm_id tm2 ->
  let (k1, s1) := Outline.keys_for tm1 true s in
  let (k2, s2) := Outline.keys_for tm2 true s1 in
  s2 = s1 /\ (k1 = k2 <-> Outline.tm_versionId tm1 = Outline.tm_versionId tm2).
Proof.
  intros Hid.
  destruct s as [P np J A T nt Sr ns I U].
  destruct U as [R En ne kc kd pv cl nl O no cr ux].
  destruct (keys_for_spec tm1 P np J A T nt Sr ns I R En ne kc kd pv cl nl O no cr ux)
    as (c' & d' & E & Hk).
  rewrite E. rewrite (keys_for_known tm2 _ _ _ _ _ _ _ _ _ _ _ _ _ _ _ _ _ _ _ _ _ Hk).
  split; [reflexivity|]. unfold key_of. rewrite Hid. split.
  - intros H. apply (inj (String.app _)) in H. apply (inj (String.app "/")) in H.
    apply string_app_inv_tail in H. apply (inj pretty) in H. exact H.
  - intros ->. reflexivity.
Qed.

Lemma keys_for_is_stable_and_tells_versions_apart_witness :
  let (k1, s1) := Outline.keys_for (Outline.TextModel "m" 3 "uri") true
                    (init (Outline.new [100; 101])) in
  let (k2, s2) := Outline.keys_for (Outline.TextModel "m" 4 "uri") true s1 in
  s2 = s1 /\ (k1 = k2 <-> 3 = 4).
Proof.
  apply (keys_for_is_stable_and_tells_versions_apart (init (Outline.new [100; 101]))
           (Outline.TextModel "m" 3 "uri") (Outline.TextModel "m" 4 "uri")).
  reflexivity.
Defined.

(** ** Compaction of a model *)

Lemma filter_nonempty_after (O : gmap nat Outline.object) result (o : Outline.object)
    (groups : list (string * nat)) :
  Outline.empty (Some o) = true -> Outline.empty (O !! result) = true ->
  filter (fun g => Outline.empty (<[result := o]> O !! g.2) = false)
         (filter (fun g => Outline.empty (O !! g.2) = false) groups) =
  filter (fun g => Outline.empty (O !! g.2) = false) groups.
Proof.
  intros Ho Hr. induction groups as [|[k g] groups IH]; [reflexivity|].
  rewrite (filter_cons (fun g => Outline.empty (O !! g.2) = false)).
  destruct (decide (Outline.empty (O !! (k, g).2) = false)) as [Hg|Hg]; [|exact IH].
  rewrite filter_cons. cbn [snd] in *.
  assert (Hne : g <> result) by (intros ->; congruence).
  rewrite decide_True by (rewrite lookup_insert_ne by congruence; exact Hg).
  f_equal. exact IH.
Qed.

Lemma same_key_element (x : Outline.child) (g k : nat) :
  Outline.same_key x (Outline.ElementChild g k) = true <-> x = Outline.ElementChild g k.
Proof.
  destruct x as [i h|h l]; cbn.
  - split; [discriminate|discriminate].
  - rewrite andb_true_iff, !bool_decide_eq_true. split.
    + intros [-> ->]. reflexivity.
    + intros E. injection E as -> ->. split; reflexivity.
Qed.

Lemma set_child_has (c : Outline.child) (cs : list Outline.child) :
  c ∈ Outline.set_child c cs.
Proof.
  induction cs as [|x cs IH]; cbn; [apply list_elem_of_here|].
  destruct (Outline.same_key x c); [apply list_elem_of_here|].
  apply list_elem_of_further, IH.
Qed.

Lemma set_child_keeps (x : Outline.child) (g k : nat) (cs : list Outline.child) :
  x ∈ cs -> x ∈ Outline.set_child (Outline.ElementChild g k) cs.
Proof.
  induction cs as [|y cs IH]; cbn; [intros H; inversion H|].
  intros H. destruct (Outline.same_key y (Outline.ElementChild g k)) eqn:E.
  - apply same_key_element in E. subst y.
    apply elem_of_cons in H. destruct H as [->|H];
      [apply list_elem_of_here|apply list_elem_of_further, H].
  - apply elem_of_cons in H. destruct H as [->|H];
      [apply list_elem_of_here|apply list_elem_of_further, IH, H].
Qed.

Lemma set_child_present (g k : nat) (cs : list Outline.child) :
  Outline.ElementChild g k ∈ cs ->
  Outline.set_child (Outline.ElementChild g k) cs = cs.
Proof.
  induction cs as [|y cs IH]; cbn; [intros H; inversion H|].
  intros H. destruct (Outline.same_key y (Outline.ElementChild g k)) eqn:E.
  - apply same_key_element in E. subst y. reflexivity.
  - f_equal. apply IH. apply elem_of_cons in H. destruct H as [H|H]; [|exact H].
    subst y. assert (E' : Outline.same_key (Outline.ElementChild g k)
                            (Outline.ElementChild g k) = true)
      by (apply same_key_element; reflexivity).
    congruence.
Qed.

Lemma set_child_absent (g k : nat) (cs : list Outline.child) :
  Outline.ElementChild g k ∉ cs ->
  Outline.set_child (Outline.ElementChild g k) cs = cs ++ [Outline.ElementChild g k].
Proof.
  induction cs as [|y cs IH]; cbn; [reflexivity|].
  intros H. apply not_elem_of_cons in H. destruct H as [Hy H].
  destruct (Outline.same_key y (Outline.ElementChild g k)) eqn:E.
  - apply same_key_element in E. congruence.
  - f_equal. apply IH, H.
Qed.

(** The loop of [_compact] over the positions [l] of a group. *)
Definition adopt_loop (g : nat) (children : list Outline.child) (l : list nat)
  : list Outline.child :=
  foldl (fun cs k => Outline.set_child (Outline.ElementChild g k) cs) children l.

Lemma adopt_loop_keeps (x : Outline.child) (g : nat) (l : list nat)
    (cs : list Outline.child) :
  x ∈ cs -> x ∈ adopt_loop g cs l.
Proof.
  unfold adopt_loop. revert cs. induction l as [|a l IH]; intros cs H; [exact H|].
  cbn. apply IH, set_child_keeps, H.
Qed.

Lemma adopt_loop_has (g : nat) (l : list nat) (cs : list Outline.child) (k : nat) :
  k ∈ l -> Outline.ElementChild g k ∈ adopt_loop g cs l.
Proof.
  unfold adopt_loop. revert cs. induction l as [|a l IH]; intros cs H; [inversion H|].
  cbn. apply elem_of_cons in H. destruct H as [->|H].
  - apply (adopt_loop_keeps _ g l), set_child_has.
  - apply IH, H.
Qed.

Lemma adopt_loop_present (g : nat) (l : list nat) (cs : list Outline.child) :
  (forall k, k ∈ l -> Outline.ElementChild g k ∈ cs) -> adopt_loop g cs l = cs.
Proof.
  unfold adopt_loop. induction l as [|a l IH]; intros H; [reflexivity|].
  cbn. rewrite set_child_present by (apply H, list_elem_of_here).
  apply IH. intros k Hk. apply H, list_elem_of_further, Hk.
Qed.

Lemma adopt_loop_absent (g : nat) (l : list nat) (cs : list Outline.child) :
  NoDup l -> (forall k, k ∈ l -> Outline.ElementChild g k ∉ cs) ->
  adopt_loop g cs l = cs ++ (Outline.ElementChild g <$> l).
Proof.
  unfold adopt_loop. revert cs. induction l as [|a l IH]; intros cs Hnd H.
  - cbn. rewrite app_nil_r. reflexivity.
  - apply NoDup_cons in Hnd. destruct Hnd as [Ha Hnd].
    cbn. rewrite set_child_absent by (apply H, list_elem_of_here).
    rewrite IH; [rewrite <- app_assoc; reflexivity|exact Hnd|].
    intros k Hk Hin. apply elem_of_app in Hin. destruct Hin as [Hin|Hin].
    + exact (H k (list_elem_of_further _ _ _ Hk) Hin).
    + apply list_elem_of_singleton in Hin. injection Hin as ->. exact (Ha Hk).
Qed.

(** Every element of the group is among the children after the loop. *)
Lemma adopt_has (g n : nat) (cs : list Outline.child) (k : nat) :
  k < n -> Outline.ElementChild g k ∈ Outline.adopt g n cs.
Proof.
  intros H. apply (adopt_loop_has g (seq 0 n) cs k). apply elem_of_seq. lia.
Qed.

(** The children that were there stay. *)
Lemma adopt_keeps (x : Outline.child) (g n : nat) (cs : list Outline.child) :
  x ∈ cs -> x ∈ Outline.adopt g n cs.
Proof. apply (adopt_loop_keeps x g (seq 0 n) cs). Qed.

(** Into the empty map the elements go in their order. *)
Lemma adopt_nil (g n : nat) :
  Outline.adopt g n [] = Outline.ElementChild g <$> seq 0 n.
Proof.
  apply (adopt_loop_absent g (seq 0 n) []); [apply NoDup_seq|].
  intros k _ H. inversion H.
Qed.

(** The loop run again changes nothing. *)
Lemma adopt_again (g n : nat) (cs : list Outline.child) :
  Outline.adopt g n (Outline.adopt g n cs) = Outline.adopt g n cs.
Proof.
  apply (adopt_loop_present g (seq 0 n)). intros k Hk.
  apply (adopt_loop_has g (seq 0 n) cs k Hk).
Qed.

Lemma set_parent_again (this : nat) (elements : list Outline.element) :
  Outline.set_parent this <$> (Outline.set_parent this <$> elements) =
  Outline.set_parent this <$> elements.
Proof. rewrite <- list_fmap_compose. reflexivity. Qed.

(** The objects after [_compact()]. *)
Definition compacted (result : nat) (uri : string) (kept : list (string * nat))
    (children : list Outline.child) (O : gmap nat Outline.object)
  : gmap nat Outline.object :=
  if decide (length kept = 1) then
    match kept with
    | (_, g) :: _ =>
        match O !! g with
        | Some (Outline.OutlineGroup id order elements) =>
            <[result := Outline.OutlineModel uri kept
                          (Outline.adopt g (length elements) children)]>
              (<[g := Outline.OutlineGroup id order
                        (Outline.set_parent result <$> elements)]> O)
        | _ => <[result := Outline.OutlineModel uri kept children]> O
        end
    | [] => O
    end
  else <[result := Outline.OutlineModel uri kept (Outline.group_children kept)]> O.

Lemma compact_eval P np J A T nt Sr ns I R En ne kc kd pv cl nl O no cr ux
    result uri groups children :
  O !! result = Some (Outline.OutlineModel uri groups children) ->
  let kept := filter (fun g => Outline.empty (O !! g.2) = false) groups in
  Outline._compact result
    (Rt P np J A T nt Sr ns I (Outline.State R En ne kc kd pv cl nl O no cr ux)) =
  (tt, Rt P np J A T nt Sr ns I
          (Outline.State R En ne kc kd pv cl nl
             (compacted result uri kept children O) no cr ux)).
Proof.
  intros Hres kept.
  unfold Outline._compact, bind, get_user, Outline.read_object, compacted.
  cbn [user Outline.objects fst snd]. rewrite Hres. fold kept.
  destruct (decide (length kept = 1)) as [H1|H1]; [|reflexivity].
  destruct kept as [|[k g] kept']; [discriminate H1|].
  destruct (O !! g) as [[id o sy|? ? ?]|]; reflexivity.
Qed.

Lemma kept_are_groups (O : gmap nat Outline.object) (groups : list (string * nat))
    (k : string) (g : nat) :
  (k, g) ∈ filter (fun g => Outline.empty (O !! g.2) = false) groups ->
  exists id order elements,
    O !! g = Some (Outline.OutlineGroup id order elements) /\ elements <> [].
Proof.
  intros H. apply list_elem_of_filter in H. destruct H as [H _]. cbn [snd] in H.
  destruct (O !! g) as [[id order elements|? ? ?]|]; try discriminate H.
  exists id, order, elements. split; [reflexivity|].
  intros ->. discriminate H.
Qed.

(** X4.  [_compact()] on a model keeps the groups that have elements, in
    their order.  When one group is kept, each of its elements gets the model
    as its parent and is set into the children of the model, where the
    children that were there stay; into children that are empty the elements
    go in their order.  Otherwise the children become the kept groups.  No
    object changes but the model and, when one group is kept, that group; a
    second [_compact()] changes nothing. *)
Theorem compact_keeps_the_groups_with_elements (s : Outline.state) (result : nat)
    (uri : string) (groups : list (string * nat)) (children : list Outline.child) :
  Outline.objects (user s) !! result = Some (Outline.OutlineModel uri groups children) ->
  let s1 := exec (Outline._compact result) s in
  let kept := filter (fun g => Outline.empty (Outline.objects (user s) !! g.2) = false)
                     groups in
  (exists ch,
     Outline.objects (user s1) !! result = Some (Outline.OutlineModel uri kept ch) /\
     (length kept <> 1 -> ch = Outline.group_children kept) /\
     (forall k g, kept = [(k, g)] ->
        exists id order elements,
          Outline.objects (user s) !! g = Some (Outline.OutlineGroup id order elements) /\
          elements <> [] /\
          Outline.objects (user s1) !! g =
            Some (Outline.OutlineGroup id order (Outline.set_parent result <$> elements)) /\
          ch = Outline.adopt g (length elements) children /\
          (forall i, i < length elements -> Outline.ElementChild g i ∈ ch) /\
          (forall c, c ∈ children -> c ∈ ch) /\
          (children = [] -> ch = Outline.ElementChild g <$> seq 0 (length elements)))) /\
  Forall (fun g => Outline.empty (Outline.objects (user s1) !! g.2) = false) kept /\
  (forall x, x <> result -> (forall k, kept <> [(k, x)]) ->
     Outline.objects (user s1) !! x = Outline.objects (user s) !! x) /\
  exec (Outline._compact result) s1 = s1.
Proof.
  intros Hres.
  destruct s as [P np J A T nt Sr ns I U].
  destruct U as [R En ne kc kd pv cl nl O no cr ux].
  cbn [user Outline.objects] in Hres.
  intros s1 kept. subst s1 kept. unfold exec.
  rewrite (compact_eval P np J A T nt Sr ns I R En ne kc kd pv cl nl O no cr ux
             result uri groups children Hres).
  cbn [snd user Outline.objects].
  set (kept := filter (fun g => Outline.empty (O !! g.2) = false) groups).
  assert (Hgrp : forall k g, (k, g) ∈ kept ->
            exists id order elements,
              O !! g = Some (Outline.OutlineGroup id order elements) /\ elements <> [])
    by (intros k g; apply kept_are_groups).
  assert (Hnr : forall k g, (k, g) ∈ kept -> g <> result).
  { intros k g Hg ->. destruct (Hgrp k result Hg) as (id & order & es & E & _).
    congruence. }
  destruct (decide (length kept = 1)) as [H1|H1].
  - (* one group is kept *)
    destruct kept as [|[k g] [|? ?]] eqn:Ek; try discriminate H1.
    destruct (Hgrp k g (list_elem_of_here _ _)) as (id & order & es & Eg & Hes).
    assert (Hgr : g <> result) by (apply (Hnr k), list_elem_of_here).
    assert (HO : compacted result uri [(k, g)] children O =
                 <[result := Outline.OutlineModel uri [(k, g)]
                               (Outline.adopt g (length es) children)]>
                   (<[g := Outline.OutlineGroup id order
                             (Outline.set_parent result <$> es)]> O)).
    { unfold compacted. cbn [length]. rewrite decide_True by reflexivity.
      rewrite Eg. reflexivity. }
    rewrite HO.
    split; [|split; [|split]].
    + eexists. split; [apply lookup_insert_eq|].
      split; [intros H; exfalso; apply H; reflexivity|].
      intros k' g' E. injection E as <- <-.
      exists id, order, es. split; [exact Eg|]. split; [exact Hes|].
      split; [rewrite lookup_insert_ne by congruence; apply lookup_insert_eq|].
      split; [reflexivity|].
      split; [intros i Hi; apply adopt_has, Hi|].
      split; [intros c Hc; apply adopt_keeps, Hc|].
      intros ->. apply adopt_nil.
    + apply Forall_cons_2; [|apply Forall_nil_2]. cbn [snd].
      rewrite lookup_insert_ne by congruence. rewrite lookup_insert_eq.
      cbn. apply bool_decide_eq_false_2. destruct es; [congruence|discriminate].
    + intros x Hx Hk. rewrite lookup_insert_ne by congruence.
      apply lookup_insert_ne. intros ->. exact (Hk k eq_refl).
    + assert (Hl : <[result := Outline.OutlineModel uri [(k, g)]
                               (Outline.adopt g (length es) children)]>
                     (<[g := Outline.OutlineGroup id order
                               (Outline.set_parent result <$> es)]> O) !! result =
                   Some (Outline.OutlineModel uri [(k, g)]
                           (Outline.adopt g (length es) children)))
        by apply lookup_insert_eq.
      rewrite (compact_eval P np J A T nt Sr ns I R En ne kc kd pv cl nl _ no cr ux
                 result uri [(k, g)] _ Hl).
      cbn [snd]. do 3 f_equal.
      rewrite (filter_cons (fun g0 : string * nat => Outline.empty (_ !! g0.2) = false)).
      cbn [snd]. rewrite lookup_insert_ne by congruence. rewrite lookup_insert_eq.
      rewrite decide_True
        by (cbn; apply bool_decide_eq_false_2; destruct es; [congruence|discriminate]).
      rewrite filter_nil.
      unfold compacted. cbn [length]. rewrite decide_True by reflexivity.
      rewrite lookup_insert_ne by congruence. rewrite lookup_insert_eq.
      rewrite length_fmap, adopt_again, set_parent_again.
      rewrite (insert_id _ g)
        by (rewrite lookup_insert_ne by congruence; apply lookup_insert_eq).
      apply insert_id, lookup_insert_eq.
  - (* no group, or more than one *)
    assert (HO : compacted result uri kept children O =
                 <[result := Outline.OutlineModel uri kept
                               (Outline.group_children kept)]> O).
    { unfold compacted. rewrite decide_False by exact H1. reflexivity. }
    rewrite HO.
    split; [|split; [|split]].
    + eexists. split; [apply lookup_insert_eq|].
      split; [intros _; reflexivity|].
      intros k g E. rewrite E in H1. exfalso. apply H1. reflexivity.
    + apply Forall_forall. intros [k g] Hg. cbn [snd].
      rewrite lookup_insert_ne by (intros E; exact (Hnr k g Hg (eq_sym E))).
      destruct (Hgrp k g Hg) as (id & order & es & -> & Hes).
      cbn. apply bool_decide_eq_false_2. exact Hes.
    + intros x Hx _. apply lookup_insert_ne. congruence.
    + assert (Hl : <[result := Outline.OutlineModel uri kept
                               (Outline.group_children kept)]> O !! result =
                   Some (Outline.OutlineModel uri kept (Outline.group_children kept)))
        by apply lookup_insert_eq.
      rewrite (compact_eval P np J A T nt Sr ns I R En ne kc kd pv cl nl _ no cr ux
                 result uri kept _ Hl).
      cbn [snd]. do 3 f_equal.
      assert (Hf : filter (fun g => Outline.empty
                         (<[result := Outline.OutlineModel uri kept
                                        (Outline.group_children kept)]> O !! g.2) =
                         false) kept = kept).
      { apply (filter_nonempty_after O result); [reflexivity|]. rewrite Hres. reflexivity. }
      rewrite Hf. unfold compacted. rewrite decide_False by exact H1.
      apply insert_insert_eq.
Qed.

Lemma compact_keeps_the_groups_with_elements_witness :
  let s := exec (Outline.alloc_object (Outline.OutlineModel "uri" [("a", 1); ("b", 2)] []) ;;;
                 Outline.alloc_object (Outline.OutlineGroup "a" 0 []) ;;;
                 Outline.alloc_object
                   (Outline.OutlineGroup "b" 1 [Outline.OutlineElement (VObj 7) 2;
                                                Outline.OutlineElement (VObj 8) 2]))
                (init (Outline.new [])) in
  let s1 := exec (Outline._compact 0) s in
  Outline.objects (user s1) !! 0 =
    Some (Outline.OutlineModel "uri" [("b", 2)]
            [Outline.ElementChild 2 0; Outline.ElementChild 2 1]) /\
  Outline.objects (user s1) !! 2 =
    Some (Outline.OutlineGroup "b" 1 [Outline.OutlineElement (VObj 7) 0;
                                      Outline.OutlineElement (VObj 8) 0]) /\
  Outline.objects (user s1) !! 1 = Outline.objects (user s) !! 1 /\
  exec (Outline._compact 0) s1 = s1.
Proof.
  pose (s := exec (Outline.alloc_object
                     (Outline.OutlineModel "uri" [("a", 1); ("b", 2)] []) ;;;
                   Outline.alloc_object (Outline.OutlineGroup "a" 0 []) ;;;
                   Outline.alloc_object
                     (Outline.OutlineGroup "b" 1 [Outline.OutlineElement (VObj 7) 2;
                                                  Outline.OutlineElement (VObj 8) 2]))
                  (init (Outline.new []))).
  assert (Hres : Outline.objects (user s) !! 0 =
                 Some (Outline.OutlineModel "uri" [("a", 1); ("b", 2)] []))
    by (vm_compute; reflexivity).
  destruct (compact_keeps_the_groups_with_elements s 0 "uri" [("a", 1); ("b", 2)] [] Hres)
    as ((ch & Hm & _ & Hone) & _ & Hother & Hagain).
  destruct (Hone "b" 2 ltac:(vm_compute; reflexivity))
    as (id & order & es & Hg & _ & Hg1 & _ & _ & _ & Hch).
  assert (E : Some (Outline.OutlineGroup id order es) =
              Some (Outline.OutlineGroup "b" 1 [Outline.OutlineElement (VObj 7) 2;
                                                Outline.OutlineElement (VObj 8) 2]))
    by (rewrite <- Hg; vm_compute; reflexivity).
  injection E as -> -> ->.
  intros s0 s1. subst s0 s1. fold s.
  split; [rewrite Hm, (Hch eq_refl); vm_compute; reflexivity|].
  split; [exact Hg1|].
  split; [apply Hother; [lia|]; intros k; vm_compute; discriminate|].
  exact Hagain.
Defined.

(** ** A whole run of [OutlineModel.create] with one provider *)

Lemma findId_root c : Outline.findId c "root" [] = "root/" +:+ c.
Proof. reflexivity. Qed.

Lemma no_symbols : bool_decide (@nil Outline.element = []) = true.
Proof. reflexivity. Qed.

Lemma some_symbols (e : Outline.element) l : bool_decide (e :: l = []) = false.
Proof. reflexivity. Qed.

(** The code of [create], [_create] and [_compact] is run as well. *)
Ltac om_unf_all :=
  om_unf;
  repeat lazymatch goal with
  | |- Outline._create _ _ _ _ = _ => unfold Outline._create at 1
  | |- Outline.create _ _ _ _ = _ => unfold Outline.create at 1
  | |- Outline._compact _ _ = _ => unfold Outline._compact at 1
  end;
  cbn [Outline.start_providers truthy].

Ltac om_prim_all :=
  om_prim;
  cbv beta iota zeta delta [Outline.empty Outline.children_keys];
  repeat match goal with
  | |- context [Outline.findId _ "root" []] => rewrite findId_root
  | |- context [omap _ []] => progress cbn [omap list_omap]
  | |- context [_ <$> (_ :: _)] => progress cbn [fmap list_fmap]
  | |- context [_ <$> []] => progress cbn [fmap list_fmap]
  | |- context [Outline.adopt _ _ []] => rewrite adopt_nil
  | |- context [bool_decide (@nil Outline.element = [])] => rewrite no_symbols
  | |- context [bool_decide (_ :: _ = [])] => rewrite some_symbols
  | |- context [filter _ (_ :: _)] => progress cbn [filter list_filter]
  | |- context [filter _ []] => progress cbn [filter list_filter]
  | |- context [decide (false = false)] =>
      rewrite (decide_True (P := false = false)) by reflexivity
  | |- context [decide (true = false)] =>
      rewrite (decide_False (P := true = false)) by discriminate
  | |- context [length (_ :: _)] => progress cbn [length]
  | |- context [length []] => progress cbn [length]
  end.

(** The parts of a state that the statements read. *)
Ltac om_read :=
  unfold promise_state, invoked;
  cbn [promises invocations user Outline.objects Outline.unexpected Outline._requests
       Outline.entries Outline.change_listeners Outline.created];
  rewrite ?lookup_insert_eq.

(** What a provider gives: a list of symbols, or an error. *)
Inductive provided : Type :=
  | Symbols (infos : list val)
  | ProviderError (err : val).

Definition provider_outcome (x : provided) : outcome :=
  match x with
  | Symbols infos => Fulfil (VArr infos)
  | ProviderError err => Fail err
  end.

Definition symbols_of (x : provided) : list val :=
  match x with
  | Symbols infos => infos
  | ProviderError _ => []
  end.

Definition errors_of (x : provided) : list val :=
  match x with
  | Symbols _ => []
  | ProviderError err => [err]
  end.

(** The id of the group of the provider at [index]. *)
Definition provider_group_id (index : nat) : string :=
  "root/" +:+ "provider_" +:+ pretty index.

(** The groups and the children of the model of a run with one provider,
    whose group is the object [g], and the elements of that group, whose
    parent is the object [m]. *)
Definition groups_of (x : provided) (g : nat) : list (string * nat) :=
  match symbols_of x with
  | [] => []
  | _ :: _ => [(provider_group_id 0, g)]
  end.

Definition children_of (x : provided) (g : nat) : list Outline.child :=
  Outline.ElementChild g <$> seq 0 (length (symbols_of x)).

Definition elements_of (x : provided) (m : nat) : list Outline.element :=
  (fun info => Outline.OutlineElement info m) <$> symbols_of x.

Lemma listener_disposed (cl : list (nat * Outline.clo)) nl c :
  Forall (fun l => l.1 < nl) cl ->
  filter (fun x : nat * Outline.clo => x.1 ≠ nl) (cl ++ [(nl, c)]) = cl.
Proof.
  intros H. rewrite filter_app, filter_cons_False by (cbn; congruence).
  rewrite filter_nil, app_nil_r.
  induction H as [|l cl Hl H IH]; [reflexivity|].
  rewrite filter_cons_True by lia. f_equal. exact IH.
Qed.

(** X5.  [OutlineModel.create] for a document that has one provider and no
    entry in the cache: the provider is asked once and the promise returned
    is pending.  When the provider has answered, with symbols or with an
    error, the promise is fulfilled with the model, never rejected: an error
    of the provider goes to [onUnexpectedExternalError] and leaves the model
    without groups; symbols become the elements of the group of the provider,
    which are the children of the model and have it as their parent, and an
    empty answer leaves the model without groups.  The model is stored in the
    entry of the cache, and the listener of the registry is disposed. *)
Theorem create_with_one_provider_delivers_the_model (s : Outline.state)
    (tm : Outline.textModel) (token pv1 : nat) (x : provided) (cc dc : nat) :
  jobs s = [] ->
  Outline.providers (user s) = [pv1] ->
  Outline._requests (user s) !! (Outline.keys_for tm true s).1 = None ->
  sources s !! token = Some (Source false [] cc dc) ->
  token < next_source s ->
  Forall (fun l => l.1 < Outline.next_listener (user s))
         (Outline.change_listeners (user s)) ->
  let key := (Outline.keys_for tm true s).1 in
  let m := Outline.next_object (user s) in
  let d := Outline.next_entry (user s) in
  let p := next_promise s in
  let (r, s1) := Outline.create Outline.invoke tm token s in
  invoked s1 = invoked s ++ [pv1] /\
  latest_promise s1 = Some p /\
  promise_state r s1 = Some (Pending false []) /\
  exists s2,
    drain Outline.invoke 11 (exec (settle p (provider_outcome x)) s1) = Some s2 /\
    promise_state r s2 = Some (Fulfilled (VObj m)) /\
    Outline.objects (user s2) !! m =
      Some (Outline.OutlineModel (Outline.tm_uri tm) (groups_of x (S m))
              (children_of x (S m))) /\
    Outline.objects (user s2) !! S m =
      Some (Outline.OutlineGroup (provider_group_id 0) 0 (elements_of x m)) /\
    Outline.unexpected (user s2) = Outline.unexpected (user s) ++ errors_of x /\
    Outline._requests (user s2) !! key = Some d /\
    (exists e, Outline.entries (user s2) !! d = Some e /\ Outline.model e = VObj m) /\
    Outline.change_listeners (user s2) = Outline.change_listeners (user s) /\
    Outline.created (user s2) = S (Outline.created (user s)) /\
    invoked s2 = invoked s ++ [pv1].
Proof.
  destruct s as [P np J A T nt Sr ns I U].
  destruct U as [R En ne kc kd pv cl nl O no cr ux].
  cbn [jobs user sources next_source next_promise Outline.providers Outline._requests
       Outline.next_listener Outline.change_listeners Outline.next_object
       Outline.next_entry Outline.unexpected Outline.created].
  intros -> ->.
  destruct (keys_for_spec tm P np [] A T nt Sr ns I R En ne kc kd [pv1] cl nl O no cr ux)
    as (c' & d' & E & _).
  rewrite E. cbn [fst]. set (key := key_of tm d' [pv1]) in *. clearbody key.
  intros Hreq Htok Hlt Hcl.
  eassert (Ec : Outline.create Outline.invoke tm token _ = _).
  { unfold Outline.create. eapply bind_eval; [exact E|]. cbv beta.
    mrun om_unf_all om_prim_all. }
  rewrite Ec. clear Ec E.
  split; [unfold invoked; cbn [invocations]; rewrite fmap_app; reflexivity|].
  split; [unfold latest_promise; cbn [invocations]; rewrite last_snoc; reflexivity|].
  split; [look om_prim; reflexivity|].
  destruct x as [[|i infos]|err];
    unfold children_of, elements_of;
    cbn [provider_outcome symbols_of errors_of groups_of];
    eexists; (split; [run om_unf_all om_prim_all|]);
    om_read;
    (split; [rewrite lookup_insert_ne by lia; apply lookup_insert_eq|]);
    (split; [rewrite ?length_fmap; reflexivity|]);
    (split; [rewrite ?lookup_insert_ne by lia; rewrite ?lookup_insert_eq;
             cbn [fmap list_fmap]; rewrite <- ?list_fmap_compose; reflexivity|]);
    (split; [rewrite ?app_nil_r; reflexivity|]);
    (split; [reflexivity|]);
    (split; [eexists; split; reflexivity|]);
    (split; [apply listener_disposed; exact Hcl|]);
    (split; [reflexivity|]);
    rewrite fmap_app; reflexivity.
Qed.

Lemma create_with_one_provider_delivers_the_model_witness :
  let s := exec new_source (init (Outline.new [100])) in
  let tm := Outline.TextModel "m" 3 "uri" in
  let key := (Outline.keys_for tm true s).1 in
  let m := Outline.next_object (user s) in
  let d := Outline.next_entry (user s) in
  let p := next_promise s in
  let (r, s1) := Outline.create Outline.invoke tm 0 s in
  invoked s1 = invoked s ++ [100] /\
  latest_promise s1 = Some p /\
  promise_state r s1 = Some (Pending false []) /\
  exists s2,
    drain Outline.invoke 11
      (exec (settle p (provider_outcome (ProviderError (VError "failed")))) s1) = Some s2 /\
    promise_state r s2 = Some (Fulfilled (VObj m)) /\
    Outline.objects (user s2) !! m =
      Some (Outline.OutlineModel (Outline.tm_uri tm)
              (groups_of (ProviderError (VError "failed")) (S m))
              (children_of (ProviderError (VError "failed")) (S m))) /\
    Outline.objects (user s2) !! S m =
      Some (Outline.OutlineGroup (provider_group_id 0) 0
              (elements_of (ProviderError (VError "failed")) m)) /\
    Outline.unexpected (user s2) =
      Outline.unexpected (user s) ++ errors_of (ProviderError (VError "failed")) /\
    Outline._requests (user s2) !! key = Some d /\
    (exists e, Outline.entries (user s2) !! d = Some e /\ Outline.model e = VObj m) /\
    Outline.change_listeners (user s2) = Outline.change_listeners (user s) /\
    Outline.created (user s2) = S (Outline.created (user s)) /\
    invoked s2 = invoked s ++ [100].
Proof.
  apply (create_with_one_provider_delivers_the_model
           (exec new_source (init (Outline.new [100]))) (Outline.TextModel "m" 3 "uri")
           0 100 (ProviderError (VError "failed")) 0 0).
  - reflexivity.
  - reflexivity.
  - vm_compute. reflexivity.
  - vm_compute. reflexivity.
  - vm_compute. lia.
  - constructor.
Defined.

(** ** TimeoutTimer *)

Ltac tt_unf :=
  cbv beta iota zeta delta
    [TimeoutTimer.cancel TimeoutTimer.dispose TimeoutTimer.cancelAndSet
     TimeoutTimer.setIfNotSet TimeoutTimer.step
     TimeoutTimer.set_token TimeoutTimer.run_runner
     TimeoutTimer._token TimeoutTimer.ran];
  cbn [TimeoutTimer.call].

Ltac tt_prim := tt_unf; rewrite ?lookup_empty.

(** The timer owns at most one timeout of the platform: the one whose
    handle is in [_token]. *)
Definition tt_ok (s : TimeoutTimer.state) : Prop :=
  jobs s = [] /\
  match TimeoutTimer._token (user s) with
  | None => timers s = ∅
  | Some h => h < next_timer s /\
              exists r d, timers s = <[h := (FClo (TimeoutTimer.OnTimeout r), d)]> ∅
  end.

(** The timeouts armed by a sequence of events. *)
Definition armings (evs : list TimeoutTimer.event) : list nat :=
  omap (fun e => match e with
                 | TimeoutTimer.CancelAndSet r _ | TimeoutTimer.SetIfNotSet r _ => Some r
                 | _ => None
                 end) evs.

(** The runner that waits for its timeout, if any. *)
Definition pending (s : TimeoutTimer.state) : option nat :=
  match TimeoutTimer._token (user s) with
  | Some h =>
      match timers s !! h with
      | Some (FClo (TimeoutTimer.OnTimeout r), _) => Some r
      | _ => None
      end
  | None => None
  end.

Lemma tt_step_ok e s :
  tt_ok s ->
  let s' := exec (TimeoutTimer.step e) s in
  tt_ok s' /\
  match e with
  | TimeoutTimer.Cancel | TimeoutTimer.Dispose =>
      pending s' = None /\ TimeoutTimer.ran (user s') = TimeoutTimer.ran (user s)
  | TimeoutTimer.CancelAndSet r _ =>
      pending s' = Some r /\ TimeoutTimer.ran (user s') = TimeoutTimer.ran (user s) /\
      TimeoutTimer._token (user s') = Some (next_timer s)
  | TimeoutTimer.SetIfNotSet r _ =>
      pending s' = Some (default r (pending s)) /\
      TimeoutTimer.ran (user s') = TimeoutTimer.ran (user s) /\
      (is_Some (pending s) -> s' = s)
  | TimeoutTimer.Elapse h =>
      if decide (TimeoutTimer._token (user s) = Some h) then
        pending s' = None /\
        exists r, pending s = Some r /\
                  TimeoutTimer.ran (user s') = TimeoutTimer.ran (user s) ++ [r]
      else s' = s
  end.
Proof.
  destruct s as [P np J A T nt Sr ns I [tok rn]].
  intros (Hj & Htok). cbn in Hj, Htok. subst J.
  destruct tok as [h|].
  - destruct Htok as (Hlt & r & d & ->).
    assert (Hp : (<[h := (FClo (TimeoutTimer.OnTimeout r), d)]> ∅
                    : gmap nat (fn TimeoutTimer.clo * Z)) !! h =
                 Some (FClo (TimeoutTimer.OnTimeout r), d)) by apply lookup_insert_eq.
    destruct e as [| |r' d'|r' d'|h'].
    1-4: intros s'; subst s';
         match goal with |- context [exec ?m ?s] =>
           eval_term tt_unf tt_prim (exec m s) end;
         unfold pending;
         cbn [user TimeoutTimer._token TimeoutTimer.ran timers next_timer];
         rewrite ?lookup_insert_eq, ?delete_insert_eq, ?delete_empty;
         cbn [default from_option id];
         (split; [split; [reflexivity|]|]); try (repeat split; reflexivity);
         cbn [user TimeoutTimer._token timers next_timer].
    + split; [lia|]. eauto.
    + split; [lia|]. eauto.
    + intros s'. subst s'. cbn [user TimeoutTimer._token].
      destruct (decide (Some h = Some h')) as [[= <-]|Hne].
      * match goal with |- context [exec ?m ?s] =>
          eval_term tt_unf tt_prim (exec m s) end.
        unfold pending. cbn [user TimeoutTimer._token TimeoutTimer.ran timers].
        rewrite Hp, delete_insert_eq, delete_empty.
        split; [split; reflexivity|]. split; [reflexivity|].
        exists r. split; reflexivity.
      * assert (Hl : (<[h := (FClo (TimeoutTimer.OnTimeout r), d)]> ∅ : gmap nat _) !! h' = None)
          by (rewrite lookup_insert_ne by congruence; apply lookup_empty).
        match goal with |- context [exec ?m ?s] =>
          eval_term tt_unf tt_prim (exec m s) end.
        split; [|reflexivity].
        split; [reflexivity|]. cbn. split; [lia|]. eauto.
  - cbn in Htok. subst T.
    destruct e as [| |r' d'|r' d'|h'].
    all: intros s'; subst s';
         match goal with |- context [exec ?m ?s] =>
           eval_term tt_unf tt_prim (exec m s) end;
         unfold pending, tt_ok;
         cbn [user TimeoutTimer._token TimeoutTimer.ran timers next_timer jobs];
         rewrite ?lookup_insert_eq; cbn [default from_option id].
    + repeat split; reflexivity.
    + repeat split; reflexivity.
    + split; [split; [reflexivity|split; [lia|eauto]]|]. repeat split; reflexivity.
    + split; [split; [reflexivity|split; [lia|eauto]]|].
      split; [reflexivity|]. split; [reflexivity|]. intros [x Hx]. discriminate.
    + rewrite decide_False by discriminate. repeat split; reflexivity.
Qed.

Lemma tt_run_snoc evs e s :
  TimeoutTimer.run (evs ++ [e]) s = exec (TimeoutTimer.step e) (TimeoutTimer.run evs s).
Proof. unfold TimeoutTimer.run. rewrite foldl_app. reflexivity. Qed.

Lemma tt_run_ok evs :
  let s := TimeoutTimer.run evs (init TimeoutTimer.new) in
  tt_ok s /\
  Forall (fun r => r ∈ armings evs) (TimeoutTimer.ran (user s)) /\
  (forall r, pending s = Some r -> r ∈ armings evs) /\
  length (TimeoutTimer.ran (user s)) + (if pending s is Some _ then 1 else 0)
    <= length (armings evs).
Proof.
  induction evs as [|e evs IH] using rev_ind.
  - cbn. repeat split; try constructor; try lia. intros r H. discriminate.
  - rewrite tt_run_snoc. cbv zeta in IH |- *.
    destruct IH as (Hok & Hran & Hpend & Hlen).
    set (s := TimeoutTimer.run evs (init TimeoutTimer.new)) in *.
    pose proof (tt_step_ok e s Hok) as Hstep. cbv zeta in Hstep.
    destruct Hstep as (Hok' & He).
    set (s' := exec (TimeoutTimer.step e) s) in *.
    unfold armings in *. rewrite omap_app, length_app.
    assert (Hmono : forall r, r ∈ omap (fun e => match e with
                 | TimeoutTimer.CancelAndSet r _ | TimeoutTimer.SetIfNotSet r _ => Some r
                 | _ => None
                 end) evs -> r ∈ omap (fun e => match e with
                 | TimeoutTimer.CancelAndSet r _ | TimeoutTimer.SetIfNotSet r _ => Some r
                 | _ => None
                 end) evs ++ omap (fun e => match e with
                 | TimeoutTimer.CancelAndSet r _ | TimeoutTimer.SetIfNotSet r _ => Some r
                 | _ => None
                 end) [e]) by (intros r Hr; apply elem_of_app; left; exact Hr).
    split; [exact Hok'|].
    destruct e as [| |r' d'|r' d'|h']; cbn [omap list_omap option_bind mbind length app] in *.
    + destruct He as (Hp & Hr). rewrite Hp, Hr. rewrite app_nil_r.
      split; [exact Hran|]. split; [intros r H; discriminate|].
      destruct (pending s); lia.
    + destruct He as (Hp & Hr). rewrite Hp, Hr. rewrite app_nil_r.
      split; [exact Hran|]. split; [intros r H; discriminate|].
      destruct (pending s); lia.
    + destruct He as (Hp & Hr & _). rewrite Hp, Hr.
      split; [eapply Forall_impl; [exact Hran|]; intros r Hr0; apply elem_of_app; left; exact Hr0|].
      split; [intros r [= <-]; apply elem_of_app; right; left|].
      cbn [length]. destruct (pending s); lia.
    + destruct He as (Hp & Hr & _). rewrite Hp, Hr.
      split; [eapply Forall_impl; [exact Hran|]; intros r Hr0; apply elem_of_app; left; exact Hr0|].
      split.
      * intros r [= <-]. destruct (pending s) as [r0|] eqn:E; cbn.
        -- apply elem_of_app. left. apply Hpend. reflexivity.
        -- apply elem_of_app. right. left.
      * cbn [length]. destruct (pending s); lia.
    + rewrite app_nil_r. destruct (decide _) as [Ht|Ht].
      * destruct He as (Hp & r & Hps & Hr). rewrite Hp, Hr, length_app. cbn [length].
        split; [apply Forall_app; split; [exact Hran|]; repeat constructor; apply Hpend, Hps|].
        split; [intros r0 H; discriminate|]. rewrite Hps in Hlen. lia.
      * rewrite He. split; [exact Hran|]. split; [exact Hpend|].
        cbn [length]. rewrite Nat.add_0_r. exact Hlen.
Qed.

(** The timeouts of [hs] elapse, one after the other. *)
Definition tt_elapses (hs : list nat) : list TimeoutTimer.event :=
  map TimeoutTimer.Elapse hs.

Lemma tt_run_cons e evs s :
  TimeoutTimer.run (e :: evs) s = TimeoutTimer.run evs (exec (TimeoutTimer.step e) s).
Proof. reflexivity. Qed.

Lemma tt_run_reachable evs : tt_ok (TimeoutTimer.run evs (init TimeoutTimer.new)).
Proof. apply (tt_run_ok evs). Qed.

(** Whatever timeouts elapse, only the runner that waits runs, and only when
    its own timeout elapses. *)
Lemma tt_elapses_spec hs s :
  tt_ok s ->
  TimeoutTimer.ran (user (TimeoutTimer.run (tt_elapses hs) s)) =
  TimeoutTimer.ran (user s) ++
  match TimeoutTimer._token (user s), pending s with
  | Some h, Some r => if bool_decide (h ∈ hs) then [r] else []
  | _, _ => []
  end.
Proof.
  revert s. induction hs as [|h' hs IH]; intros s Hok.
  - cbn. destruct (TimeoutTimer._token (user s)), (pending s); cbn; rewrite ?app_nil_r; reflexivity.
  - cbn [tt_elapses map]. rewrite tt_run_cons.
    destruct (tt_step_ok (TimeoutTimer.Elapse h') s Hok) as (Hok' & He). cbv zeta in Hok', He.
    fold (tt_elapses hs). rewrite (IH _ Hok').
    destruct (decide (TimeoutTimer._token (user s) = Some h')) as [Ht|Ht].
    + destruct He as (Hp & r & Hps & Hr). rewrite Hp, Hr, Ht, Hps.
      rewrite bool_decide_eq_true_2 by left.
      destruct (TimeoutTimer._token (user (exec _ s))); cbv beta iota; rewrite app_nil_r; reflexivity.
    + rewrite He. destruct (TimeoutTimer._token (user s)) as [h|]; [|reflexivity].
      destruct (pending s); [|reflexivity].
      assert (Hh : h <> h') by congruence.
      destruct (bool_decide (h ∈ hs)) eqn:E.
      * apply bool_decide_eq_true_1 in E. rewrite bool_decide_eq_true_2; [reflexivity|].
        right. exact E.
      * apply bool_decide_eq_false_1 in E. rewrite bool_decide_eq_false_2; [reflexivity|].
        intros [?|?]%elem_of_cons; [congruence|tauto].
Qed.

Lemma tt_sublist evs :
  let s := TimeoutTimer.run evs (init TimeoutTimer.new) in
  sublist (TimeoutTimer.ran (user s) ++ option_list (pending s)) (armings evs).
Proof.
  induction evs as [|e evs IH] using rev_ind.
  - cbn. constructor.
  - rewrite tt_run_snoc. cbv zeta in IH |- *.
    pose proof (tt_run_reachable evs) as Hok.
    set (s := TimeoutTimer.run evs (init TimeoutTimer.new)) in *.
    destruct (tt_step_ok e s Hok) as (Hok' & He). cbv zeta in Hok', He.
    set (s' := exec (TimeoutTimer.step e) s) in *.
    unfold armings in *. rewrite omap_app.
    destruct e as [| |r' d'|r' d'|h']; cbn [omap list_omap option_bind mbind] in *.
    + destruct He as (Hp & Hr). rewrite Hp, Hr. cbn [option_list]. rewrite !app_nil_r.
      etransitivity; [|exact IH]. apply sublist_inserts_r. reflexivity.
    + destruct He as (Hp & Hr). rewrite Hp, Hr. cbn [option_list]. rewrite !app_nil_r.
      etransitivity; [|exact IH]. apply sublist_inserts_r. reflexivity.
    + destruct He as (Hp & Hr & _). rewrite Hp, Hr. cbn [option_list].
      apply sublist_app; [|reflexivity].
      etransitivity; [|exact IH]. apply sublist_inserts_r. reflexivity.
    + destruct He as (Hp & Hr & _). rewrite Hp, Hr.
      destruct (pending s) as [r0|]; cbn [default from_option id option_list] in *.
      * apply sublist_inserts_r. exact IH.
      * rewrite app_nil_r in IH. apply sublist_app; [exact IH|reflexivity].
    + rewrite app_nil_r. destruct (decide _) as [Ht|Ht].
      * destruct He as (Hp & r & Hps & Hr). rewrite Hp, Hr. cbn [option_list].
        rewrite app_nil_r. rewrite Hps in IH. exact IH.
      * rewrite He. exact IH.
Qed.

(** X6.  [TimeoutTimer]: whatever methods are called and whatever timeouts
    elapse, the runners that have run are, in this order, among the runners
    given to [cancelAndSet] and [setIfNotSet]: a runner runs at most once for
    each time it was given, and never before a runner that was given
    earlier. *)
Theorem timeout_timer_runs_the_runners_in_the_order_given evs :
  sublist (TimeoutTimer.ran (user (TimeoutTimer.run evs (init TimeoutTimer.new))))
          (armings evs).
Proof.
  etransitivity; [|apply (tt_sublist evs)]. apply sublist_inserts_r. reflexivity.
Qed.

(** X7.  [TimeoutTimer]: the timer never holds more than one timeout of the
    platform, and it holds one exactly when [_token] is not [-1]. *)
Theorem timeout_timer_holds_at_most_one_timeout evs :
  let s := TimeoutTimer.run evs (init TimeoutTimer.new) in
  match TimeoutTimer._token (user s) with
  | None => timers s = ∅
  | Some h => exists f d, timers s = {[ h := (f, d) ]}
  end.
Proof.
  destruct (tt_run_reachable evs) as (_ & H). cbv zeta.
  destruct (TimeoutTimer._token _); [|exact H].
  destruct H as (_ & r & d & ->). eauto.
Qed.

(** X8.  [TimeoutTimer.cancel] and [dispose]: after either, no runner runs,
    whatever timeouts elapse. *)
Theorem timeout_timer_cancel_stops_the_runner evs hs :
  let s := TimeoutTimer.run evs (init TimeoutTimer.new) in
  TimeoutTimer.ran (user (TimeoutTimer.run (TimeoutTimer.Cancel :: tt_elapses hs) s)) =
    TimeoutTimer.ran (user s) /\
  TimeoutTimer.ran (user (TimeoutTimer.run (TimeoutTimer.Dispose :: tt_elapses hs) s)) =
    TimeoutTimer.ran (user s).
Proof.
  cbv zeta. pose proof (tt_run_reachable evs) as Hok.
  split; rewrite tt_run_cons.
  - destruct (tt_step_ok TimeoutTimer.Cancel _ Hok) as (Hok' & Hp & Hr).
    rewrite (tt_elapses_spec _ _ Hok'), Hp, Hr.
    destruct (TimeoutTimer._token (user (exec _ _))); cbv beta iota; apply app_nil_r.
  - destruct (tt_step_ok TimeoutTimer.Dispose _ Hok) as (Hok' & Hp & Hr).
    rewrite (tt_elapses_spec _ _ Hok'), Hp, Hr.
    destruct (TimeoutTimer._token (user (exec _ _))); cbv beta iota; apply app_nil_r.
Qed.

(** X9.  [TimeoutTimer.cancelAndSet]: the runner that waited is given up;
    the new runner runs once, when the new timeout elapses, and not
    otherwise. *)
Theorem timeout_timer_cancelAndSet_replaces_the_runner evs r d hs :
  let s := TimeoutTimer.run evs (init TimeoutTimer.new) in
  TimeoutTimer.ran
    (user (TimeoutTimer.run (TimeoutTimer.CancelAndSet r d :: tt_elapses hs) s)) =
  TimeoutTimer.ran (user s) ++ (if bool_decide (next_timer s ∈ hs) then [r] else []).
Proof.
  cbv zeta. pose proof (tt_run_reachable evs) as Hok. rewrite tt_run_cons.
  destruct (tt_step_ok (TimeoutTimer.CancelAndSet r d) _ Hok) as (Hok' & Hp & Hr & Ht).
  rewrite (tt_elapses_spec _ _ Hok'), Hp, Hr, Ht. reflexivity.
Qed.

(** X10.  [TimeoutTimer.setIfNotSet]: while a runner waits, the call changes
    nothing, and that runner still runs when its timeout elapses; when no
    runner waits, the new runner runs once, when the new timeout elapses. *)
Theorem timeout_timer_setIfNotSet_keeps_the_runner_that_waits evs r d hs :
  let s := TimeoutTimer.run evs (init TimeoutTimer.new) in
  let s' := TimeoutTimer.run [TimeoutTimer.SetIfNotSet r d] s in
  match TimeoutTimer._token (user s), pending s with
  | Some h, Some r0 =>
      s' = s /\
      TimeoutTimer.ran (user (TimeoutTimer.run (tt_elapses hs) s')) =
        TimeoutTimer.ran (user s) ++ (if bool_decide (h ∈ hs) then [r0] else [])
  | _, _ =>
      TimeoutTimer.ran (user (TimeoutTimer.run (tt_elapses hs) s')) =
        TimeoutTimer.ran (user s) ++ (if bool_decide (next_timer s ∈ hs) then [r] else [])
  end.
Proof.
  cbv zeta. pose proof (tt_run_reachable evs) as Hok.
  set (s := TimeoutTimer.run evs (init TimeoutTimer.new)) in *.
  change (TimeoutTimer.run [TimeoutTimer.SetIfNotSet r d] s)
    with (exec (TimeoutTimer.step (TimeoutTimer.SetIfNotSet r d)) s).
  destruct (tt_step_ok (TimeoutTimer.SetIfNotSet r d) s Hok) as (Hok' & Hp & Hr & Hsame).
  cbv zeta in Hok', Hp, Hr, Hsame.
  destruct (TimeoutTimer._token (user s)) as [h|] eqn:Et.
  - destruct (pending s) as [r0|] eqn:Ep.
    + specialize (Hsame (ltac:(eauto))). rewrite Hsame. split; [reflexivity|].
      rewrite (tt_elapses_spec _ _ Hok), Et, Ep. reflexivity.
    + exfalso. destruct Hok as (_ & Hk). rewrite Et in Hk. destruct Hk as (_ & r1 & d1 & E).
      unfold pending in Ep. rewrite Et, E, lookup_insert_eq in Ep. discriminate.
  - assert (Ep : pending s = None) by (unfold pending; rewrite Et; reflexivity).
    rewrite Ep in Hp. cbn [default from_option id] in Hp.
    assert (Et' : TimeoutTimer._token (user (exec (TimeoutTimer.step (TimeoutTimer.SetIfNotSet r d)) s))
                  = Some (next_timer s)).
    { destruct s as [P np J A T nt Sr ns I [tok rn]]. cbn in Et. subst tok.
      match goal with |- context [exec ?m ?s] =>
        eval_term tt_unf tt_prim (exec m s) end. reflexivity. }
    rewrite (tt_elapses_spec _ _ Hok'), Et', Hp, Hr. reflexivity.
Qed.

(** ** RunOnceScheduler *)

Ltac rs_unf :=
  cbv beta iota zeta delta
    [RunOnceScheduler.cancel RunOnceScheduler.dispose RunOnceScheduler.schedule
     RunOnceScheduler.set_delay RunOnceScheduler.doRun RunOnceScheduler.onTimeout
     RunOnceScheduler.step RunOnceScheduler.isScheduled
     RunOnceScheduler.set_runner RunOnceScheduler.set_timeoutToken
     RunOnceScheduler.set_timeout_ RunOnceScheduler.run_runner
     RunOnceScheduler.runner RunOnceScheduler.timeoutToken
     RunOnceScheduler.timeout RunOnceScheduler.ran];
  cbn [RunOnceScheduler.call default from_option id].

Ltac rs_prim := rs_unf; rewrite ?lookup_empty.

(** The scheduler owns at most one timeout of the platform: the one whose
    handle is in [timeoutToken]; its handler is [timeoutHandler]. *)
Definition rs_ok (s : RunOnceScheduler.state) : Prop :=
  jobs s = [] /\
  match RunOnceScheduler.timeoutToken (user s) with
  | None => timers s = ∅
  | Some h => h < next_timer s /\
              exists d, timers s = <[h := (FClo RunOnceScheduler.TimeoutHandler, d)]> ∅
  end.

Lemma rs_step_ok e s :
  rs_ok s ->
  let s' := exec (RunOnceScheduler.step e) s in
  rs_ok s' /\
  match e with
  | RunOnceScheduler.Schedule d =>
      RunOnceScheduler.timeoutToken (user s') = Some (next_timer s) /\
      timers s' = {[ next_timer s :=
                       (FClo RunOnceScheduler.TimeoutHandler,
                        default (RunOnceScheduler.timeout (user s)) d) ]} /\
      RunOnceScheduler.ran (user s') = RunOnceScheduler.ran (user s) /\
      RunOnceScheduler.runner (user s') = RunOnceScheduler.runner (user s) /\
      RunOnceScheduler.timeout (user s') = RunOnceScheduler.timeout (user s)
  | RunOnceScheduler.Cancel =>
      RunOnceScheduler.timeoutToken (user s') = None /\
      RunOnceScheduler.ran (user s') = RunOnceScheduler.ran (user s) /\
      RunOnceScheduler.runner (user s') = RunOnceScheduler.runner (user s) /\
      RunOnceScheduler.timeout (user s') = RunOnceScheduler.timeout (user s)
  | RunOnceScheduler.Dispose =>
      RunOnceScheduler.timeoutToken (user s') = None /\
      RunOnceScheduler.ran (user s') = RunOnceScheduler.ran (user s) /\
      RunOnceScheduler.runner (user s') = None /\
      RunOnceScheduler.timeout (user s') = RunOnceScheduler.timeout (user s)
  | RunOnceScheduler.SetDelay v =>
      RunOnceScheduler.timeoutToken (user s') = RunOnceScheduler.timeoutToken (user s) /\
      timers s' = timers s /\
      RunOnceScheduler.ran (user s') = RunOnceScheduler.ran (user s) /\
      RunOnceScheduler.runner (user s') = RunOnceScheduler.runner (user s) /\
      RunOnceScheduler.timeout (user s') = v
  | RunOnceScheduler.Elapse h =>
      if decide (RunOnceScheduler.timeoutToken (user s) = Some h) then
        RunOnceScheduler.timeoutToken (user s') = None /\
        RunOnceScheduler.ran (user s') =
          RunOnceScheduler.ran (user s) ++ option_list (RunOnceScheduler.runner (user s)) /\
        RunOnceScheduler.runner (user s') = RunOnceScheduler.runner (user s) /\
        RunOnceScheduler.timeout (user s') = RunOnceScheduler.timeout (user s)
      else s' = s
  end.
Proof.
  destruct s as [P np J A T nt Sr ns I [rn tok dl log]].
  intros (Hj & Htok). cbn in Hj, Htok. subst J.
  destruct tok as [h|].
  - destruct Htok as (Hlt & d & ->).
    assert (Hp : (<[h := (FClo RunOnceScheduler.TimeoutHandler, d)]> ∅
                    : gmap nat (fn RunOnceScheduler.clo * Z)) !! h =
                 Some (FClo RunOnceScheduler.TimeoutHandler, d)) by apply lookup_insert_eq.
    destruct e as [d'| | |v|h'].
    1-4: intros s'; subst s';
         match goal with |- context [exec ?m ?s] =>
           eval_term rs_unf rs_prim (exec m s) end;
         unfold rs_ok;
         cbn [user RunOnceScheduler.timeoutToken RunOnceScheduler.ran
              RunOnceScheduler.runner RunOnceScheduler.timeout timers next_timer jobs];
         rewrite ?delete_insert_eq, ?delete_empty.
    + split; [split; [reflexivity|split; [lia|eauto]]|]. repeat split; reflexivity.
    + repeat split; reflexivity.
    + repeat split; reflexivity.
    + split; [split; [reflexivity|split; [lia|eauto]]|]. repeat split; reflexivity.
    + intros s'. subst s'. cbn [user RunOnceScheduler.timeoutToken].
      destruct (decide (Some h = Some h')) as [[= <-]|Hne].
      * destruct rn as [r|];
          match goal with |- context [exec ?m ?s] =>
            eval_term rs_unf rs_prim (exec m s) end;
          unfold rs_ok;
          cbn [user RunOnceScheduler.timeoutToken RunOnceScheduler.ran
               RunOnceScheduler.runner RunOnceScheduler.timeout timers next_timer jobs
               option_list];
          rewrite ?delete_insert_eq, ?delete_empty, ?app_nil_r;
          repeat split; reflexivity.
      * assert (Hl : (<[h := (FClo RunOnceScheduler.TimeoutHandler, d)]> ∅ : gmap nat _) !! h' = None)
          by (rewrite lookup_insert_ne by congruence; apply lookup_empty).
        match goal with |- context [exec ?m ?s] =>
          eval_term rs_unf rs_prim (exec m s) end.
        split; [|reflexivity].
        split; [reflexivity|]. cbn. split; [lia|]. eauto.
  - cbn in Htok. subst T.
    destruct e as [d'| | |v|h'].
    all: intros s'; subst s';
         match goal with |- context [exec ?m ?s] =>
           eval_term rs_unf rs_prim (exec m s) end;
         unfold rs_ok;
         cbn [user RunOnceScheduler.timeoutToken RunOnceScheduler.ran
              RunOnceScheduler.runner RunOnceScheduler.timeout timers next_timer jobs].
    + split; [split; [reflexivity|split; [lia|eauto]]|]. repeat split; reflexivity.
    + repeat split; reflexivity.
    + repeat split; reflexivity.
    + repeat split; reflexivity.
    + rewrite decide_False by discriminate. repeat split; reflexivity.
Qed.

Definition rs_elapses (hs : list nat) : list RunOnceScheduler.event :=
  map RunOnceScheduler.Elapse hs.

Lemma rs_run_cons e evs s :
  RunOnceScheduler.run (e :: evs) s =
  RunOnceScheduler.run evs (exec (RunOnceScheduler.step e) s).
Proof. reflexivity. Qed.

Lemma rs_run_snoc evs e s :
  RunOnceScheduler.run (evs ++ [e]) s =
  exec (RunOnceScheduler.step e) (RunOnceScheduler.run evs s).
Proof. unfold RunOnceScheduler.run. rewrite foldl_app. reflexivity. Qed.

Lemma rs_run_app evs1 evs2 s :
  RunOnceScheduler.run (evs1 ++ evs2) s =
  RunOnceScheduler.run evs2 (RunOnceScheduler.run evs1 s).
Proof. unfold RunOnceScheduler.run. apply foldl_app. Qed.

Lemma rs_run_ok evs s : rs_ok s -> rs_ok (RunOnceScheduler.run evs s).
Proof.
  revert s. induction evs as [|e evs IH]; intros s Hok; [exact Hok|].
  rewrite rs_run_cons. apply IH. apply (rs_step_ok e s Hok).
Qed.

Lemma rs_new_ok r delay : rs_ok (init (RunOnceScheduler.new r delay)).
Proof. split; reflexivity. Qed.

(** The delay that [schedule()] uses after the events [evs]. *)
Definition last_delay (delay : Z) (evs : list RunOnceScheduler.event) : Z :=
  foldl (fun d e => match e with RunOnceScheduler.SetDelay v => v | _ => d end) delay evs.

Definition is_schedule (e : RunOnceScheduler.event) : bool :=
  match e with RunOnceScheduler.Schedule _ => true | _ => false end.

Definition is_dispose (e : RunOnceScheduler.event) : bool :=
  match e with RunOnceScheduler.Dispose => true | _ => false end.

Lemma rs_run_inv r delay evs :
  let s := RunOnceScheduler.run evs (init (RunOnceScheduler.new r delay)) in
  RunOnceScheduler.timeout (user s) = last_delay delay evs /\
  RunOnceScheduler.runner (user s) =
    (if existsb is_dispose evs then None else Some r) /\
  exists n, RunOnceScheduler.ran (user s) = replicate n r /\
            n + (if RunOnceScheduler.timeoutToken (user s) is Some _ then 1 else 0)
              <= length (filter (fun e => is_schedule e = true) evs).
Proof.
  induction evs as [|e evs IH] using rev_ind.
  - cbn. repeat split. exists 0. split; [reflexivity|lia].
  - cbv zeta in IH |- *. rewrite rs_run_snoc.
    pose proof (rs_run_ok evs _ (rs_new_ok r delay)) as Hok.
    set (s := RunOnceScheduler.run evs (init (RunOnceScheduler.new r delay))) in *.
    destruct IH as (Hd & Hr & n & Hran & Hn).
    destruct (rs_step_ok e s Hok) as (_ & He). cbv zeta in He.
    unfold last_delay. rewrite foldl_app, existsb_app, filter_app, length_app.
    fold (last_delay delay evs).
    destruct e as [d'| | |v|h']; cbn [foldl existsb is_dispose orb is_schedule].
    + destruct He as (Ht & _ & Hran' & Hr' & Hd'). rewrite Ht, Hran', Hr', Hd', orb_false_r.
      split; [exact Hd|]. split; [exact Hr|]. exists n. split; [exact Hran|].
      rewrite filter_cons_True by reflexivity. cbn [length filter].
      destruct (RunOnceScheduler.timeoutToken (user s)); lia.
    + destruct He as (Ht & Hran' & Hr' & Hd'). rewrite Ht, Hran', Hr', Hd', orb_false_r.
      split; [exact Hd|]. split; [exact Hr|]. exists n. split; [exact Hran|]. lia.
    + destruct He as (Ht & Hran' & Hr' & Hd'). rewrite Ht, Hran', Hr', Hd', orb_true_r.
      split; [exact Hd|]. split; [reflexivity|]. exists n. split; [exact Hran|]. lia.
    + destruct He as (Ht & _ & Hran' & Hr' & Hd'). rewrite Ht, Hran', Hr', Hd', orb_false_r.
      split; [reflexivity|]. split; [exact Hr|]. exists n. split; [exact Hran|].
      rewrite filter_cons_False by discriminate. cbn [length filter]. lia.
    + rewrite orb_false_r, filter_cons_False by discriminate. cbn [length filter].
      destruct (decide _) as [Ht|Ht].
      * destruct He as (Ht' & Hran' & Hr' & Hd'). rewrite Ht', Hran', Hr', Hd'.
        split; [exact Hd|]. split; [exact Hr|]. rewrite Ht in Hn.
        rewrite Hr, Hran. destruct (existsb is_dispose evs); cbn [option_list].
        -- exists n. rewrite app_nil_r. split; [reflexivity|lia].
        -- exists (S n). split; [|lia]. symmetry. apply replicate_S_end.
      * rewrite He. split; [exact Hd|]. split; [exact Hr|]. exists n.
        split; [exact Hran|]. lia.
Qed.

(** Whatever timeouts elapse, the runner runs only when the timeout of the
    scheduler elapses, and then once. *)
Lemma rs_elapses_spec hs s :
  rs_ok s ->
  RunOnceScheduler.ran (user (RunOnceScheduler.run (rs_elapses hs) s)) =
  RunOnceScheduler.ran (user s) ++
  match RunOnceScheduler.timeoutToken (user s) with
  | Some h => if bool_decide (h ∈ hs) then option_list (RunOnceScheduler.runner (user s))
              else []
  | None => []
  end.
Proof.
  revert s. induction hs as [|h' hs IH]; intros s Hok.
  - cbn. destruct (RunOnceScheduler.timeoutToken (user s)); cbn; rewrite ?app_nil_r; reflexivity.
  - cbn [rs_elapses map]. rewrite rs_run_cons.
    destruct (rs_step_ok (RunOnceScheduler.Elapse h') s Hok) as (Hok' & He).
    cbv zeta in Hok', He.
    fold (rs_elapses hs). rewrite (IH _ Hok').
    destruct (decide (RunOnceScheduler.timeoutToken (user s) = Some h')) as [Ht|Ht].
    + destruct He as (Ht' & Hran & _). rewrite Ht', Hran, Ht.
      rewrite bool_decide_eq_true_2 by left. apply app_nil_r.
    + rewrite He. destruct (RunOnceScheduler.timeoutToken (user s)) as [h|]; [|reflexivity].
      assert (Hh : h <> h') by congruence.
      destruct (bool_decide (h ∈ hs)) eqn:E.
      * apply bool_decide_eq_true_1 in E. rewrite bool_decide_eq_true_2; [reflexivity|].
        right. exact E.
      * apply bool_decide_eq_false_1 in E. rewrite bool_decide_eq_false_2; [reflexivity|].
        intros [?|?]%elem_of_cons; [congruence|tauto].
Qed.

(** X11.  [RunOnceScheduler]: whatever methods are called and whatever
    timeouts elapse, only the runner given to the constructor runs, and it
    has run at most once for each call of [schedule]. *)
Theorem run_once_scheduler_runs_at_most_once_per_schedule r delay evs :
  exists n,
    RunOnceScheduler.ran
      (user (RunOnceScheduler.run evs (init (RunOnceScheduler.new r delay)))) =
      replicate n r /\
    n <= length (filter (fun e => is_schedule e = true) evs).
Proof.
  destruct (rs_run_inv r delay evs) as (_ & _ & n & Hran & Hn).
  exists n. split; [exact Hran|]. lia.
Qed.

(** X12.  [RunOnceScheduler.schedule]: a call gives up the timeout that was
    armed before; the runner runs once when the new timeout elapses, and not
    when any other does.  After [dispose] it does not run at all. *)
Theorem run_once_scheduler_schedule_rearms r delay evs d hs :
  let s := RunOnceScheduler.run evs (init (RunOnceScheduler.new r delay)) in
  RunOnceScheduler.ran
    (user (RunOnceScheduler.run (RunOnceScheduler.Schedule d :: rs_elapses hs) s)) =
  RunOnceScheduler.ran (user s) ++
  (if bool_decide (next_timer s ∈ hs) && negb (existsb is_dispose evs) then [r] else []).
Proof.
  cbv zeta. pose proof (rs_run_ok evs _ (rs_new_ok r delay)) as Hok.
  destruct (rs_run_inv r delay evs) as (_ & Hr & _). cbv zeta in Hr.
  rewrite rs_run_cons.
  destruct (rs_step_ok (RunOnceScheduler.Schedule d) _ Hok) as (Hok' & Ht & _ & Hran & Hr' & _).
  rewrite (rs_elapses_spec _ _ Hok'), Ht, Hran, Hr', Hr.
  destruct (bool_decide _), (existsb is_dispose evs); reflexivity.
Qed.

(** X13.  [RunOnceScheduler.dispose]: after it the runner never runs again,
    whatever is called and whatever timeouts elapse. *)
Theorem run_once_scheduler_dispose_is_final r delay evs evs' :
  RunOnceScheduler.ran
    (user (RunOnceScheduler.run (evs ++ RunOnceScheduler.Dispose :: evs')
             (init (RunOnceScheduler.new r delay)))) =
  RunOnceScheduler.ran
    (user (RunOnceScheduler.run evs (init (RunOnceScheduler.new r delay)))).
Proof.
  destruct (rs_run_inv r delay (evs ++ RunOnceScheduler.Dispose :: evs'))
    as (_ & Hr & n & Hran & _).
  destruct (rs_run_inv r delay (evs ++ [RunOnceScheduler.Dispose]))
    as (_ & Hr0 & _).
  cbv zeta in *.
  rewrite rs_run_app.
  pose proof (rs_run_ok evs _ (rs_new_ok r delay)) as Hok.
  set (s := RunOnceScheduler.run evs (init (RunOnceScheduler.new r delay))) in *.
  rewrite rs_run_cons.
  destruct (rs_step_ok RunOnceScheduler.Dispose s Hok) as (Hok1 & _ & Hran1 & Hr1 & _).
  cbv zeta in Hok1, Hran1, Hr1. rewrite <- Hran1. clear Hran1 Hr Hran Hr0.
  generalize dependent (exec (RunOnceScheduler.step RunOnceScheduler.Dispose) s).
  clear s Hok. intros s Hok Hr.
  revert s Hok Hr. induction evs' as [|e evs' IH]; intros s Hok Hr; [reflexivity|].
  rewrite rs_run_cons.
  destruct (rs_step_ok e s Hok) as (Hok' & He). cbv zeta in Hok', He.
  assert (H : RunOnceScheduler.runner (user (exec (RunOnceScheduler.step e) s)) = None /\
              RunOnceScheduler.ran (user (exec (RunOnceScheduler.step e) s)) =
              RunOnceScheduler.ran (user s)).
  { destruct e as [d'| | |v|h'].
    - destruct He as (_ & _ & -> & -> & _). split; [exact Hr|reflexivity].
    - destruct He as (_ & -> & -> & _). split; [exact Hr|reflexivity].
    - destruct He as (_ & -> & -> & _). split; reflexivity.
    - destruct He as (_ & _ & -> & -> & _). split; [exact Hr|reflexivity].
    - destruct (decide _).
      + destruct He as (_ & -> & -> & _). rewrite Hr. cbn. rewrite app_nil_r.
        split; reflexivity.
      + rewrite He. split; [exact Hr|reflexivity]. }
  destruct H as (Hr' & Hran'). rewrite (IH _ Hok' Hr'). exact Hran'.
Qed.

(** X14.  [RunOnceScheduler]: [schedule()] without a delay arms the timeout
    with the delay that was set last (the constructor's, if none was set);
    [schedule(d)] arms it with [d]; [get delay] gives the delay set last. *)
Theorem run_once_scheduler_uses_the_delay_set_last r delay evs d :
  let s := RunOnceScheduler.run evs (init (RunOnceScheduler.new r delay)) in
  RunOnceScheduler.get_delay (user s) = last_delay delay evs /\
  timers (exec (RunOnceScheduler.schedule d) s) =
    {[ next_timer s := (FClo RunOnceScheduler.TimeoutHandler,
                         default (last_delay delay evs) d) ]}.
Proof.
  cbv zeta. pose proof (rs_run_ok evs _ (rs_new_ok r delay)) as Hok.
  destruct (rs_run_inv r delay evs) as (Hd & _). cbv zeta in Hd.
  split; [exact Hd|].
  destruct (rs_step_ok (RunOnceScheduler.Schedule d) _ Hok) as (_ & _ & Ht & _).
  cbv zeta in Ht. rewrite <- Hd. exact Ht.
Qed.

(** X15.  [RunOnceScheduler.isScheduled]: it is true exactly while a timeout
    of the scheduler is armed. *)
Theorem run_once_scheduler_isScheduled_tells_whether_armed r delay evs :
  let s := RunOnceScheduler.run evs (init (RunOnceScheduler.new r delay)) in
  RunOnceScheduler.isScheduled (user s) = bool_decide (timers s ≠ ∅).
Proof.
  cbv zeta. destruct (rs_run_ok evs _ (rs_new_ok r delay)) as (_ & H).
  unfold RunOnceScheduler.isScheduled.
  destruct (RunOnceScheduler.timeoutToken _) as [h|].
  - destruct H as (_ & d & ->). symmetry. apply bool_decide_eq_true_2.
    apply insert_non_empty.
  - rewrite H. symmetry. apply bool_decide_eq_false_2. intros Hn. apply Hn. reflexivity.
Qed.

(** ** IntervalTimer *)

Ltac it_unf :=
  cbv beta iota zeta delta
    [IntervalTimer.cancel IntervalTimer.dispose IntervalTimer.cancelAndSet
     IntervalTimer.step IntervalTimer.tick
     IntervalTimer.set_interval IntervalTimer.clear_interval
     IntervalTimer.set_token IntervalTimer.run_runner
     IntervalTimer._token IntervalTimer.ran];
  cbn [IntervalTimer.call].

Ltac it_prim := it_unf; rewrite ?lookup_empty.

(** The timer owns at most one interval of the platform: the one whose
    handle is in [_token]. *)
Definition it_ok (s : IntervalTimer.state) : Prop :=
  jobs s = [] /\
  match IntervalTimer._token (user s) with
  | None => timers s = ∅
  | Some h => h < next_timer s /\
              exists r d, timers s = <[h := (FClo (IntervalTimer.OnInterval r), d)]> ∅
  end.

(** The runner of the interval that is armed, if any. *)
Definition it_pending (s : IntervalTimer.state) : option nat :=
  match IntervalTimer._token (user s) with
  | Some h =>
      match timers s !! h with
      | Some (FClo (IntervalTimer.OnInterval r), _) => Some r
      | _ => None
      end
  | None => None
  end.

Lemma it_step_ok e s :
  it_ok s ->
  let s' := exec (IntervalTimer.step e) s in
  it_ok s' /\
  match e with
  | IntervalTimer.Cancel | IntervalTimer.Dispose =>
      it_pending s' = None /\ IntervalTimer.ran (user s') = IntervalTimer.ran (user s)
  | IntervalTimer.CancelAndSet r _ =>
      it_pending s' = Some r /\ IntervalTimer.ran (user s') = IntervalTimer.ran (user s) /\
      IntervalTimer._token (user s') = Some (next_timer s)
  | IntervalTimer.Elapse h =>
      if decide (IntervalTimer._token (user s) = Some h) then
        IntervalTimer._token (user s') = Some h /\
        exists r, it_pending s = Some r /\ it_pending s' = Some r /\
                  IntervalTimer.ran (user s') = IntervalTimer.ran (user s) ++ [r]
      else s' = s
  end.
Proof.
  destruct s as [P np J A T nt Sr ns I [tok rn]].
  intros (Hj & Htok). cbn in Hj, Htok. subst J.
  destruct tok as [h|].
  - destruct Htok as (Hlt & r & d & ->).
    assert (Hp : (<[h := (FClo (IntervalTimer.OnInterval r), d)]> ∅
                    : gmap nat (fn IntervalTimer.clo * Z)) !! h =
                 Some (FClo (IntervalTimer.OnInterval r), d)) by apply lookup_insert_eq.
    destruct e as [| |r' d'|h'].
    1-3: intros s'; subst s';
         match goal with |- context [exec ?m ?s] =>
           eval_term it_unf it_prim (exec m s) end;
         unfold it_pending, it_ok;
         cbn [user IntervalTimer._token IntervalTimer.ran timers next_timer jobs];
         rewrite ?delete_insert_eq, ?delete_empty, ?lookup_insert_eq.
    + repeat split; reflexivity.
    + repeat split; reflexivity.
    + split; [split; [reflexivity|split; [lia|eauto]]|]. repeat split; reflexivity.
    + intros s'. subst s'. cbn [user IntervalTimer._token].
      destruct (decide (Some h = Some h')) as [[= <-]|Hne].
      * match goal with |- context [exec ?m ?s] =>
          eval_term it_unf it_prim (exec m s) end.
        unfold it_pending, it_ok.
        cbn [user IntervalTimer._token IntervalTimer.ran timers next_timer jobs].
        rewrite Hp.
        split; [split; [reflexivity|split; [lia|eauto]]|]. split; [reflexivity|].
        exists r. repeat split; reflexivity.
      * assert (Hl : (<[h := (FClo (IntervalTimer.OnInterval r), d)]> ∅ : gmap nat _) !! h' = None)
          by (rewrite lookup_insert_ne by congruence; apply lookup_empty).
        match goal with |- context [exec ?m ?s] =>
          eval_term it_unf it_prim (exec m s) end.
        split; [|reflexivity].
        split; [reflexivity|]. cbn. split; [lia|]. eauto.
  - cbn in Htok. subst T.
    destruct e as [| |r' d'|h'].
    all: intros s'; subst s';
         match goal with |- context [exec ?m ?s] =>
           eval_term it_unf it_prim (exec m s) end;
         unfold it_pending, it_ok;
         cbn [user IntervalTimer._token IntervalTimer.ran timers next_timer jobs];
         rewrite ?lookup_insert_eq.
    + repeat split; reflexivity.
    + repeat split; reflexivity.
    + split; [split; [reflexivity|split; [lia|eauto]]|]. repeat split; reflexivity.
    + rewrite decide_False by discriminate. repeat split; reflexivity.
Qed.

Definition it_elapses (hs : list nat) : list IntervalTimer.event :=
  map IntervalTimer.Elapse hs.

Lemma it_run_cons e evs s :
  IntervalTimer.run (e :: evs) s = IntervalTimer.run evs (exec (IntervalTimer.step e) s).
Proof. reflexivity. Qed.

Lemma it_run_ok evs s : it_ok s -> it_ok (IntervalTimer.run evs s).
Proof.
  revert s. induction evs as [|e evs IH]; intros s Hok; [exact Hok|].
  rewrite it_run_cons. apply IH. apply (it_step_ok e s Hok).
Qed.

Lemma it_new_ok : it_ok (init IntervalTimer.new).
Proof. split; reflexivity. Qed.

(** How often the interval [h] elapses in [hs]. *)
Definition ticks (h : nat) (hs : list nat) : nat := length (filter (fun x => x = h) hs).

(** The runner of the armed interval runs each time this interval elapses,
    and no runner runs when another one does. *)
Lemma it_elapses_spec hs s :
  it_ok s ->
  IntervalTimer.ran (user (IntervalTimer.run (it_elapses hs) s)) =
  IntervalTimer.ran (user s) ++
  match IntervalTimer._token (user s), it_pending s with
  | Some h, Some r => replicate (ticks h hs) r
  | _, _ => []
  end.
Proof.
  revert s. induction hs as [|h' hs IH]; intros s Hok.
  - cbn. destruct (IntervalTimer._token (user s)), (it_pending s); cbn; rewrite ?app_nil_r; reflexivity.
  - cbn [it_elapses map]. rewrite it_run_cons.
    destruct (it_step_ok (IntervalTimer.Elapse h') s Hok) as (Hok' & He).
    cbv zeta in Hok', He.
    fold (it_elapses hs). rewrite (IH _ Hok').
    destruct (decide (IntervalTimer._token (user s) = Some h')) as [Ht|Ht].
    + destruct He as (Ht' & r & Hps & Hps' & Hr). rewrite Ht', Hps', Hr, Ht, Hps.
      unfold ticks. rewrite filter_cons_True by reflexivity. cbn [length replicate].
      rewrite <- app_assoc. reflexivity.
    + rewrite He. destruct (IntervalTimer._token (user s)) as [h|]; [|reflexivity].
      destruct (it_pending s); [|reflexivity].
      unfold ticks. rewrite filter_cons_False by congruence. reflexivity.
Qed.

(** X16.  [IntervalTimer.cancelAndSet]: the interval that was armed is given
    up; the new runner runs each time the new interval elapses, and nothing
    runs when another timer does. *)
Theorem interval_timer_runs_the_runner_at_each_tick evs r i hs :
  let s := IntervalTimer.run evs (init IntervalTimer.new) in
  IntervalTimer.ran
    (user (IntervalTimer.run (IntervalTimer.CancelAndSet r i :: it_elapses hs) s)) =
  IntervalTimer.ran (user s) ++ replicate (ticks (next_timer s) hs) r.
Proof.
  cbv zeta. pose proof (it_run_ok evs _ it_new_ok) as Hok. rewrite it_run_cons.
  destruct (it_step_ok (IntervalTimer.CancelAndSet r i) _ Hok) as (Hok' & Hp & Hr & Ht).
  rewrite (it_elapses_spec _ _ Hok'), Hp, Hr, Ht. reflexivity.
Qed.

(** X17.  [IntervalTimer.cancel] and [dispose]: after either, no runner
    runs, whatever intervals elapse. *)
Theorem interval_timer_cancel_stops_the_runner evs hs :
  let s := IntervalTimer.run evs (init IntervalTimer.new) in
  IntervalTimer.ran (user (IntervalTimer.run (IntervalTimer.Cancel :: it_elapses hs) s)) =
    IntervalTimer.ran (user s) /\
  IntervalTimer.ran (user (IntervalTimer.run (IntervalTimer.Dispose :: it_elapses hs) s)) =
    IntervalTimer.ran (user s).
Proof.
  cbv zeta. pose proof (it_run_ok evs _ it_new_ok) as Hok.
  split; rewrite it_run_cons.
  - destruct (it_step_ok IntervalTimer.Cancel _ Hok) as (Hok' & Hp & Hr).
    rewrite (it_elapses_spec _ _ Hok'), Hp, Hr.
    destruct (IntervalTimer._token (user (exec _ _))); cbv beta iota; apply app_nil_r.
  - destruct (it_step_ok IntervalTimer.Dispose _ Hok) as (Hok' & Hp & Hr).
    rewrite (it_elapses_spec _ _ Hok'), Hp, Hr.
    destruct (IntervalTimer._token (user (exec _ _))); cbv beta iota; apply app_nil_r.
Qed.

(** ** createCancelablePromise without a timely cancel *)

(** What a promise holds once it is settled with an outcome. *)
Definition settled_as {clo} (o : outcome) : pstate clo :=
  match o with Fulfil v => Fulfilled v | Fail e => Rejected e end.

(** X18.  [createCancelablePromise]: when the promise of the callback
    settles and [cancel()] was not called, the exposed promise takes its
    outcome and the source is disposed.  A [cancel()] after that changes
    nothing: the exposed promise keeps the outcome and no listener runs. *)
Theorem cancel_after_settlement_is_ignored (s : CancelablePromise.state) (callback : nat)
    (o : outcome) :
  jobs s = [] -> outcome_value o ->
  let (c, s1) := CancelablePromise.createCancelablePromise callback s in
  exists s2,
    drain CancelablePromise.call 1
      (exec (settle (CancelablePromise.thenable c) o) s1) = Some s2 /\
    promise_state (CancelablePromise.promise c) s2 = Some (settled_as o) /\
    disposals (CancelablePromise.source c) s2 = 1 /\
    let s3 := exec (CancelablePromise.cancel c) s2 in
    promise_state (CancelablePromise.promise c) s3 = Some (settled_as o) /\
    jobs s3 = [] /\
    cancellations (CancelablePromise.source c) s3 = 1.
Proof.
  intros Hj Ho. destruct s as [P np J A T nt Sr ns I U]. cbn in Hj. subst J.
  eval_let cp_unf cp_unf.
  destruct o as [v|e]; [apply is_promise_false in Ho|];
    eval_ex cp_unf cp_unf;
    (split; [look cp_unf; reflexivity|]);
    (split; [look cp_unf; reflexivity|]);
    eval_let cp_unf cp_unf; look cp_unf; done.
Qed.

Lemma cancel_after_settlement_is_ignored_witness :
  let (c, s1) := CancelablePromise.createCancelablePromise 0 (init tt) in
  exists s2,
    drain CancelablePromise.call 1
      (exec (settle (CancelablePromise.thenable c) (Fulfil (VNum 7))) s1) = Some s2 /\
    promise_state (CancelablePromise.promise c) s2 = Some (Fulfilled (VNum 7)) /\
    disposals (CancelablePromise.source c) s2 = 1 /\
    let s3 := exec (CancelablePromise.cancel c) s2 in
    promise_state (CancelablePromise.promise c) s3 = Some (Fulfilled (VNum 7)) /\
    jobs s3 = [] /\
    cancellations (CancelablePromise.source c) s3 = 1.
Proof.
  apply (cancel_after_settlement_is_ignored (init tt) 0 (Fulfil (VNum 7)));
    reflexivity.
Defined.

(** ** Throttler: a call of [queue] on an idle throttler *)

(** X19.  [Throttler.queue] on an idle throttler invokes the factory at once
    and returns a promise that takes the outcome of the factory's promise, a
    rejection as well as a value; after that the throttler is idle again. *)
Theorem throttler_idle_queue_runs_the_factory_at_once (s : Throttler.state) (f : nat)
    (o : outcome) :
  throttler_idle s -> outcome_value o ->
  let (r, s1) := Throttler.queue f s in
  invoked s1 = invoked s ++ [f] /\
  promise_state r s1 = Some (Pending false []) /\
  exists a s2,
    latest_promise s1 = Some a /\
    Throttler.activePromise (user s1) = Some a /\
    drain Throttler.call 1 (exec (settle a o) s1) = Some s2 /\
    promise_state r s2 = Some (settled_as o) /\
    throttler_idle s2 /\
    invoked s2 = invoked s ++ [f].
Proof.
  intros (Hj & Hact & Hq) Ho.
  destruct s as [P np J A T nt Sr ns I [ap qp fq]]. cbn in Hj, Hact, Hq. subst J ap qp.
  eval_let th_unf th_unf.
  split; [unfold invoked; cbn [invocations]; rewrite fmap_app; reflexivity|].
  split; [look th_unf; reflexivity|].
  exists np.
  destruct o as [v|e]; [apply is_promise_false in Ho|];
    eexists;
    (split; [unfold latest_promise; cbn [invocations]; rewrite last_snoc; reflexivity|]);
    (split; [reflexivity|]);
    (split; [run th_unf th_unf|]);
    (split; [look th_unf; reflexivity|]);
    (split; [repeat split|]);
    unfold invoked; cbn [invocations]; rewrite fmap_app; reflexivity.
Qed.

Lemma throttler_idle_queue_runs_the_factory_at_once_witness :
  let (r, s1) := Throttler.queue 4 (init Throttler.new) in
  invoked s1 = [] ++ [4] /\
  promise_state r s1 = Some (Pending false []) /\
  exists a s2,
    latest_promise s1 = Some a /\
    Throttler.activePromise (user s1) = Some a /\
    drain Throttler.call 1 (exec (settle a (Fail (VError "failed"))) s1) = Some s2 /\
    promise_state r s2 = Some (Rejected (VError "failed")) /\
    throttler_idle s2 /\
    invoked s2 = [] ++ [4].
Proof.
  apply (throttler_idle_queue_runs_the_factory_at_once (init Throttler.new) 4
           (Fail (VError "failed"))).
  - split; [reflexivity|]. split; reflexivity.
  - exact Logic.I.
Defined.

(** ** Delayer: cancel and dispose *)

(** While a completion promise is set, [doReject] belongs to the same
    promise as [doResolve]. *)
Definition rejects_ok (s : Delayer.state) : Prop :=
  match Delayer.completionPromise (user s) with
  | Some _ => Delayer.doReject (user s) = Delayer.doResolve (user s)
  | None => True
  end.

(** No timer is armed beyond the handles given out so far. *)
Definition timers_bounded (s : Delayer.state) : Prop :=
  forall h, next_timer s <= h -> timers s !! h = None.

Lemma trigger_rejects_ok (s : Delayer.state) task delay :
  rejects_ok s -> rejects_ok (exec (Delayer.trigger task delay) s).
Proof.
  destruct s as [P np J A T nt Sr ns I [dd to cp dr dj tk]].
  unfold rejects_ok. cbn [user Delayer.completionPromise Delayer.doReject Delayer.doResolve].
  intros H.
  destruct cp as [c|], to as [h|].
  all: match goal with |- context [exec ?m ?s] =>
         eval_term dl_unf dl_unf (exec m s) end;
       cbn [user Delayer.completionPromise Delayer.doReject Delayer.doResolve];
       try reflexivity; exact H.
Qed.

Lemma triggers_rejects_ok ts (s : Delayer.state) :
  rejects_ok s -> rejects_ok (exec (triggers ts) s).
Proof.
  revert s. induction ts as [|[f d] ts IH]; intros s H; [exact H|].
  cbn [triggers]. unfold exec, bind.
  pose proof (trigger_rejects_ok s f d H) as H1. unfold exec in H1.
  destruct (Delayer.trigger f d s) as [c s1]. cbn [snd] in H1.
  specialize (IH s1 H1). unfold exec in IH.
  destruct (triggers ts s1) as [cs s2]. exact IH.
Qed.

Lemma trigger_bounded (s : Delayer.state) task delay :
  delayer_ok s -> timers_bounded s ->
  timers_bounded (exec (Delayer.trigger task delay) s).
Proof.
  intros Hok Hb.
  destruct (trigger_spec s task delay Hok)
    as (c & s' & E & _ & _ & _ & _ & Hnt & HT & _).
  unfold exec. rewrite E. cbn [snd]. intros h Hh. rewrite Hnt in Hh. rewrite HT.
  rewrite lookup_insert_ne by lia.
  destruct (Delayer.timeout (user s)) as [h0|]; cbn [disarm].
  - destruct (decide (h0 = h)) as [->|Hne]; [apply lookup_delete_eq|].
    rewrite lookup_delete_ne by exact Hne. apply Hb. lia.
  - apply Hb. lia.
Qed.

Lemma triggers_bounded ts (s : Delayer.state) :
  delayer_ok s -> timers_bounded s -> timers_bounded (exec (triggers ts) s).
Proof.
  revert s. induction ts as [|[f d] ts IH]; intros s Hok Hb; [exact Hb|].
  cbn [triggers]. unfold exec, bind.
  pose proof (trigger_bounded s f d Hok Hb) as H1. unfold exec in H1.
  destruct (trigger_spec s f d Hok) as (c & s' & E & Hok' & _).
  rewrite E in H1 |- *. cbn [snd] in H1.
  specialize (IH s' Hok' H1). unfold exec in IH.
  destruct (triggers ts s') as [cs s2]. exact IH.
Qed.

(** [cancel()] while a completion promise is set. *)
Lemma cancel_spec (s : Delayer.state) c :
  delayer_ok s -> rejects_ok s ->
  Delayer.completionPromise (user s) = Some c ->
  exists rs s3,
    promise_state c s = Some (Pending false rs) /\
    step Delayer.call (exec Delayer.cancel s) = Some s3 /\
    promise_state c s3 = Some (Rejected canceled) /\
    jobs s3 = jobs_of rs true canceled /\
    invocations s3 = invocations s /\
    timers s3 = disarm (Delayer.timeout (user s)) (timers s) /\
    Delayer.isTriggered (user s3) = false /\
    Delayer.completionPromise (user s3) = None.
Proof.
  destruct s as [P np J A T nt Sr ns I [dd to cp dr dj tk]].
  intros (Hj & Hto & Hcp) Hrej Hc. cbn in Hj, Hto, Hcp, Hc. subst J cp.
  destruct Hcp as (p & rs & -> & Hpc & Hcn & Hp & Hcl).
  unfold rejects_ok in Hrej. cbn in Hrej. rewrite Hrej.
  exists rs.
  destruct to as [h|].
  all: match goal with |- context [exec ?m ?s] =>
         eval_term dl_unf dl_unf (exec m s) end;
       eexists; (split; [exact Hcl|]);
       (split; [unfold step; cbn [jobs];
                match goal with |- context [exec ?m ?s] =>
                  eval_term dl_unf dl_unf (exec m s) end; reflexivity|]);
       look dl_unf; repeat split; reflexivity.
Qed.

Lemma dispose_spec (s : Delayer.state) h :
  Delayer.timeout (user s) = Some h ->
  exec Delayer.dispose s =
  set_user (Delayer.set_timeout_ None (user s)) (set_timers (delete h (timers s)) s).
Proof.
  destruct s as [P np J A T nt Sr ns I [dd to cp dr dj tk]]. cbn. intros ->. reflexivity.
Qed.

(** X20.  [Delayer.cancel] after calls of [trigger]: the timer is disarmed
    and, one microtask later, the completion promise that the calls returned
    is rejected with the Canceled error; the task is not invoked, and the
    only microtasks left are the reactions of those who follow the
    completion promise. *)
Theorem delayer_cancel_rejects_the_completion_promise (s : Delayer.state)
    (ts : list (nat * option Z)) (task : nat) (delay : option Z) :
  delayer_ok s -> rejects_ok s ->
  exists c s1 rs s3,
    triggers (ts ++ [(task, delay)]) s = (replicate (S (length ts)) c, s1) /\
    promise_state c s1 = Some (Pending false rs) /\
    step Delayer.call (exec Delayer.cancel s1) = Some s3 /\
    promise_state c s3 = Some (Rejected canceled) /\
    jobs s3 = jobs_of rs true canceled /\
    invoked s3 = invoked s /\
    timers s3 !! (next_timer s + length ts) = None /\
    Delayer.isTriggered (user s3) = false /\
    Delayer.completionPromise (user s3) = None.
Proof.
  intros Hok Hrej.
  destruct (triggers_spec ts s task delay Hok)
    as (c & s1 & E & Hok1 & Hc & _ & Hto & _ & _ & _ & _ & _ & HI).
  pose proof (triggers_rejects_ok (ts ++ [(task, delay)]) s Hrej) as Hrej1.
  unfold exec in Hrej1. rewrite E in Hrej1. cbn [snd] in Hrej1.
  destruct (cancel_spec s1 c Hok1 Hrej1 Hc)
    as (rs & s3 & Hcs & E3 & Hc3 & Hj3 & HI3 & HT3 & Htr & Hcp).
  exists c, s1, rs, s3.
  split; [exact E|]. split; [exact Hcs|]. split; [exact E3|]. split; [exact Hc3|].
  split; [exact Hj3|]. split; [unfold invoked; rewrite HI3, HI; reflexivity|].
  split; [rewrite HT3, Hto; apply lookup_delete_eq|]. split; [exact Htr|exact Hcp].
Qed.

Lemma delayer_cancel_rejects_the_completion_promise_witness :
  exists c s1 rs s3,
    triggers ([(1, None)] ++ [(2, Some 5%Z)]) (init (Delayer.new 100)) =
      (replicate 2 c, s1) /\
    promise_state c s1 = Some (Pending false rs) /\
    step Delayer.call (exec Delayer.cancel s1) = Some s3 /\
    promise_state c s3 = Some (Rejected canceled) /\
    jobs s3 = jobs_of rs true canceled /\
    invoked s3 = [] /\
    timers s3 !! (0 + 1) = None /\
    Delayer.isTriggered (user s3) = false /\
    Delayer.completionPromise (user s3) = None.
Proof.
  apply (delayer_cancel_rejects_the_completion_promise (init (Delayer.new 100))
           [(1, None)] 2 (Some 5%Z)).
  - split; [reflexivity|]. split; exact Logic.I.
  - exact Logic.I.
Defined.

(** X21.  [Delayer.dispose] after calls of [trigger] on a new delayer: the
    timer is disarmed and no timer is left, so the task is never invoked;
    the completion promise is neither fulfilled nor rejected: it stays
    pending, and the delayer keeps it. *)
Theorem delayer_dispose_leaves_the_completion_promise_pending (defaultDelay : Z)
    (ts : list (nat * option Z)) (task : nat) (delay : option Z) :
  exists c s1,
    triggers (ts ++ [(task, delay)]) (init (Delayer.new defaultDelay)) =
      (replicate (S (length ts)) c, s1) /\
    let s2 := exec Delayer.dispose s1 in
    timers s2 = ∅ /\
    jobs s2 = [] /\
    Delayer.isTriggered (user s2) = false /\
    (exists rs, promise_state c s2 = Some (Pending false rs)) /\
    invoked s2 = [] /\
    Delayer.completionPromise (user s2) = Some c.
Proof.
  assert (Hok : delayer_ok (init (Delayer.new defaultDelay)))
    by (split; [reflexivity|]; split; exact Logic.I).
  destruct (triggers_spec ts _ task delay Hok)
    as (c & s1 & E & Hok1 & Hc & _ & Hto & Hnt & _ & Hnone & _ & _ & HI).
  pose proof (triggers_bounded (ts ++ [(task, delay)]) _ Hok) as Hb.
  unfold exec in Hb. rewrite E in Hb. cbn [snd] in Hb.
  assert (Hb0 : timers_bounded (init (Delayer.new defaultDelay)))
    by (intros h _; apply lookup_empty).
  specialize (Hb Hb0).
  exists c, s1. split; [exact E|]. intros s2. subst s2.
  rewrite (dispose_spec s1 _ Hto).
  destruct s1 as [P np J A T nt Sr ns I [dd to cp dr dj tk]].
  destruct Hok1 as (Hj & _ & Hcp). cbn in Hj, Hcp, Hc, Hto, Hnt, Hnone, HI, Hb |- *.
  subst J cp to nt I.
  split.
  { apply map_empty. intros h.
    destruct (decide (h = length ts)) as [->|Hne]; [apply lookup_delete_eq|].
    rewrite lookup_delete_ne by congruence.
    destruct (decide (h < length ts)) as [Hlt|Hge]; [apply Hnone; exact Hlt|].
    apply Hb. cbn [next_timer]. lia. }
  split; [reflexivity|]. split; [reflexivity|].
  split; [|split; reflexivity].
  destruct Hcp as (p & rs & _ & _ & _ & _ & Hcl). exists rs. exact Hcl.
Qed.

(** ** timeout *)

Ltac to_unf :=
  cbv beta iota zeta delta
    [Timeout.timeout Timeout.timeout_cancelable Timeout.cancel
     CancelablePromise.source CancelablePromise.thenable CancelablePromise.promise];
  cbn [Timeout.call].

(** The token of a source that is not cancelled and has no listener yet. *)
Definition fresh_token {clo ust} (token : nat) (s : rt clo ust) : Prop :=
  exists cc dc, sources s !! token = Some (Source false [] cc dc).

(** X22.  [timeout(millis, token)] arms one timer and returns a pending
    promise.  When the timer elapses the promise is fulfilled with
    [undefined], and a cancellation after that does not change it.  When the
    token is cancelled first, the promise is rejected with the Canceled error
    at once and the timer is cleared, so that nothing is left to elapse. *)
Theorem timeout_settles_with_the_timer_or_the_token (s : Timeout.state) (millis : Z)
    (token : nat) :
  jobs s = [] -> fresh_token token s ->
  let h := next_timer s in
  let (p, s1) := Timeout.timeout millis token s in
  promise_state p s1 = Some (Pending false []) /\
  timers s1 !! h = Some (FResolve p, millis) /\
  (let s2 := exec (fire_timer Timeout.call h) s1 in
   promise_state p s2 = Some (Fulfilled VUndefined) /\ jobs s2 = [] /\
   timers s2 !! h = None /\
   let s3 := exec (cancel_source Timeout.call token) s2 in
   promise_state p s3 = Some (Fulfilled VUndefined) /\ jobs s3 = []) /\
  (let s2 := exec (cancel_source Timeout.call token) s1 in
   promise_state p s2 = Some (Rejected canceled) /\ jobs s2 = [] /\
   timers s2 !! h = None /\
   exec (fire_timer Timeout.call h) s2 = s2).
Proof.
  intros Hj (cc & dc & Htok) h. subst h.
  destruct s as [P np J A T nt Sr ns I U]. cbn in Hj, Htok. subst J.
  cbn [next_timer].
  eval_let to_unf to_unf.
  split; [look to_unf; reflexivity|].
  split; [look to_unf; reflexivity|].
  split.
  - match goal with |- context [exec ?m ?s] =>
      eval_term to_unf to_unf (exec m s) end.
    split; [look to_unf; reflexivity|]. split; [reflexivity|].
    split; [look to_unf; reflexivity|].
    match goal with |- context [exec ?m ?s] =>
      eval_term to_unf to_unf (exec m s) end.
    split; [look to_unf; reflexivity|]. reflexivity.
  - match goal with |- context [exec (cancel_source ?c ?t) ?s] =>
      eval_term to_unf to_unf (exec (cancel_source c t) s) end.
    split; [look to_unf; reflexivity|]. split; [reflexivity|].
    split; [look to_unf; reflexivity|].
    run to_unf to_unf.
Qed.

Lemma timeout_settles_with_the_timer_or_the_token_witness :
  let s := exec new_source (init tt) : Timeout.state in
  let h := next_timer s in
  let (p, s1) := Timeout.timeout 50 0 s in
  promise_state p s1 = Some (Pending false []) /\
  timers s1 !! h = Some (FResolve p, 50%Z) /\
  (let s2 := exec (fire_timer Timeout.call h) s1 in
   promise_state p s2 = Some (Fulfilled VUndefined) /\ jobs s2 = [] /\
   timers s2 !! h = None /\
   let s3 := exec (cancel_source Timeout.call 0) s2 in
   promise_state p s3 = Some (Fulfilled VUndefined) /\ jobs s3 = []) /\
  (let s2 := exec (cancel_source Timeout.call 0) s1 in
   promise_state p s2 = Some (Rejected canceled) /\ jobs s2 = [] /\
   timers s2 !! h = None /\
   exec (fire_timer Timeout.call h) s2 = s2).
Proof.
  apply (timeout_settles_with_the_timer_or_the_token (exec new_source (init tt)) 50 0).
  - reflexivity.
  - exists 0, 0. reflexivity.
Defined.

(** X23.  [timeout(millis)], the cancelable form: when the timer elapses,
    the promise returned is fulfilled with [undefined] one microtask later
    and the source is disposed.  When [cancel()] is called before that, the
    timer is cleared and the promise is rejected with the Canceled error at
    once; the microtask that follows disposes the source and leaves the
    promise as it is. *)
Theorem cancelable_timeout_clears_its_timer_on_cancel (s : Timeout.state) (millis : Z) :
  jobs s = [] ->
  let h := next_timer s in
  let (c, s1) := Timeout.timeout_cancelable millis s in
  promise_state (CancelablePromise.promise c) s1 = Some (Pending false []) /\
  timers s1 !! h = Some (FResolve (CancelablePromise.thenable c), millis) /\
  (exists s3,
     drain Timeout.call 1 (exec (fire_timer Timeout.call h) s1) = Some s3 /\
     promise_state (CancelablePromise.promise c) s3 = Some (Fulfilled VUndefined) /\
     disposals (CancelablePromise.source c) s3 = 1 /\
     timers s3 !! h = None) /\
  (let s2 := exec (Timeout.cancel c) s1 in
   promise_state (CancelablePromise.promise c) s2 = Some (Rejected canceled) /\
   timers s2 !! h = None /\
   disposals (CancelablePromise.source c) s2 = 0 /\
   exists s3,
     drain Timeout.call 1 s2 = Some s3 /\
     promise_state (CancelablePromise.promise c) s3 = Some (Rejected canceled) /\
     disposals (CancelablePromise.source c) s3 = 1 /\
     timers s3 !! h = None).
Proof.
  intros Hj h. subst h.
  destruct s as [P np J A T nt Sr ns I U]. cbn in Hj. subst J.
  cbn [next_timer].
  eval_let to_unf to_unf.
  split; [look to_unf; reflexivity|].
  split; [look to_unf; reflexivity|].
  split.
  - eval_ex to_unf to_unf. look to_unf. done.
  - match goal with |- context [exec (Timeout.cancel ?c) ?s] =>
      eval_term to_unf to_unf (exec (Timeout.cancel c) s) end.
    split; [look to_unf; reflexivity|].
    split; [look to_unf; reflexivity|].
    split; [look to_unf; reflexivity|].
    eval_ex to_unf to_unf. look to_unf. done.
Qed.

Lemma cancelable_timeout_clears_its_timer_on_cancel_witness :
  let s := init tt : Timeout.state in
  let h := next_timer s in
  let (c, s1) := Timeout.timeout_cancelable 50 s in
  promise_state (CancelablePromise.promise c) s1 = Some (Pending false []) /\
  timers s1 !! h = Some (FResolve (CancelablePromise.thenable c), 50%Z) /\
  (exists s3,
     drain Timeout.call 1 (exec (fire_timer Timeout.call h) s1) = Some s3 /\
     promise_state (CancelablePromise.promise c) s3 = Some (Fulfilled VUndefined) /\
     disposals (CancelablePromise.source c) s3 = 1 /\
     timers s3 !! h = None) /\
  (let s2 := exec (Timeout.cancel c) s1 in
   promise_state (CancelablePromise.promise c) s2 = Some (Rejected canceled) /\
   timers s2 !! h = None /\
   disposals (CancelablePromise.source c) s2 = 0 /\
   exists s3,
     drain Timeout.call 1 s2 = Some s3 /\
     promise_state (CancelablePromise.promise c) s3 = Some (Rejected canceled) /\
     disposals (CancelablePromise.source c) s3 = 1 /\
     timers s3 !! h = None).
Proof.
  apply (cancelable_timeout_clears_its_timer_on_cancel (init tt) 50). reflexivity.
Defined.

(** ** raceCancellation *)

Ltac rc_unf :=
  cbv beta iota zeta delta [RaceCancellation.raceCancellation promise_race];
  cbn [RaceCancellation.call race_loop].

(** X24.  [raceCancellation(promise, token, defaultValue)] returns a pending
    promise.  When the token is cancelled first, it is fulfilled with
    [defaultValue] one microtask later, and the outcome of [promise], when it
    comes, does not change it.  When [promise] settles first, it takes that
    outcome, and a cancellation after that does not change it. *)
Theorem raceCancellation_takes_what_comes_first (s : RaceCancellation.state)
    (f token : nat) (defaultValue : val) (o : outcome) :
  jobs s = [] -> fresh_token token s -> is_promise defaultValue = false -> outcome_value o ->
  let (p, s0) := invoke_factory f s in
  let (r, s1) := RaceCancellation.raceCancellation p token defaultValue s0 in
  promise_state r s1 = Some (Pending false []) /\
  (exists s2 s3,
     drain RaceCancellation.call 1
       (exec (cancel_source RaceCancellation.call token) s1) = Some s2 /\
     promise_state r s2 = Some (Fulfilled defaultValue) /\
     drain RaceCancellation.call 1 (exec (settle p o) s2) = Some s3 /\
     promise_state r s3 = Some (Fulfilled defaultValue)) /\
  (exists s2 s3,
     drain RaceCancellation.call 1 (exec (settle p o) s1) = Some s2 /\
     promise_state r s2 = Some (settled_as o) /\
     drain RaceCancellation.call 1
       (exec (cancel_source RaceCancellation.call token) s2) = Some s3 /\
     promise_state r s3 = Some (settled_as o)).
Proof.
  intros Hj (cc & dc & Htok) Hd Ho.
  destruct s as [P np J A T nt Sr ns I U]. cbn in Hj, Htok. subst J.
  apply is_promise_false in Hd.
  eval_let rc_unf rc_unf.
  eval_let rc_unf rc_unf.
  split; [look rc_unf; reflexivity|].
  split.
  - destruct o as [v|e]; [apply is_promise_false in Ho|];
      eexists; eexists; (split; [run rc_unf rc_unf|]);
      (split; [look rc_unf; reflexivity|]);
      (split; [run rc_unf rc_unf|]); look rc_unf; reflexivity.
  - destruct o as [v|e]; [apply is_promise_false in Ho|];
      eexists; eexists; (split; [run rc_unf rc_unf|]);
      (split; [look rc_unf; reflexivity|]);
      (split; [run rc_unf rc_unf|]); look rc_unf; reflexivity.
Qed.

Lemma raceCancellation_takes_what_comes_first_witness :
  let s := exec new_source (init tt) : RaceCancellation.state in
  let (p, s0) := invoke_factory 3 s in
  let (r, s1) := RaceCancellation.raceCancellation p 0 VUndefined s0 in
  promise_state r s1 = Some (Pending false []) /\
  (exists s2 s3,
     drain RaceCancellation.call 1
       (exec (cancel_source RaceCancellation.call 0) s1) = Some s2 /\
     promise_state r s2 = Some (Fulfilled VUndefined) /\
     drain RaceCancellation.call 1 (exec (settle p (Fulfil (VNum 1))) s2) = Some s3 /\
     promise_state r s3 = Some (Fulfilled VUndefined)) /\
  (exists s2 s3,
     drain RaceCancellation.call 1 (exec (settle p (Fulfil (VNum 1))) s1) = Some s2 /\
     promise_state r s2 = Some (Fulfilled (VNum 1)) /\
     drain RaceCancellation.call 1
       (exec (cancel_source RaceCancellation.call 0) s2) = Some s3 /\
     promise_state r s3 = Some (Fulfilled (VNum 1))).
Proof.
  apply (raceCancellation_takes_what_comes_first (exec new_source (init tt)) 3 0
           VUndefined (Fulfil (VNum 1))).
  - reflexivity.
  - exists 0, 0. reflexivity.
  - reflexivity.
  - reflexivity.
Defined.

(** ** first: a factory whose promise is rejected *)

(** The promise of the factory in turn is rejected: the rejection passes
    along the chain to the promise that [first] returned, and no factory is
    invoked. *)
Lemma first_fail c fs stop dv P np A T nt Sr ns I C nc p d up err :
  let e := First.Env c fs stop dv in
  P !! p = Some (Pending false [Reaction (Some (FClo (First.OnResult e))) None (Some d)]) ->
  p < d -> d < np -> chain P d up false ->
  match up with [] => True | d' :: _ => d' < p end ->
  exists P',
    drain First.call (1 + length up)
      (exec (settle p (Fail err)) (Rt P np [] A T nt Sr ns I (First.Cells C nc))) =
    Some (Rt P' np [] A T nt Sr ns I (First.Cells C nc)) /\
    P' !! chain_end d up = Some (Rejected err).
Proof.
  intros e Hp Hpd Hd Hch Hup. subst e.
  assert (Hd' : exists rs, P !! d = Some (Pending false rs)).
  { destruct up; cbn in Hch; [eauto|destruct Hch as (H & _); eauto]. }
  destruct Hd' as (rs & Hdl).
  assert (E : drain First.call (1 + length up)
                (exec (settle p (Fail err))
                   (Rt P np [] A T nt Sr ns I (First.Cells C nc))) =
              drain First.call (length up)
                (exec (settle d (Fail err))
                   (Rt (<[p := Rejected err]> P) np [] A T nt Sr ns I (First.Cells C nc)))).
  { cbn [Nat.add].
    match goal with |- drain _ _ (exec ?m ?s) = _ =>
      eval_term first_unf first_prim (exec m s) end.
    eapply drain_cons_eq; [reflexivity|].
    cbv beta iota delta [run_job finish reject_promise set_jobs promises].
    rewrite lookup_insert_ne by lia. rewrite Hdl.
    unfold exec. destruct (settle d (Fail err) _) as [[] s']. reflexivity. }
  assert (Hch2 : chain (<[p := Rejected err]> P) d up false).
  { destruct up as [|d' up]; cbn [chain] in Hch |- *.
    - rewrite lookup_insert_ne by lia. exact Hch.
    - destruct Hch as (H1 & H2 & H3).
      split; [rewrite lookup_insert_ne by lia; exact H1|]. split; [exact H2|].
      eapply chain_frame; [|exact H3]. intros x Hx. apply lookup_insert_ne. lia. }
  destruct (chain_settle First.call _ np A T nt Sr ns I (First.Cells C nc)
              d up false (Fail err) Hch2) as (P' & E' & Hend & _).
  exists P'. split; [rewrite E; exact E'|exact Hend].
Qed.

(** X25.  [first]: the promises of the factories are fulfilled one after the
    other with values that do not satisfy the predicate, and then the promise
    of the factory in turn is rejected.  The promise that [first] returned is
    rejected with that error, and the factories after it are not invoked. *)
Theorem first_rejects_when_a_factory_rejects (fs : list nat) (stop : val -> bool)
    (dv : val) (vs : list val) (err : val) (s : First.state) :
  jobs s = [] ->
  Forall (fun v => stop v = false /\ is_promise v = false) vs ->
  length vs < length fs ->
  let r := (First.first fs stop dv s).1 in
  let s0 := (First.first fs stop dv s).2 in
  exists s1,
    feed First.call (3 + length fs) ((Fulfil <$> vs) ++ [Fail err]) s0 = Some s1 /\
    jobs s1 = [] /\
    promise_state r s1 = Some (Rejected err) /\
    invoked s1 = invoked s ++ take (S (length vs)) fs.
Proof.
  intros Hj Hall Hlen.
  destruct s as [P np J A T nt Sr ns I [C nc]]. cbn in Hj. subst J.
  destruct fs as [|f0 fs]; [cbn in Hlen; lia|].
  destruct (first_start f0 fs stop dv P np A T nt Sr ns I C nc) as (s0' & E0 & H0).
  rewrite E0. intros r s0. subst r s0. cbn [fst snd].
  edestruct first_inv_feed as (s1 & E1 & H1); [exact H0|exact Hlen|exact Hall|].
  destruct H1 as (P1 & np1 & C1 & p & d & up & Ij & f & -> & HI & HC & Hp & Hpd & Hd
                  & Hch & Hup & Hl & Hend & Hjl).
  destruct (first_fail nc (f0 :: fs) stop dv P1 np1 A T nt Sr ns (I ++ Ij ++ [(f, p)])
              C1 (S nc) p d up err Hp Hpd Hd Hch Hup) as (P' & E & HP').
  eexists. split; [|split; [|split]].
  - rewrite feed_app, E1. cbn [feed]. unfold latest_promise. cbn [invocations].
    rewrite app_assoc, last_snoc. cbn [fmap option_fmap option_map snd].
    rewrite <- app_assoc.
    rewrite (drain_mono _ (1 + length up) _ _ _ E) by lia. reflexivity.
  - reflexivity.
  - unfold promise_state. cbn [promises]. rewrite <- Hend. exact HP'.
  - unfold invoked. cbn [invocations]. rewrite fmap_app, HI. reflexivity.
Qed.

Lemma first_rejects_when_a_factory_rejects_witness :
  let r := (First.first [1; 2; 3] greater_than_3 VNull (init First.new)).1 in
  let s0 := (First.first [1; 2; 3] greater_than_3 VNull (init First.new)).2 in
  exists s1,
    feed First.call (3 + 3) ((Fulfil <$> [VNum 1]) ++ [Fail (VError "failed")]) s0 =
      Some s1 /\
    jobs s1 = [] /\
    promise_state r s1 = Some (Rejected (VError "failed")) /\
    invoked s1 = [] ++ take 2 [1; 2; 3].
Proof.
  apply (first_rejects_when_a_factory_rejects [1; 2; 3] greater_than_3 VNull [VNum 1]
           (VError "failed") (init First.new)).
  - reflexivity.
  - repeat constructor.
  - cbn. lia.
Defined.

(** ** Lazy and IdleValue: raw values, falsy errors and disposal *)

Lemma lazy_getValues_state executor n (l : LazyValue.t) :
  LazyValue._didRun l = true /\ LazyValue.runs l = 1 /\
  match executor 0 with
  | Normal v => LazyValue._value l = v /\ LazyValue._error l = VUndefined
  | Throw e => LazyValue._value l = VUndefined /\ LazyValue._error l = e
  end ->
  LazyValue._value (LazyValue.getValues executor n l).2 = LazyValue._value l.
Proof.
  revert l. induction n as [|n IH]; intros l Hl; [reflexivity|].
  cbn [LazyValue.getValues].
  destruct (lazy_getValue_spec executor l (or_intror Hl)) as (_ & Hd & Hn & Hc).
  assert (Hv : LazyValue._value (LazyValue.getValue executor l).2 = LazyValue._value l).
  { destruct Hl as (_ & _ & Hl). destruct (executor 0); destruct Hc, Hl; congruence. }
  destruct (LazyValue.getValue executor l) as [r l1]. cbn [snd] in *.
  specialize (IH l1 (conj Hd (conj Hn Hc))).
  destruct (LazyValue.getValues executor n l1) as [rs l2]. cbn [snd] in *. congruence.
Qed.

(** X26.  [Lazy.rawValue] does not force the evaluation: it is [undefined]
    until the first [getValue()]; after it, it is the value that the executor
    returned, and [undefined] still when the executor threw. *)
Theorem lazy_rawValue_is_the_value_of_the_first_run (executor : nat -> completion)
    (n : nat) :
  LazyRaw.rawValue (LazyValue.getValues executor n LazyValue.new).2 =
  match n, executor 0 with
  | S _, Normal v => v
  | _, _ => VUndefined
  end.
Proof.
  unfold LazyRaw.rawValue. destruct n as [|n]; [reflexivity|].
  cbn [LazyValue.getValues].
  destruct (lazy_getValue_spec executor LazyValue.new) as (_ & Hd & Hn & Hc);
    [left; repeat split|].
  pose proof (lazy_getValues_state executor n _ (conj Hd (conj Hn Hc))) as Hs.
  destruct (LazyValue.getValue executor LazyValue.new) as [r l1]. cbn [snd] in *.
  destruct (LazyValue.getValues executor n l1) as [rs l2]. cbn [snd] in *.
  rewrite Hs. destruct (executor 0); destruct Hc; assumption.
Qed.

(** X27.  [Lazy] and [IdleValue]: when the executor throws a value that is
    falsy ([undefined], [null], [0], the empty string), no access throws:
    every one returns [undefined]. *)
Theorem falsy_errors_are_not_thrown_again (executor : nat -> completion) (e : val)
    (n : nat) (evs : list IdleValue.event) :
  executor 0 = Throw e -> truthy e = false ->
  (LazyValue.getValues executor n LazyValue.new).1 = replicate n (Normal VUndefined) /\
  Forall (fun r => r = Normal VUndefined) (IdleValue.run executor evs IdleValue.new).1.
Proof.
  intros He Ht. split.
  - destruct (lazy_getValues_spec executor n LazyValue.new) as (H1 & _);
      [left; repeat split|].
    rewrite H1, He. cbn. rewrite Ht. reflexivity.
  - destruct (idle_run_spec executor evs _ (idle_inv_new executor)) as (_ & _ & _ & H4).
    rewrite He in H4. cbn in H4. rewrite Ht in H4. exact H4.
Qed.

Lemma falsy_errors_are_not_thrown_again_witness :
  (LazyValue.getValues (fun _ => Throw VNull) 2 LazyValue.new).1 =
    replicate 2 (Normal VUndefined) /\
  Forall (fun r => r = Normal VUndefined)
    (IdleValue.run (fun _ => Throw VNull)
       [IdleValue.Access; IdleValue.IdleTime; IdleValue.Access] IdleValue.new).1.
Proof.
  apply (falsy_errors_are_not_thrown_again (fun _ => Throw VNull) VNull 2
           [IdleValue.Access; IdleValue.IdleTime; IdleValue.Access]); reflexivity.
Defined.

Definition is_access (e : IdleValue.event) : bool :=
  match e with IdleValue.Access => true | _ => false end.

Lemma idle_disposed_stays evs executor (st : IdleValue.t) :
  IdleValue.scheduled st = false -> existsb is_access evs = false ->
  (IdleValue.run executor evs st).1 = [] /\
  IdleValue.runs (IdleValue.run executor evs st).2 = IdleValue.runs st.
Proof.
  revert st. induction evs as [|ev evs IH]; intros st Hs Ha; [split; reflexivity|].
  destruct ev; cbn in Ha; [discriminate| |]; cbn [IdleValue.run].
  - unfold IdleValue.idle. rewrite Hs. apply IH; assumption.
  - assert (Hd : IdleValue.scheduled (IdleValue.dispose st) = false /\
                 IdleValue.runs (IdleValue.dispose st) = IdleValue.runs st).
    { unfold IdleValue.dispose, IdleValue.handle_dispose.
      destruct (IdleValue.handle_disposed st); [split; [exact Hs|reflexivity]|].
      split; reflexivity. }
    destruct Hd as (Hd1 & Hd2). rewrite <- Hd2. apply IH; assumption.
Qed.

(** X28.  [IdleValue.dispose] before the idle time: the scheduled run is
    given up, and as long as the value is not accessed the executor never
    runs, whatever idle times and disposals follow. *)
Theorem idle_value_dispose_gives_up_the_scheduled_run (executor : nat -> completion)
    (evs : list IdleValue.event) :
  existsb is_access evs = false ->
  IdleValue.runs (IdleValue.run executor (IdleValue.Dispose :: evs) IdleValue.new).2 = 0.
Proof.
  intros Ha. cbn [IdleValue.run].
  destruct (idle_disposed_stays evs executor (IdleValue.dispose IdleValue.new))
    as (_ & H); [reflexivity|exact Ha|].
  rewrite H. reflexivity.
Qed.

Lemma idle_value_dispose_gives_up_the_scheduled_run_witness :
  IdleValue.runs
    (IdleValue.run (fun _ => Normal (VNum 1))
       (IdleValue.Dispose :: [IdleValue.IdleTime; IdleValue.Dispose; IdleValue.IdleTime])
       IdleValue.new).2 = 0.
Proof.
  apply (idle_value_dispose_gives_up_the_scheduled_run (fun _ => Normal (VNum 1))
           [IdleValue.IdleTime; IdleValue.Dispose; IdleValue.IdleTime]).
  reflexivity.
Defined.

(** ** Flattening document symbols *)

Section SymbolInd.
  Import DocumentSymbols.
Variable P : symbol -> Prop.
Hypothesis Hleaf : forall n i c, P (DocumentSymbol n i c None).
Hypothesis Hnode : forall n i c l, Forall P l -> P (DocumentSymbol n i c (Some l)).

  (** Induction on a symbol, with the hypothesis for all its children. *)
Fixpoint symbol_ind' (e : symbol) : P e :=
    match e with
    | DocumentSymbol n i c None => Hleaf n i c
    | DocumentSymbol n i c (Some l) =>
        Hnode n i c l
          ((fix go (l : list symbol) : Forall P l :=
              match l with
              | [] => @Stdlib.Lists.List.Forall_nil _ P
              | x :: r => @Stdlib.Lists.List.Forall_cons _ P x r (symbol_ind' x) (go r)
              end) l)
    end.
End SymbolInd.

Import DocumentSymbols.

Lemma flatten_entry_node bucket n i c l o :
  flatten_entry bucket (DocumentSymbol n i c (Some l)) o =
  _flattenDocumentSymbols (bucket ++ [DocumentSymbol n i (or_label c o) None]) l n.
Proof.
  cbn [flatten_entry]. generalize (bucket ++ [DocumentSymbol n i (or_label c o) None]).
  induction l as [|e l IH]; intros b; [reflexivity|]. cbn [_flattenDocumentSymbols].
  apply IH.
Qed.

Lemma size_node n i c l : size (DocumentSymbol n i c (Some l)) = S (sizes l).
Proof. reflexivity. Qed.

(** A symbol as [_flattenDocumentSymbols] pushes it. *)
Definition flat (e : symbol) : Prop :=
  children e = None /\ is_Some (containerName e).

Lemma flatten_list_spec (l : list symbol) :
  Forall (fun e => forall bucket o,
            flatten_entry bucket e o = bucket ++ flatten_entry [] e o /\
            length (flatten_entry [] e o) = size e /\
            Forall flat (flatten_entry [] e o)) l ->
  forall bucket o,
    _flattenDocumentSymbols bucket l o = bucket ++ _flattenDocumentSymbols [] l o /\
    length (_flattenDocumentSymbols [] l o) = sizes l /\
    Forall flat (_flattenDocumentSymbols [] l o).
Proof.
  induction 1 as [|e l He _ IH]; intros bucket o.
  - cbn. rewrite app_nil_r. repeat split. constructor.
  - cbn [_flattenDocumentSymbols sizes].
    destruct (He bucket o) as (E1 & _ & _). destruct (He [] o) as (_ & L1 & F1).
    destruct (IH (flatten_entry bucket e o) o) as (E2 & _ & _).
    destruct (IH (flatten_entry [] e o) o) as (E3 & L3 & F3).
    split; [|split].
    + rewrite E2, E3, E1, app_assoc. reflexivity.
    + rewrite E3, length_app, L1, L3. reflexivity.
    + rewrite E3. apply Forall_app. split; assumption.
Qed.

Lemma flatten_entry_spec (e : symbol) : forall bucket o,
  flatten_entry bucket e o = bucket ++ flatten_entry [] e o /\
  length (flatten_entry [] e o) = size e /\
  Forall flat (flatten_entry [] e o).
Proof.
  induction e as [n i c|n i c l IH] using symbol_ind'; intros bucket o.
  - cbn. repeat split. repeat constructor. destruct c as [[|a s]|]; cbn; eauto.
  - rewrite !flatten_entry_node, size_node.
    pose proof (flatten_list_spec l IH) as Hl.
    destruct (Hl (bucket ++ [DocumentSymbol n i (or_label c o) None]) n) as (E1 & _ & _).
    destruct (Hl ([] ++ [DocumentSymbol n i (or_label c o) None]) n) as (E2 & L2 & F2).
    split; [|split].
    + rewrite E1, E2, <- !app_assoc. reflexivity.
    + rewrite E2, length_app, L2. reflexivity.
    + rewrite E2. apply Forall_app. split; [|exact F2].
      repeat constructor. destruct c as [[|a s]|]; cbn; eauto.
Qed.

Lemma flatten_spec (bucket entries : list symbol) (o : string) :
  _flattenDocumentSymbols bucket entries o =
    bucket ++ _flattenDocumentSymbols [] entries o /\
  length (_flattenDocumentSymbols [] entries o) = sizes entries /\
  Forall flat (_flattenDocumentSymbols [] entries o).
Proof.
  apply flatten_list_spec. apply Forall_forall. intros e _. apply flatten_entry_spec.
Qed.

(** X29.  [_flattenDocumentSymbols] only appends to the bucket: what the
    bucket held stays in front; it appends one symbol for every symbol of the
    forest, children included; and every symbol it appends has no children
    and has a container name. *)
Theorem flatten_appends_every_symbol_once (bucket entries : list symbol) (o : string) :
  _flattenDocumentSymbols bucket entries o =
    bucket ++ _flattenDocumentSymbols [] entries o /\
  length (_flattenDocumentSymbols bucket entries o) = length bucket + sizes entries /\
  Forall flat (_flattenDocumentSymbols [] entries o).
Proof.
  destruct (flatten_spec bucket entries o) as (E & L & F).
  split; [exact E|]. split; [|exact F].
  rewrite E, length_app, L. reflexivity.
Qed.

Lemma flatten_flat (l : list symbol) :
  Forall flat l -> forall bucket, _flattenDocumentSymbols bucket l EmptyString = bucket ++ l.
Proof.
  induction 1 as [|e l [Hc Hn] _ IH]; intros bucket; cbn [_flattenDocumentSymbols].
  - rewrite app_nil_r. reflexivity.
  - rewrite IH. destruct e as [n i c ch]. cbn in Hc, Hn. subst ch.
    destruct Hn as [x ->]. cbn [flatten_entry].
    rewrite <- app_assoc. do 3 f_equal. destruct x; reflexivity.
Qed.

(** X30.  Flattening is idempotent: a list that was flattened is left as it
    is when it is flattened again at the top level, with the empty label. *)
Theorem flatten_of_flattened (entries : list symbol) (o : string) :
  _flattenDocumentSymbols [] (_flattenDocumentSymbols [] entries o) EmptyString =
  _flattenDocumentSymbols [] entries o.
Proof.
  rewrite flatten_flat; [reflexivity|].
  apply (flatten_spec [] entries o).
Qed.
